(** * Verification of the DART tasking runtime (dash)

    Shallow embeddings of
    - the per-NUMA task queue of [dart_tasking_copyin.c]
      ([task_deque_*], [dart_tasking_taskqueue_*]) as a heap of tasks with
      [next]/[prev] pointers and deques holding [head]/[tail] pointers;
    - [requeue_task], [dart__tasking__yield] and [dart__tasking__create_task]
      of [dart_tasking_instrumentation.c];
    - context management of [dart_tasking_context.c];
    - the copy-in memory pool of [dart_tasking_copyin.c];
    - the send/receive active-message queue of [GlobIter.h]. *)

From Stdlib Require Import List Arith Lia ZArith Bool Permutation.
Import ListNotations.

(* ------------------------------------------------------------------ *)
(** ** Task queues *)

Module TaskQueue.

Inductive dart_task_prio_t := DART_PRIO_LOW | DART_PRIO_DEFAULT | DART_PRIO_HIGH.

Definition prio_is_high (p : dart_task_prio_t) : bool :=
  match p with DART_PRIO_HIGH => true | _ => false end.

(** A task pointer; [None] is [NULL]. *)
Definition ptr := option nat.

Definition ptr_eqb (a b : ptr) : bool :=
  match a, b with
  | None, None => true
  | Some x, Some y => Nat.eqb x y
  | _, _ => false
  end.

(** The fields of [dart_task_t] the queue code touches. *)
Record dart_task_t := mk_task { next : ptr; prev : ptr; prio : dart_task_prio_t }.

Record task_deque := mk_deque { head : ptr; tail : ptr }.

Record dart_taskqueue_t := mk_tq { highprio : task_deque; lowprio : task_deque }.

(** Which of the two deques of a queue. *)
Inductive which := High | Low.

Definition which_eqb (a b : which) : bool :=
  match a, b with High, High | Low, Low => true | _, _ => false end.

(** Address of a deque: the index of its task queue and the deque in it. *)
Definition dqaddr := (nat * which)%type.

Definition dq_eqb (a b : dqaddr) : bool :=
  Nat.eqb (fst a) (fst b) && which_eqb (snd a) (snd b).

(** The memory: all tasks and all task queues (the array [task_queue[]]
    and any other [dart_taskqueue_t] objects, by index). *)
Record state := mk_state { tasks : nat -> dart_task_t; queues : nat -> dart_taskqueue_t }.

Definition dq_of (tq : dart_taskqueue_t) (w : which) : task_deque :=
  match w with High => highprio tq | Low => lowprio tq end.

Definition dq (s : state) (d : dqaddr) : task_deque := dq_of (queues s (fst d)) (snd d).

Definition heap := nat -> dart_task_t.

Definition hset_next (h : heap) (x : nat) (v : ptr) : heap :=
  fun y => if Nat.eqb y x then mk_task v (prev (h x)) (prio (h x)) else h y.

Definition hset_prev (h : heap) (x : nat) (v : ptr) : heap :=
  fun y => if Nat.eqb y x then mk_task (next (h x)) v (prio (h x)) else h y.

Definition set_next (s : state) (x : nat) (v : ptr) : state :=
  {| tasks := hset_next (tasks s) x v; queues := queues s |}.

Definition set_prev (s : state) (x : nat) (v : ptr) : state :=
  {| tasks := hset_prev (tasks s) x v; queues := queues s |}.

Definition set_dq (s : state) (d : dqaddr) (v : task_deque) : state :=
  {| tasks := tasks s;
     queues := fun q => if Nat.eqb q (fst d)
                        then match snd d with
                             | High => mk_tq v (lowprio (queues s q))
                             | Low => mk_tq (highprio (queues s q)) v
                             end
                        else queues s q |}.

(** A small state-and-failure monad. Failure stands for a [NULL]
    dereference or a failing [DART_ASSERT]. *)
Definition M (A : Type) := state -> option (A * state).

Definition ret {A} (a : A) : M A := fun s => Some (a, s).
Definition bind {A B} (m : M A) (k : A -> M B) : M B :=
  fun s => match m s with Some (a, s') => k a s' | None => None end.
Definition fail {A} : M A := fun _ => None.

Notation "x <- m ;; k" := (bind m (fun x => k))
  (at level 61, m at next level, right associativity).
Notation "m ;;; k" := (bind m (fun _ => k))
  (at level 61, right associativity).

Definition assert (b : bool) : M unit := if b then ret tt else fail.

Definition load_dq (d : dqaddr) : M task_deque := fun s => Some (dq s d, s).
Definition store_head (d : dqaddr) (v : ptr) : M unit :=
  fun s => Some (tt, set_dq s d (mk_deque v (tail (dq s d)))).
Definition store_tail (d : dqaddr) (v : ptr) : M unit :=
  fun s => Some (tt, set_dq s d (mk_deque (head (dq s d)) v)).

(** [p->next], [p->prev] and the stores to them; [NULL] fails. *)
Definition load_next (p : ptr) : M ptr :=
  fun s => match p with Some x => Some (next (tasks s x), s) | None => None end.
Definition load_prev (p : ptr) : M ptr :=
  fun s => match p with Some x => Some (prev (tasks s x), s) | None => None end.
Definition load_prio (p : ptr) : M dart_task_prio_t :=
  fun s => match p with Some x => Some (prio (tasks s x), s) | None => None end.
Definition store_next (p : ptr) (v : ptr) : M unit :=
  fun s => match p with Some x => Some (tt, set_next s x v) | None => None end.
Definition store_prev (p : ptr) (v : ptr) : M unit :=
  fun s => match p with Some x => Some (tt, set_prev s x v) | None => None end.

Definition is_nonnull (p : ptr) : bool := match p with Some _ => true | None => false end.

(** The post condition asserted at the end of the deque operations. *)
Definition both_nonnull (dq : task_deque) : bool :=
  is_nonnull (head dq) && is_nonnull (tail dq).

(** [task_deque_pop] *)
Definition task_deque_pop (d : dqaddr) : M ptr :=
  dq0 <- load_dq d;;
  let task := head dq0 in
  (if is_nonnull (head dq0) then
     assert (both_nonnull dq0);;;
     (if ptr_eqb (head dq0) (tail dq0) then
        store_head d None;;; store_tail d None
      else
        (* simply advance the head pointer *)
        nx <- load_next task;;
        store_head d nx;;;
        (* the head has no previous element *)
        dq1 <- load_dq d;;
        store_prev (head dq1) None);;;
     store_prev task None;;;
     store_next task None
   else ret tt);;;
  (* post condition *)
  dq2 <- load_dq d;;
  assert (both_nonnull dq2 || negb (is_nonnull (head dq2) || is_nonnull (tail dq2)));;;
  ret task.

(** [task_deque_push] *)
Definition task_deque_push (d : dqaddr) (task : ptr) : M unit :=
  dq0 <- load_dq d;;
  (if negb (is_nonnull (head dq0)) then
     (* task queue previously empty *)
     store_head d task;;;
     dq1 <- load_dq d;;
     store_tail d (head dq1)
   else
     store_next task (head dq0);;;
     store_prev (head dq0) task;;;
     store_head d task);;;
  dq2 <- load_dq d;;
  assert (both_nonnull dq2).

(** [task_deque_pushback] *)
Definition task_deque_pushback (d : dqaddr) (task : ptr) : M unit :=
  dq0 <- load_dq d;;
  (if negb (is_nonnull (head dq0)) then
     store_head d task;;;
     dq1 <- load_dq d;;
     store_tail d (head dq1)
   else
     store_prev task (tail dq0);;;
     store_next (tail dq0) task;;;
     store_tail d task);;;
  dq2 <- load_dq d;;
  assert (both_nonnull dq2).

(** The search loop of [task_deque_insert]:
    [while (tmp != NULL && count++ < pos) tmp = tmp->next;]
    started with [count = 0]; [k] is [pos - count]. *)
Fixpoint insert_walk (k : nat) (tmp : ptr) : M ptr :=
  match tmp, k with
  | None, _ => ret None
  | Some _, 0 => ret tmp
  | Some _, S k' => nx <- load_next tmp;; insert_walk k' nx
  end.

(** [task_deque_insert] *)
Definition task_deque_insert (d : dqaddr) (task : ptr) (pos : nat) : M unit :=
  dq0 <- load_dq d;;
  (* insert at front? *)
  if Nat.eqb pos 0 || negb (is_nonnull (head dq0)) then
    task_deque_push d task
  else
    (* find the position to insert *)
    tmp <- insert_walk pos (head dq0);;
    tmpnext <- (if is_nonnull tmp then load_next tmp else ret None);;
    (* insert at back? *)
    if negb (is_nonnull tmp) || negb (is_nonnull tmpnext) then
      task_deque_pushback d task
    else
      store_next task None;;;
      store_prev task None;;;
      (* insert somewhere in between! *)
      tn <- load_next tmp;;
      store_next task tn;;;
      tn' <- load_next task;;
      store_prev tn' task;;;
      store_prev task tmp;;;
      store_next tmp task;;;
      dq2 <- load_dq d;;
      assert (both_nonnull dq2).

(** [task_deque_popback] *)
Definition task_deque_popback (d : dqaddr) : M ptr :=
  dq0 <- load_dq d;;
  if is_nonnull (tail dq0) then
    assert (both_nonnull dq0);;;
    let task := tail dq0 in
    pv <- load_prev task;;
    store_tail d pv;;;
    (if negb (is_nonnull pv) then
       (* stealing the last element in the queue *)
       store_head d None
     else
       store_next pv None);;;
    store_prev task None;;;
    store_next task None;;;
    ret task
  else ret None.

(** [task_deque_move]: splice [src] in front of [dst]. *)
Definition task_deque_move (dst src : dqaddr) : M unit :=
  s0 <- load_dq src;;
  if both_nonnull s0 then
    d0 <- load_dq dst;;
    (if is_nonnull (head d0) then
       store_next (tail s0) (head d0);;;
       store_prev (head d0) (tail s0)
     else
       store_tail dst (tail s0));;;
    store_head dst (head s0);;;
    store_tail src None;;;
    store_head src None
  else ret tt.

(** Queue level operations on the queue with index [q]. The locking
    wrappers ([dart_tasking_taskqueue_push] etc.) take the queue mutex
    around these; the model is sequential, so they are the same. *)

Definition deque_for (q : nat) (p : dart_task_prio_t) : dqaddr :=
  (q, if prio_is_high p then High else Low).

(** [dart_tasking_taskqueue_push_unsafe] *)
Definition dart_tasking_taskqueue_push (q : nat) (task : ptr) : M unit :=
  assert (is_nonnull task);;;
  h <- load_dq (q, High);;
  l <- load_dq (q, Low);;
  assert (negb (ptr_eqb task (head h)) && negb (ptr_eqb task (head l)));;;
  store_next task None;;;
  store_prev task None;;;
  p <- load_prio task;;
  task_deque_push (deque_for q p) task.

(** [dart_tasking_taskqueue_pushback_unsafe] *)
Definition dart_tasking_taskqueue_pushback (q : nat) (task : ptr) : M unit :=
  assert (is_nonnull task);;;
  store_next task None;;;
  store_prev task None;;;
  p <- load_prio task;;
  task_deque_pushback (deque_for q p) task.

(** [dart_tasking_taskqueue_insert_unsafe] *)
Definition dart_tasking_taskqueue_insert (q : nat) (task : ptr) (pos : nat) : M unit :=
  assert (is_nonnull task);;;
  store_next task None;;;
  store_prev task None;;;
  p <- load_prio task;;
  task_deque_insert (deque_for q p) task pos.

(** [dart_tasking_taskqueue_pop_unsafe] *)
Definition dart_tasking_taskqueue_pop (q : nat) : M ptr :=
  task <- task_deque_pop (q, High);;
  if negb (is_nonnull task) then task_deque_pop (q, Low) else ret task.

(** [dart_tasking_taskqueue_popback_unsafe] *)
Definition dart_tasking_taskqueue_popback (q : nat) : M ptr :=
  task <- task_deque_popback (q, High);;
  if negb (is_nonnull task) then task_deque_popback (q, Low) else ret task.

(** [dart_tasking_taskqueue_remove_unsafe] *)
Definition dart_tasking_taskqueue_remove (q : nat) (task : ptr) : M unit :=
  if is_nonnull task then
    pv <- load_prev task;;
    nx <- load_next task;;
    (if is_nonnull pv then store_next pv nx else ret tt);;;
    (if is_nonnull nx then store_prev nx pv else ret tt);;;
    store_prev task None;;;
    store_next task None;;;
    h <- load_dq (q, High);;
    l <- load_dq (q, Low);;
    (if ptr_eqb task (head h) then store_head (q, High) nx
     else if ptr_eqb task (head l) then store_head (q, Low) nx
     else ret tt);;;
    h' <- load_dq (q, High);;
    l' <- load_dq (q, Low);;
    (if ptr_eqb task (tail h') then store_tail (q, High) pv
     else if ptr_eqb task (tail l') then store_tail (q, Low) pv
     else ret tt)
  else ret tt.

(** [dart_tasking_taskqueue_move_unsafe] *)
Definition dart_tasking_taskqueue_move (dst src : nat) : M unit :=
  task_deque_move (dst, High) (src, High);;;
  task_deque_move (dst, Low) (src, Low).

(** The empty deque, and the memory with all queues empty and all tasks
    unlinked; [prio_of] gives each task's priority. *)
Definition empty_deque := mk_deque None None.

Definition init_state (prio_of : nat -> dart_task_prio_t) : state :=
  {| tasks := fun x => mk_task None None (prio_of x);
     queues := fun _ => mk_tq empty_deque empty_deque |}.

(** Reading a deque back by following [next] from [head] (at most
    [fuel] steps); used to look at concrete states. *)
Fixpoint follow (fuel : nat) (s : state) (p : ptr) : list nat :=
  match fuel, p with
  | S f, Some x => x :: follow f s (next (tasks s x))
  | _, _ => []
  end.

Definition deque_list (s : state) (d : dqaddr) : list nat := follow 100 s (head (dq s d)).

(** *** Representation of a deque as a list of tasks

    [dseg h l p f la n]: following [next] from [f] visits the tasks of [l]
    in order; [p] is the [prev] of the first one, [la] the last one and
    [n] the [next] of the last one. *)
Fixpoint dseg (h : heap) (l : list nat) (p f la n : ptr) : Prop :=
  match l with
  | [] => f = n /\ la = p
  | x :: l' => f = Some x /\ prev (h x) = p /\ dseg h l' (Some x) (next (h x)) la n
  end.

Definition rep (h : heap) (d : task_deque) (l : list nat) : Prop :=
  dseg h l None (head d) (tail d) None.

(** The well-formed states: every deque holds a list of distinct tasks, no
    task is in two deques, unqueued tasks carry no links and each task sits
    in the deque its priority selects. *)
Record wf (s : state) (L : dqaddr -> list nat) : Prop := {
  wf_rep : forall d, rep (tasks s) (dq s d) (L d);
  wf_nodup : forall d, NoDup (L d);
  wf_disj : forall d1 d2 x, In x (L d1) -> In x (L d2) -> d1 = d2;
  wf_free : forall x, (forall d, ~ In x (L d)) ->
            next (tasks s x) = None /\ prev (tasks s x) = None;
  wf_prio : forall d x, In x (L d) -> deque_for (fst d) (prio (tasks s x)) = d
}.

(** *** The list-level behaviour of the operations *)

Definition Lset (L : dqaddr -> list nat) (d : dqaddr) (l : list nat) : dqaddr -> list nat :=
  fun d' => if dq_eqb d' d then l else L d'.

Definition insert_list (pos : nat) (t : nat) (l : list nat) : list nat :=
  match pos, l with
  | 0, _ | _, [] => t :: l
  | _, _ => firstn (S pos) l ++ t :: skipn (S pos) l
  end.

Inductive op :=
| OpPush (q t : nat)
| OpPushback (q t : nat)
| OpInsert (q t pos : nat)
| OpPop (q : nat)
| OpPopback (q : nat)
| OpMove (dst src : nat)
| OpRemove (q t : nat).

Definition exec_op (o : op) : M ptr :=
  match o with
  | OpPush q t => dart_tasking_taskqueue_push q (Some t);;; ret None
  | OpPushback q t => dart_tasking_taskqueue_pushback q (Some t);;; ret None
  | OpInsert q t pos => dart_tasking_taskqueue_insert q (Some t) pos;;; ret None
  | OpPop q => dart_tasking_taskqueue_pop q
  | OpPopback q => dart_tasking_taskqueue_popback q
  | OpMove dst src => dart_tasking_taskqueue_move dst src;;; ret None
  | OpRemove q t => dart_tasking_taskqueue_remove q (Some t);;; ret None
  end.

(** The callers' side of the contract: a task is put into a queue only
    when it is in none, queues are moved into other queues, and a task is
    removed from the queue it is in (or when it is in none). *)
Definition pre (o : op) (L : dqaddr -> list nat) : Prop :=
  match o with
  | OpPush _ t | OpPushback _ t | OpInsert _ t _ => forall d, ~ In t (L d)
  | OpPop _ | OpPopback _ => True
  | OpMove dst src => dst <> src
  | OpRemove q t => In t (L (q, High)) \/ In t (L (q, Low)) \/ forall d, ~ In t (L d)
  end.

Definition abs_op (s : state) (o : op) (L : dqaddr -> list nat) : dqaddr -> list nat :=
  match o with
  | OpPush q t => let d := deque_for q (prio (tasks s t)) in Lset L d (t :: L d)
  | OpPushback q t => let d := deque_for q (prio (tasks s t)) in Lset L d (L d ++ [t])
  | OpInsert q t pos =>
      let d := deque_for q (prio (tasks s t)) in Lset L d (insert_list pos t (L d))
  | OpPop q =>
      match L (q, High) with
      | _ :: l => Lset L (q, High) l
      | [] => Lset L (q, Low) (tl (L (q, Low)))
      end
  | OpPopback q =>
      match L (q, High) with
      | _ :: _ => Lset L (q, High) (removelast (L (q, High)))
      | [] => Lset L (q, Low) (removelast (L (q, Low)))
      end
  | OpMove dst src =>
      Lset (Lset (Lset (Lset L (dst, High) (L (src, High) ++ L (dst, High)))
                       (src, High) [])
                 (dst, Low) (L (src, Low) ++ L (dst, Low)))
           (src, Low) []
  | OpRemove q t =>
      Lset (Lset L (q, High) (remove Nat.eq_dec t (L (q, High))))
           (q, Low) (remove Nat.eq_dec t (L (q, Low)))
  end.

(** The states reached from the empty queues by operations that respect
    the contract, with the lists the deques hold. *)
Inductive reach (prio_of : nat -> dart_task_prio_t) : state -> (dqaddr -> list nat) -> Prop :=
| reach_init : reach prio_of (init_state prio_of) (fun _ => [])
| reach_step s L o r s' :
    reach prio_of s L -> pre o L -> exec_op o s = Some (r, s') ->
    reach prio_of s' (abs_op s o L).

(** Running a program on a state. *)
Definition run {A} (m : M A) (s : state) : option (A * state) := m s.

Definition exec_state {A} (m : M A) (s : state) : option state :=
  match m s with Some (_, s') => Some s' | None => None end.

(** The last element of a list, as a task pointer. *)
Definition last_opt (l : list nat) : ptr :=
  match l with [] => None | _ :: _ => Some (last l 0) end.

(** The other deque of the same queue. *)
Definition other (w : which) : which := match w with High => Low | Low => High end.

(** The state after one operation (unchanged if it fails), and a small
    example: two tasks, [1] of high and [2] of low priority, pushed into
    queue [0]. *)
Definition after (o : op) (s : state) : state :=
  match exec_op o s with Some (_, s') => s' | None => s end.
Definition example_prio (x : nat) : dart_task_prio_t :=
  if Nat.eqb x 1 then DART_PRIO_HIGH else DART_PRIO_LOW.
Definition example_state1 := after (OpPush 0 2) (init_state example_prio).
Definition example_L1 := abs_op (init_state example_prio) (OpPush 0 2) (fun _ => []).
Definition example_state := after (OpPush 0 1) example_state1.
Definition example_L := abs_op example_state1 (OpPush 0 1) example_L1.

(** The fields of [dart_thread_t] that [requeue_task] reads: the queue
    [dart__tasking__get_taskqueue()] returns for the thread, and [delay]. *)
Record dart_thread_t := mk_thread { thread_queue : nat; delay : Z }.

(** [requeue_task] (in the build with [USE_UCONTEXT]). *)
Definition requeue_task (thread : dart_thread_t) (task : nat) : M unit :=
  let q := thread_queue thread in
  let delay := delay thread in
  if Z.eqb delay 0 then dart_tasking_taskqueue_push q (Some task)
  else if Z.ltb 0 delay then dart_tasking_taskqueue_insert q (Some task) (Z.to_nat delay)
  else dart_tasking_taskqueue_pushback q (Some task).

(** Three low-priority tasks [1], [2], [3] pushed to the back of the low
    deque of queue [0]. *)
Definition cex_prio (x : nat) : dart_task_prio_t := DART_PRIO_LOW.
Definition cex_state1 := after (OpPushback 0 1) (init_state cex_prio).
Definition cex_L1 := abs_op (init_state cex_prio) (OpPushback 0 1) (fun _ => []).
Definition cex_state2 := after (OpPushback 0 2) cex_state1.
Definition cex_L2 := abs_op cex_state1 (OpPushback 0 2) cex_L1.
Definition cex_state := after (OpPushback 0 3) cex_state2.
Definition cex_L := abs_op cex_state2 (OpPushback 0 3) cex_L2.

End TaskQueue.

(* ------------------------------------------------------------------ *)
(** ** Return codes *)

Module DartTypes.

(** The return codes of the DART interface used below. *)
Inductive dart_ret_t := DART_OK | DART_PENDING | DART_ERR_INVAL | DART_ERR_NOTFOUND
  | DART_ERR_NOTINIT | DART_ERR_AGAIN | DART_ERR_OTHER.

Definition ret_eqb (a b : dart_ret_t) : bool :=
  match a, b with
  | DART_OK, DART_OK | DART_PENDING, DART_PENDING | DART_ERR_INVAL, DART_ERR_INVAL
  | DART_ERR_NOTFOUND, DART_ERR_NOTFOUND | DART_ERR_NOTINIT, DART_ERR_NOTINIT
  | DART_ERR_AGAIN, DART_ERR_AGAIN | DART_ERR_OTHER, DART_ERR_OTHER => true
  | _, _ => false
  end.

End DartTypes.

(* ------------------------------------------------------------------ *)
(** ** Scheduler: yield and task creation *)

Module Tasking.

Import DartTypes.

Inductive dart_task_state_t :=
  DART_TASK_ROOT | DART_TASK_NASCENT | DART_TASK_CREATED | DART_TASK_QUEUED
| DART_TASK_DEFERRED | DART_TASK_RUNNING | DART_TASK_SUSPENDED | DART_TASK_BLOCKED
| DART_TASK_DETACHED | DART_TASK_FINISHED | DART_TASK_CANCELLED | DART_TASK_DESTROYED.

Definition state_eqb (a b : dart_task_state_t) : bool :=
  match a, b with
  | DART_TASK_ROOT, DART_TASK_ROOT | DART_TASK_NASCENT, DART_TASK_NASCENT
  | DART_TASK_CREATED, DART_TASK_CREATED | DART_TASK_QUEUED, DART_TASK_QUEUED
  | DART_TASK_DEFERRED, DART_TASK_DEFERRED | DART_TASK_RUNNING, DART_TASK_RUNNING
  | DART_TASK_SUSPENDED, DART_TASK_SUSPENDED | DART_TASK_BLOCKED, DART_TASK_BLOCKED
  | DART_TASK_DETACHED, DART_TASK_DETACHED | DART_TASK_FINISHED, DART_TASK_FINISHED
  | DART_TASK_CANCELLED, DART_TASK_CANCELLED | DART_TASK_DESTROYED, DART_TASK_DESTROYED => true
  | _, _ => false
  end.

Inductive dart_task_prio_t :=
  DART_PRIO_PARENT | DART_PRIO_INLINE | DART_PRIO_LOW | DART_PRIO_DEFAULT | DART_PRIO_HIGH.

(** [DART_PHASE_ANY] or a phase number. *)
Inductive dart_taskphase_t := DART_PHASE_ANY | DART_PHASE (n : nat).

(** The fields of a task the scheduler code below reads and writes; the
    flags [DART_TASK_INLINE], [DART_TASK_IMMEDIATE], [DART_TASK_HAS_REF]
    and [DART_TASK_IS_COMMTASK] as booleans, [wait_handle != NULL] as
    [has_wait_handle]. *)
Record dart_task_t := mk_task {
  state : dart_task_state_t;
  prio : dart_task_prio_t;
  flag_inline : bool;
  flag_immediate : bool;
  flag_has_ref : bool;
  flag_commtask : bool;
  has_wait_handle : bool;
  unresolved_deps : nat;
  parent : nat;
  phase : dart_taskphase_t;
  num_children : nat
}.

(** The scheduler state seen by one thread. [cancellation] is the value of
    [dart__tasking__cancellation_requested()]; [ready] is what
    [next_task(thread)] hands out, in order, and [remote_ready] what
    [remote_progress] makes runnable; [queued] collects the tasks
    [enqueue_runnable] puts into the thread's slots or the NUMA queues,
    [deferred] is [local_deferred_tasks], [inlined] the tasks run through
    [handle_inline_task] and [comm] those passed to
    [dart_tasking_remote_handle_comm_task]; [progress_calls] counts the
    calls of [dart_tasking_remote_progress]. [num_units] is the number of
    units, [last_progress_ts] the thread's field of that name and [clock]
    what [current_time_us()] returns during the call. *)
Record sched := mk_sched {
  threads_running : bool;
  cancellation : bool;
  root_task : nat;
  current_task : nat;
  task_of : nat -> dart_task_t;
  next_free : nat;
  thread_delay : Z;
  thread_next_task : option nat;
  ready : list nat;
  remote_ready : list nat;
  queued : list nat;
  deferred : list nat;
  inlined : list nat;
  comm : list nat;
  phase_current : nat;
  phase_is_runnable : nat -> bool;
  progress_calls : nat;
  num_units : Z;
  last_progress_ts : Z;
  clock : Z
}.

Definition set_task (s : sched) (t : nat) (f : dart_task_t -> dart_task_t) : sched :=
  {| threads_running := threads_running s; cancellation := cancellation s;
     root_task := root_task s; current_task := current_task s;
     task_of := fun x => if Nat.eqb x t then f (task_of s x) else task_of s x;
     next_free := next_free s; thread_delay := thread_delay s;
     thread_next_task := thread_next_task s; ready := ready s;
     remote_ready := remote_ready s; queued := queued s; deferred := deferred s;
     inlined := inlined s; comm := comm s; phase_current := phase_current s;
     phase_is_runnable := phase_is_runnable s; progress_calls := progress_calls s;
     num_units := num_units s; last_progress_ts := last_progress_ts s; clock := clock s |}.

Definition with_state (st : dart_task_state_t) (t : dart_task_t) : dart_task_t :=
  {| state := st; prio := prio t; flag_inline := flag_inline t;
     flag_immediate := flag_immediate t; flag_has_ref := flag_has_ref t;
     flag_commtask := flag_commtask t; has_wait_handle := has_wait_handle t;
     unresolved_deps := unresolved_deps t; parent := parent t; phase := phase t;
     num_children := num_children t |}.

Definition with_flags (inl imm ref : bool) (t : dart_task_t) : dart_task_t :=
  {| state := state t; prio := prio t; flag_inline := inl;
     flag_immediate := imm; flag_has_ref := ref;
     flag_commtask := flag_commtask t; has_wait_handle := has_wait_handle t;
     unresolved_deps := unresolved_deps t; parent := parent t; phase := phase t;
     num_children := num_children t |}.

Definition with_deps (n : nat) (t : dart_task_t) : dart_task_t :=
  {| state := state t; prio := prio t; flag_inline := flag_inline t;
     flag_immediate := flag_immediate t; flag_has_ref := flag_has_ref t;
     flag_commtask := flag_commtask t; has_wait_handle := has_wait_handle t;
     unresolved_deps := n; parent := parent t; phase := phase t;
     num_children := num_children t |}.

Definition inc_children (t : dart_task_t) : dart_task_t :=
  {| state := state t; prio := prio t; flag_inline := flag_inline t;
     flag_immediate := flag_immediate t; flag_has_ref := flag_has_ref t;
     flag_commtask := flag_commtask t; has_wait_handle := has_wait_handle t;
     unresolved_deps := unresolved_deps t; parent := parent t; phase := phase t;
     num_children := S (num_children t) |}.

Definition set_lists (s : sched) (rdy rrdy qd df inl cm : list nat) (np : nat)
    (tnt : option nat) (dl : Z) (running : bool) (nf : nat) : sched :=
  {| threads_running := running; cancellation := cancellation s;
     root_task := root_task s; current_task := current_task s;
     task_of := task_of s; next_free := nf; thread_delay := dl;
     thread_next_task := tnt; ready := rdy; remote_ready := rrdy; queued := qd;
     deferred := df; inlined := inl; comm := cm; phase_current := phase_current s;
     phase_is_runnable := phase_is_runnable s; progress_calls := np;
     num_units := num_units s; last_progress_ts := last_progress_ts s; clock := clock s |}.

(** [next_task(thread)] *)
Definition next_task (s : sched) : option nat * sched :=
  match ready s with
  | x :: r => (Some x, set_lists s r (remote_ready s) (queued s) (deferred s) (inlined s)
                         (comm s) (progress_calls s) (thread_next_task s) (thread_delay s)
                         (threads_running s) (next_free s))
  | [] => (None, s)
  end.

Definition REMOTE_PROGRESS_INTERVAL_USEC : Z := 10000.

(** [remote_progress(thread, force)]: nothing on a single unit; otherwise
    [dart_tasking_remote_progress()], which makes [remote_ready] runnable,
    when forced or when [last_progress_ts + REMOTE_PROGRESS_INTERVAL_USEC >=
    current_time_us()], and then [last_progress_ts] is set to the clock. *)
Definition remote_progress (force : bool) (s : sched) : sched :=
  if Z.eqb (num_units s) 1 then s
  else if force || Z.geb (last_progress_ts s + REMOTE_PROGRESS_INTERVAL_USEC) (clock s) then
    {| threads_running := threads_running s; cancellation := cancellation s;
       root_task := root_task s; current_task := current_task s;
       task_of := task_of s; next_free := next_free s; thread_delay := thread_delay s;
       thread_next_task := thread_next_task s; ready := ready s ++ remote_ready s;
       remote_ready := []; queued := queued s; deferred := deferred s;
       inlined := inlined s; comm := comm s; phase_current := phase_current s;
       phase_is_runnable := phase_is_runnable s; progress_calls := S (progress_calls s);
       num_units := num_units s; last_progress_ts := clock s; clock := clock s |}
  else s.

(** How a call to [dart__tasking__yield] leaves the calling task. *)
Inductive yield_outcome :=
(** It returns this code, in this state. *)
| YReturn (r : dart_ret_t) (s : sched)
(** Modelled from the spec: [dart__tasking__abort_current_task] (not part of
    the repository's files) aborts the current task by a [longjmp] back to
    its cancel frame, so the call does not return. *)
| YAbort (s : sched)
(** [dart__tasking__context_swap] to the thread's return context: the task
    is left here and resumes later. *)
| YSwap (s : sched)
(** The root task runs the next task directly through
    [dart__tasking__handle_task_internal], then returns [DART_OK]. *)
| YRunDirect (next : nat) (s : sched)
(** A [DART_ASSERT] fails. *)
| YAssertFail.

(** [dart__tasking__yield] in the build with [USE_UCONTEXT]. *)
Definition dart__tasking__yield (delay : Z) (s : sched) : yield_outcome :=
  if negb (threads_running s) then
    (* threads are not running --> no tasks to yield to *)
    YReturn DART_OK s
  else
  let current := current_task s in
  if cancellation s then YAbort s
  else
  (* we cannot yield from inlined tasks *)
  if flag_inline (task_of s current) then YReturn DART_ERR_INVAL s
  else
  if state_eqb (state (task_of s current)) DART_TASK_BLOCKED then YSwap s
  else
  let '(next, s1) := next_task s in
  let '(next, s2) := match next with
                     | None => next_task (remote_progress true s1)
                     | Some _ => (next, s1)
                     end in
  match next with
  | Some n =>
      let s3 := set_lists s2 (ready s2) (remote_ready s2) (queued s2) (deferred s2)
                  (inlined s2) (comm s2) (progress_calls s2) (thread_next_task s2) delay
                  (threads_running s2) (next_free s2) in
      if Nat.eqb current (root_task s3) then YRunDirect n s3
      else
        let st := if has_wait_handle (task_of s3 current) then DART_TASK_BLOCKED
                  else DART_TASK_SUSPENDED in
        let s4 := set_task s3 current (with_state st) in
        match thread_next_task s4 with
        | Some _ => YAssertFail
        | None =>
            YSwap (set_lists s4 (ready s4) (remote_ready s4) (queued s4) (deferred s4)
                     (inlined s4) (comm s4) (progress_calls s4) (Some n) (thread_delay s4)
                     (threads_running s4) (next_free s4))
        end
  | None => YReturn DART_OK s2
  end.

(** [dart__tasking__yield] in the build without [USE_UCONTEXT]: it calls
    [remote_progress(get_current_thread(), false)]. As written this version
    does not compile: it passes an undeclared [thread] to
    [dart__tasking__abort_current_task]; that argument is read here as the
    current thread. *)
Definition dart__tasking__yield_noctx (delay : Z) (s : sched) : yield_outcome :=
  if negb (threads_running s) then YReturn DART_OK s
  else
  let s1 := remote_progress false s in
  if cancellation s1 then YAbort s1 else YReturn DART_OK s1.

(** [allocate_task] followed by the static [create_task]: a fresh task with
    no flags as [NASCENT], child of the current task. *)
Definition create_task (pr : dart_task_prio_t) (s : sched) : nat * sched :=
  let t := next_free s in
  let par := current_task s in
  let ph := if state_eqb (state (task_of s par)) DART_TASK_ROOT
            then DART_PHASE (phase_current s) else DART_PHASE_ANY in
  let '(tp, is_inline) := match pr with
                    | DART_PRIO_PARENT => (prio (task_of s par), false)
                    | DART_PRIO_INLINE => (DART_PRIO_HIGH, true)
                    | p => (p, false)
                    end in
  let task := {| state := DART_TASK_NASCENT; prio := tp; flag_inline := is_inline;
                 flag_immediate := is_inline; flag_has_ref := false; flag_commtask := false;
                 has_wait_handle := false; unresolved_deps := 0; parent := par;
                 phase := ph; num_children := 0 |} in
  let s1 := set_lists s (ready s) (remote_ready s) (queued s) (deferred s) (inlined s)
              (comm s) (progress_calls s) (thread_next_task s) (thread_delay s)
              (threads_running s) (S t) in
  (t, set_task s1 t (fun _ => task)).

(** [start_threads(num_threads)]: as far as the code below is concerned, it
    sets [threads_running]. *)
Definition start_threads (s : sched) : sched :=
  set_lists s (ready s) (remote_ready s) (queued s) (deferred s) (inlined s)
    (comm s) (progress_calls s) (thread_next_task s) (thread_delay s) true (next_free s).

Definition dart__tasking__phase_is_runnable (s : sched) (ph : dart_taskphase_t) : bool :=
  match ph with
  | DART_PHASE_ANY => true
  | DART_PHASE n => phase_is_runnable s n
  end.

Definition dart_tasking_datadeps_is_runnable (s : sched) (t : nat) : bool :=
  Nat.eqb (unresolved_deps (task_of s t)) 0.

(** Modelled from the spec: [dart__tasking__cancel_task] (not part of the
    repository's files) moves the task to [CANCELLED]. *)
Definition dart__tasking__cancel_task (t : nat) (s : sched) : sched :=
  set_task s t (with_state DART_TASK_CANCELLED).

Definition push_queued (t : nat) (s : sched) : sched :=
  set_lists s (ready s) (remote_ready s) (queued s ++ [t]) (deferred s) (inlined s)
    (comm s) (progress_calls s) (thread_next_task s) (thread_delay s)
    (threads_running s) (next_free s).

Definition push_deferred (t : nat) (s : sched) : sched :=
  set_lists s (ready s) (remote_ready s) (queued s) (deferred s ++ [t]) (inlined s)
    (comm s) (progress_calls s) (thread_next_task s) (thread_delay s)
    (threads_running s) (next_free s).

Definition push_inlined (t : nat) (s : sched) : sched :=
  set_lists s (ready s) (remote_ready s) (queued s) (deferred s) (inlined s ++ [t])
    (comm s) (progress_calls s) (thread_next_task s) (thread_delay s)
    (threads_running s) (next_free s).

Definition push_comm (t : nat) (s : sched) : sched :=
  set_lists s (ready s) (remote_ready s) (queued s) (deferred s) (inlined s)
    (comm s ++ [t]) (progress_calls s) (thread_next_task s) (thread_delay s)
    (threads_running s) (next_free s).

(** [dart__tasking__enqueue_runnable]; the thread slots and the NUMA queues
    are merged into [queued], [handle_inline_task] records the task in
    [inlined] and [dart_tasking_remote_handle_comm_task] in [comm]. *)
Definition dart__tasking__enqueue_runnable (t : nat) (s : sched) : sched :=
  if cancellation s then dart__tasking__cancel_task t s
  else
  if state_eqb (state (task_of s t)) DART_TASK_DEFERRED then s
  else
  let '(queuable, s1) :=
    if state_eqb (state (task_of s t)) DART_TASK_CREATED then
      if dart_tasking_datadeps_is_runnable s t
      then (true, set_task s t (with_state DART_TASK_QUEUED))
      else (false, s)
    else if state_eqb (state (task_of s t)) DART_TASK_SUSPENDED then (true, s)
    else (false, s) in
  if negb queuable then s1
  else
  let '(enqueued, s2) :=
    if Nat.eqb (parent (task_of s1 t)) (root_task s1)
       && negb (dart__tasking__phase_is_runnable s1 (phase (task_of s1 t))) then
      if state_eqb (state (task_of s1 t)) DART_TASK_CREATED
         || state_eqb (state (task_of s1 t)) DART_TASK_QUEUED
      then (true, push_deferred t (set_task s1 t (with_state DART_TASK_DEFERRED)))
      else (false, s1)
    else (false, s1) in
  let '(enqueued, s3) :=
    if negb enqueued && flag_commtask (task_of s2 t) then (true, push_comm t s2)
    else (enqueued, s2) in
  if enqueued then s3
  else if flag_immediate (task_of s3 t) then push_inlined t s3
  else push_queued t s3.

(** [dart__tasking__create_task]; [has_ref] is [ref != NULL], [noyield] is
    [flags & DART_TASK_NOYIELD], and [dart_tasking_datadeps_handle_task]
    leaves the task with [ndeps_unresolved] unresolved dependencies. *)
Definition dart__tasking__create_task (pr : dart_task_prio_t) (noyield has_ref : bool)
    (ndeps_unresolved : nat) (s : sched) : dart_ret_t * sched :=
  if cancellation s then (DART_OK, s)
  else
  let s0 := if negb (threads_running s) then start_threads s else s in
  let '(t, s1) := create_task pr s0 in
  let s2 := if has_ref then set_task s1 t (fun x => with_flags (flag_inline x)
                                                     (flag_immediate x) true x)
            else s1 in
  let s3 := if noyield then set_task s2 t (fun x => with_flags true
                                                     (flag_immediate x) (flag_has_ref x) x)
            else s2 in
  let s4 := set_task s3 (parent (task_of s3 t)) inc_children in
  let s5 := set_task s4 t (with_deps ndeps_unresolved) in
  let s6 := set_task s5 t (with_state DART_TASK_CREATED) in
  let is_runnable := dart_tasking_datadeps_is_runnable s6 t in
  let s7 := if is_runnable then dart__tasking__enqueue_runnable t s6 else s6 in
  (DART_OK, s7).

(** The fields of a task the deferral decision depends on. *)
Definition core (t : dart_task_t) : dart_task_state_t * nat * dart_taskphase_t :=
  (state t, parent t, phase t).

(** Two scheduler states agreeing everywhere except on the tasks. *)
Definition same_lists (a b : sched) : Prop :=
  root_task a = root_task b /\ cancellation a = cancellation b /\
  queued a = queued b /\ deferred a = deferred b /\ inlined a = inlined b /\
  phase_is_runnable a = phase_is_runnable b /\ comm a = comm b.

(** A root task, and a scheduler before any thread has been started whose
    root task is current and whose current phase is not yet runnable. *)
Definition example_root : dart_task_t :=
  {| state := DART_TASK_ROOT; prio := DART_PRIO_DEFAULT; flag_inline := false;
     flag_immediate := false; flag_has_ref := false; flag_commtask := false;
     has_wait_handle := false; unresolved_deps := 0; parent := 0;
     phase := DART_PHASE 0; num_children := 0 |}.

Definition example_sched : sched :=
  {| threads_running := false; cancellation := false; root_task := 0; current_task := 0;
     task_of := fun _ => example_root; next_free := 1; thread_delay := 0;
     thread_next_task := None; ready := [2]; remote_ready := [3]; queued := [];
     deferred := []; inlined := []; comm := []; phase_current := 0;
     phase_is_runnable := fun _ => false; progress_calls := 0;
     num_units := 2; last_progress_ts := 0; clock := 0 |}.

(** An inline task 1 running on a started scheduler, with or without a
    cancellation request. *)
Definition example_inline : dart_task_t :=
  {| state := DART_TASK_RUNNING; prio := DART_PRIO_HIGH; flag_inline := true;
     flag_immediate := true; flag_has_ref := false; flag_commtask := false;
     has_wait_handle := false; unresolved_deps := 0; parent := 0;
     phase := DART_PHASE 0; num_children := 0 |}.

Definition example_sched_inline (cancel : bool) : sched :=
  {| threads_running := true; cancellation := cancel; root_task := 0; current_task := 1;
     task_of := fun x => if Nat.eqb x 1 then example_inline else example_root;
     next_free := 2; thread_delay := 0; thread_next_task := None; ready := [];
     remote_ready := []; queued := []; deferred := []; inlined := []; comm := [];
     phase_current := 0; phase_is_runnable := fun _ => true; progress_calls := 0;
     num_units := 2; last_progress_ts := 0; clock := 0 |}.

End Tasking.

(* ------------------------------------------------------------------ *)
(** ** Task contexts *)

Module Context.

(** [DEFAULT_TASK_STACK_SIZE]: [1<<21]. *)
Definition DEFAULT_TASK_STACK_SIZE : Z := Z.shiftl 1 21.

(** [dart__tasking__context_init]: [page_size] is what [sysconf] reports;
    [env_stack_size] is [dart__base__env__size(DART_TASKSTACKSIZE_ENVSTR, -1)],
    so [-1] when the variable is unset. The result is the new value of the
    static [task_stack_size], which starts at [DEFAULT_TASK_STACK_SIZE]. *)
Definition dart__tasking__context_init (page_size env_stack_size : Z) : Z :=
  let task_stack_size := DEFAULT_TASK_STACK_SIZE in
  let task_stack_size := if Z.ltb (-1) env_stack_size then env_stack_size
                         else task_stack_size in
  if Z.ltb task_stack_size page_size then page_size else task_stack_size.

(** [dart__tasking__context_adjust_size], for a power-of-two page size. *)
Definition dart__tasking__context_adjust_size (page_size size : Z) : Z :=
  let mask := (page_size - 1)%Z in
  Z.land (size + mask)%Z (Z.lnot mask).

(** The contexts held by the threads. [ctxlist t] is the free list (a stack)
    of thread [t], [owner c] the [owner] field of context [c], and
    [next_ctx] the next fresh context handed out by
    [dart__tasking__context_allocate]. *)
Record ctx_state := mk_ctx_state {
  ctxlist : nat -> list nat;
  owner : nat -> nat;
  next_ctx : nat
}.

(** [DART_CTX_ELEM_PUSH(thread->ctxlist, c)]. *)
Definition ctx_push (t c : nat) (s : ctx_state) : ctx_state :=
  {| ctxlist := fun t' => if Nat.eqb t' t then c :: ctxlist s t' else ctxlist s t';
     owner := owner s; next_ctx := next_ctx s |}.

(** [dart__tasking__context_allocate], called on thread [t]. *)
Definition dart__tasking__context_allocate (t : nat) (s : ctx_state) : nat * ctx_state :=
  let c := next_ctx s in
  (c, {| ctxlist := ctxlist s;
         owner := fun c' => if Nat.eqb c' c then t else owner s c';
         next_ctx := S c |}).

(** [dart__tasking__context_create] (with [USE_UCONTEXT]) on thread [t]:
    pop a context from the thread's free list, or allocate one. *)
Definition dart__tasking__context_create (t : nat) (s : ctx_state) : nat * ctx_state :=
  match ctxlist s t with
  | c :: rest =>
      (c, {| ctxlist := fun t' => if Nat.eqb t' t then rest else ctxlist s t';
             owner := owner s; next_ctx := next_ctx s |})
  | [] => dart__tasking__context_allocate t s
  end.

(** [dart__tasking__context_release] (with [USE_UCONTEXT]): the context goes
    back to the free list of [ctxlist->owner]; the calling thread is not
    consulted. *)
Definition dart__tasking__context_release (c : nat) (s : ctx_state) : ctx_state :=
  let thread := owner s c in
  ctx_push thread c s.

(** The invariant of the free lists: each list holds contexts owned by its
    thread, without repetition, all allocated already. *)
Definition ctx_inv (s : ctx_state) : Prop :=
  forall t, NoDup (ctxlist s t) /\
            (forall c, In c (ctxlist s t) -> owner s c = t /\ c < next_ctx s).

Definition example_ctx : ctx_state :=
  {| ctxlist := fun t => if Nat.eqb t 1 then [0] else []; owner := fun _ => 1; next_ctx := 1 |}.

End Context.

(* ------------------------------------------------------------------ *)
(** ** The copy-in memory pool *)

Module Mempool.

Definition MEMPOOL_MAGIC_NUM : Z := 3735928559. (* 0xDEADBEEF *)

(** The memory pools. [mem_pool] is the list of pools (the head of the
    linked list first), [pool_size p] and [pool_elems p] the [size] and the
    [elems] stack of pool [p]; [elem_magic e] and [elem_pool e] the [magic]
    and [mpool] fields of element [e]. An element's [mem] lies at a fixed
    offset behind its header, so the element number stands for [mem] as
    well. [next_pool] and [next_elem] are the next fresh results of
    [malloc]. *)
Record pool_state := mk_pool_state {
  mem_pool : list nat;
  pool_size : nat -> nat;
  pool_elems : nat -> list nat;
  elem_magic : nat -> Z;
  elem_pool : nat -> nat;
  next_pool : nat;
  next_elem : nat
}.

(** [find_mem_pool] *)
Fixpoint find_mem_pool_in (pool_size : nat -> nat) (size : nat) (l : list nat) : option nat :=
  match l with
  | [] => None
  | p :: l' => if Nat.eqb size (pool_size p) then Some p else find_mem_pool_in pool_size size l'
  end.

Definition find_mem_pool (size : nat) (s : pool_state) : option nat :=
  find_mem_pool_in (pool_size s) size (mem_pool s).

(** The new pool of [allocate_from_mempool]: [malloc], [stack_init] and
    [DART_STACK_PUSH(mem_pool, mpool)]. *)
Definition new_mem_pool (size : nat) (s : pool_state) : nat * pool_state :=
  let p := next_pool s in
  (p, {| mem_pool := p :: mem_pool s;
         pool_size := fun q => if Nat.eqb q p then size else pool_size s q;
         pool_elems := fun q => if Nat.eqb q p then [] else pool_elems s q;
         elem_magic := elem_magic s; elem_pool := elem_pool s;
         next_pool := S p; next_elem := next_elem s |}).

(** [allocate_from_mempool] *)
Definition allocate_from_mempool (size : nat) (s : pool_state) : nat * pool_state :=
  let '(mpool, s1) :=
    match find_mem_pool size s with
    | Some p => (p, s)
    | None =>
        match find_mem_pool size s with
        | Some p => (p, s)
        | None => new_mem_pool size s
        end
    end in
  match pool_elems s1 mpool with
  | e :: rest =>
      (e, {| mem_pool := mem_pool s1; pool_size := pool_size s1;
             pool_elems := fun q => if Nat.eqb q mpool then rest else pool_elems s1 q;
             elem_magic := elem_magic s1; elem_pool := elem_pool s1;
             next_pool := next_pool s1; next_elem := next_elem s1 |})
  | [] =>
      let e := next_elem s1 in
      (e, {| mem_pool := mem_pool s1; pool_size := pool_size s1;
             pool_elems := pool_elems s1;
             elem_magic := fun x => if Nat.eqb x e then MEMPOOL_MAGIC_NUM else elem_magic s1 x;
             elem_pool := fun x => if Nat.eqb x e then mpool else elem_pool s1 x;
             next_pool := next_pool s1; next_elem := S e |})
  end.

(** [return_to_mempool]; [None] is the failing [DART_ASSERT_MSG] on the
    magic word. *)
Definition return_to_mempool (e : nat) (s : pool_state) : option pool_state :=
  if negb (Z.eqb (elem_magic s e) MEMPOOL_MAGIC_NUM) then None
  else
    let p := elem_pool s e in
    Some {| mem_pool := mem_pool s; pool_size := pool_size s;
            pool_elems := fun q => if Nat.eqb q p then e :: pool_elems s q else pool_elems s q;
            elem_magic := elem_magic s; elem_pool := elem_pool s;
            next_pool := next_pool s; next_elem := next_elem s |}.

(** The [COPYIN_OUT] dependency element of a copy-in task: [dest] and [size]
    of [dep.copyin], and whether [dtor] is [dart_tasking_copyin_release_mem]. *)
Record dephash_elem := mk_dephash_elem {
  dest : option nat;
  dep_size : nat;
  dtor_release_mem : bool
}.

(** The allocation step of [dart_tasking_copyin_prepare_dep], for the
    dependency element the search finds. *)
Definition dart_tasking_copyin_prepare_dep (elem : dephash_elem) (s : pool_state)
    : dephash_elem * pool_state :=
  match dest elem with
  | None =>
      let '(m, s1) := allocate_from_mempool (dep_size elem) s in
      ({| dest := Some m; dep_size := dep_size elem; dtor_release_mem := true |}, s1)
  | Some _ => (elem, s)
  end.

(** [dart_tasking_copyin_release_mem], the destructor run when the
    dependency retires; [None] is a failing assertion. *)
Definition dart_tasking_copyin_release_mem (elem : dephash_elem) (s : pool_state)
    : option (dephash_elem * pool_state) :=
  match dest elem with
  | None => None
  | Some m =>
      match return_to_mempool m s with
      | None => None
      | Some s1 => Some ({| dest := None; dep_size := dep_size elem;
                            dtor_release_mem := dtor_release_mem elem |}, s1)
      end
  end.

(** The invariant of the pools: each free element carries the magic word,
    points back to its pool and has been allocated already. *)
Definition pool_inv (s : pool_state) : Prop :=
  (forall p e, In e (pool_elems s p) ->
     elem_pool s e = p /\ elem_magic s e = MEMPOOL_MAGIC_NUM /\ e < next_elem s) /\
  (forall p, In p (mem_pool s) -> p < next_pool s).

Definition empty_pools : pool_state :=
  {| mem_pool := []; pool_size := fun _ => 0; pool_elems := fun _ => [];
     elem_magic := fun _ => 0%Z; elem_pool := fun _ => 0; next_pool := 0; next_elem := 0 |}.

End Mempool.

(* ------------------------------------------------------------------ *)
(** ** The send/receive active-message queue *)

Module Amsg.

Definition MPI_SUCCESS : Z := 0.

Import DartTypes.

(** An MPI request: [MPI_REQUEST_NULL], or an active request, completed or
    not. *)
Inductive mpi_request := MPI_REQUEST_NULL | MPI_ACTIVE (completed : bool).

(** A received message: its source and its payload. *)
Record amsg := mk_amsg { msg_source : nat; msg_payload : nat }.

(** The fields of [struct dart_amsgq_impl_data] used below.
    [processing_locked] tells whether another thread holds
    [processing_mutex]; [recv_batches] are the successive batches of
    messages that [MPI_Testsome] on the receive requests reports;
    [processed] collects what [dart__amsgq__process_buffer] was given. *)
Record amsgq := mk_amsgq {
  send_reqs : list mpi_request;
  send_tailpos : nat;
  msg_count : nat;
  send_count : nat -> nat;
  recv_count : nat -> nat;
  direct_send : bool;
  sync_send : bool;
  processing_locked : bool;
  recv_batches : list (list amsg);
  processed : list nat
}.

Fixpoint list_set {A} (l : list A) (i : nat) (x : A) : list A :=
  match l, i with
  | [], _ => []
  | _ :: l', 0 => x :: l'
  | y :: l', S i' => y :: list_set l' i' x
  end.

(** [MPI_Testsome] on the first [n] send requests: the indices of the
    completed ones, which become [MPI_REQUEST_NULL]. *)
Fixpoint testsome_from (i n : nat) (reqs : list mpi_request) : list nat :=
  match n with
  | 0 => []
  | S n' =>
      match nth i reqs MPI_REQUEST_NULL with
      | MPI_ACTIVE true => i :: testsome_from (S i) n' reqs
      | _ => testsome_from (S i) n' reqs
      end
  end.

Definition mpi_testsome (n : nat) (reqs : list mpi_request) : list nat * list mpi_request :=
  let outidx := testsome_from 0 n reqs in
  (outidx, fold_left (fun r i => list_set r i MPI_REQUEST_NULL) outidx reqs).

(** [while (back_pos > done_idx && send_reqs[back_pos] == MPI_REQUEST_NULL) back_pos--;] *)
Fixpoint skip_null (fuel back_pos done_idx : nat) (reqs : list mpi_request) : nat :=
  match fuel with
  | 0 => back_pos
  | S f =>
      if Nat.ltb done_idx back_pos then
        match nth back_pos reqs MPI_REQUEST_NULL with
        | MPI_REQUEST_NULL => skip_null f (back_pos - 1) done_idx reqs
        | _ => back_pos
        end
      else back_pos
  end.

(** The loop moving requests from the back into the freed slots. *)
Fixpoint compact (outidx : list nat) (back_pos : nat) (reqs : list mpi_request)
    : list mpi_request :=
  match outidx with
  | [] => reqs
  | done_idx :: rest =>
      let back_pos := skip_null back_pos back_pos done_idx reqs in
      if Nat.leb back_pos done_idx then reqs
      else
        let reqs := list_set reqs done_idx (nth back_pos reqs MPI_REQUEST_NULL) in
        let reqs := list_set reqs back_pos MPI_REQUEST_NULL in
        compact rest (back_pos - 1) reqs
  end.

Definition set_send (q : amsgq) (reqs : list mpi_request) (tailpos : nat)
    (sc : nat -> nat) : amsgq :=
  {| send_reqs := reqs; send_tailpos := tailpos; msg_count := msg_count q;
     send_count := sc; recv_count := recv_count q; direct_send := direct_send q;
     sync_send := sync_send q; processing_locked := processing_locked q;
     recv_batches := recv_batches q; processed := processed q |}.

(** [amsgq_test_sendreqs_unsafe]; the send buffers, which are swapped
    along with the requests, are not modelled. *)
Definition amsgq_test_sendreqs_unsafe (q : amsgq) : dart_ret_t * amsgq :=
  let '(outidx, reqs) := mpi_testsome (send_tailpos q) (send_reqs q) in
  let outcount := length outidx in
  if Nat.ltb 0 outcount then
    if Nat.eqb outcount (send_tailpos q) then
      (DART_OK, set_send q reqs 0 (send_count q))
    else
      let reqs := compact outidx (msg_count q - 1) reqs in
      (DART_OK, set_send q reqs (send_tailpos q - outcount) (send_count q))
  else (DART_ERR_AGAIN, q).

Definition incr (f : nat -> nat) (k : nat) : nat -> nat :=
  fun x => if Nat.eqb x k then S (f x) else f x.

(** [dart_amsg_sendrecv_trysend] to unit [target]; [mpi_ret] is the result
    of the MPI send call. [None] is a failing [DART_ASSERT]. *)
Definition dart_amsg_sendrecv_trysend (target : nat) (mpi_ret : Z) (q : amsgq)
    : option (dart_ret_t * amsgq) :=
  if negb (Nat.leb (send_tailpos q) (msg_count q)) then None
  else
  let res :=
    if negb (direct_send q) then
      let '(r, q1) := if Nat.eqb (send_tailpos q) (msg_count q)
                      then amsgq_test_sendreqs_unsafe q else (DART_OK, q) in
      if negb (ret_eqb r DART_OK) then inl (r, q1)
      else
        let idx := send_tailpos q1 in
        let reqs := list_set (send_reqs q1) idx (MPI_ACTIVE false) in
        let sc := if sync_send q1 then send_count q1 else incr (send_count q1) target in
        inr (mpi_ret, set_send q1 reqs (S idx) sc)
    else
      let sc := if sync_send q then send_count q else incr (send_count q) target in
      inr (mpi_ret, set_send q (send_reqs q) (send_tailpos q) sc) in
  match res with
  | inl early => Some early
  | inr (ret, q2) =>
      if negb (Z.eqb ret MPI_SUCCESS) then Some (DART_ERR_AGAIN, q2)
      else Some (DART_OK, q2)
  end.

Definition set_recv (q : amsgq) (batches : list (list amsg)) (rc : nat -> nat)
    (pr : list nat) : amsgq :=
  {| send_reqs := send_reqs q; send_tailpos := send_tailpos q; msg_count := msg_count q;
     send_count := send_count q; recv_count := rc; direct_send := direct_send q;
     sync_send := sync_send q; processing_locked := processing_locked q;
     recv_batches := batches; processed := pr |}.

(** One round of the [do ... while] loop: [MPI_Testsome] on the receive
    requests, then each message is processed and its receive reposted. *)
Definition process_round (q : amsgq) : nat * amsgq :=
  match recv_batches q with
  | [] => (0, q)
  | batch :: rest =>
      let rc := fold_left (fun rc m => if sync_send q then rc else incr rc (msg_source m))
                  batch (recv_count q) in
      (length batch, set_recv q rest rc (processed q ++ map msg_payload batch))
  end.

(** [do { ... } while (blocking && num_msg > 0);] : every round consumes one
    batch, so the batches bound the number of rounds. *)
Fixpoint process_loop (fuel : nat) (blocking : bool) (q : amsgq) : amsgq :=
  let '(num_msg, q1) := process_round q in
  if blocking && Nat.ltb 0 num_msg then
    match fuel with
    | 0 => q1
    | S f => process_loop f blocking q1
    end
  else q1.

(** [amsg_sendrecv_process_internal]. [None] stands for a blocking
    [dart__base__mutex_lock] on a mutex some other thread holds: the call
    does not return in this model. *)
Definition amsg_sendrecv_process_internal (q : amsgq) (blocking has_lock : bool)
    : option (dart_ret_t * amsgq) :=
  if negb has_lock && processing_locked q then
    if negb blocking then Some (DART_ERR_AGAIN, q) else None
  else Some (DART_OK, process_loop (length (recv_batches q)) blocking q).

(** [dart_amsg_sendrecv_process] *)
Definition dart_amsg_sendrecv_process (q : amsgq) : option (dart_ret_t * amsgq) :=
  amsg_sendrecv_process_internal q false false.

(** A queue of two send slots that are both in flight. *)
Definition example_full : amsgq :=
  {| send_reqs := [MPI_ACTIVE false; MPI_ACTIVE false]; send_tailpos := 2; msg_count := 2;
     send_count := fun _ => 0; recv_count := fun _ => 0; direct_send := false;
     sync_send := true; processing_locked := true; recv_batches := [[mk_amsg 1 7]];
     processed := [] |}.

End Amsg.

(* ------------------------------------------------------------------ *)
(** ** More of the task queue *)

Module TaskQueueExt.
Import TaskQueue.

(** [n] successive calls of [dart_tasking_taskqueue_pop] (resp.
    [dart_tasking_taskqueue_popback]) on queue [q], as a worker makes them,
    collecting the results. *)
Fixpoint pop_all (n q : nat) : M (list ptr) :=
  match n with
  | 0 => ret []
  | S n' => t <- dart_tasking_taskqueue_pop q;; ts <- pop_all n' q;; ret (t :: ts)
  end.

Fixpoint popback_all (n q : nat) : M (list ptr) :=
  match n with
  | 0 => ret []
  | S n' => t <- dart_tasking_taskqueue_popback q;; ts <- popback_all n' q;; ret (t :: ts)
  end.

(** [task_deque_filter_runnable] (static, with no caller). [runnable] is
    [dart_tasking_datadeps_is_runnable], whose answer for a task the loops
    do not change. Both loops run on [fuel]: a result [false] means the
    fuel ran out; [true] that the loops finished. The C function has no
    [return] statement, so no [dart_ret_t] is modelled. *)
Section Filter.
Variable runnable : nat -> bool.

(** [while (task != NULL && !dart_tasking_datadeps_is_runnable(task)) {
      deque->head = task->next;
      if (task->next != NULL) task->next->prev = NULL;
      task->next = NULL; }] *)
Fixpoint filter_head_loop (fuel : nat) (d : dqaddr) (task : ptr) : M bool :=
  match fuel with
  | 0 => ret false
  | S f =>
      match task with
      | None => ret true
      | Some x =>
          if runnable x then ret true
          else
            nx <- load_next task;;
            store_head d nx;;;
            nx' <- load_next task;;
            (if is_nonnull nx' then store_prev nx' None else ret tt);;;
            store_next task None;;;
            filter_head_loop f d task
      end
  end.

(** The walk through the rest of the list. *)
Fixpoint filter_walk (fuel : nat) (task : ptr) : M bool :=
  match fuel with
  | 0 => ret false
  | S f =>
      match task with
      | None => ret true
      | Some x =>
          nx <- load_next task;;
          (if negb (runnable x) then
             (* unlink this task *)
             pv <- load_prev task;;
             (if is_nonnull pv then tn <- load_next task;; store_next pv tn else ret tt);;;
             tn <- load_next task;;
             (if is_nonnull tn then pv' <- load_prev task;; store_prev tn pv' else ret tt)
           else ret tt);;;
          store_prev task None;;;
          store_next task None;;;
          filter_walk f nx
      end
  end.

Definition task_deque_filter_runnable (fuel : nat) (d : dqaddr) : M bool :=
  dq0 <- load_dq d;;
  done <- filter_head_loop fuel d (head dq0);;
  if done then
    dq1 <- load_dq d;;
    filter_walk fuel (head dq1)
  else ret false.

End Filter.

End TaskQueueExt.


(* ------------------------------------------------------------------ *)
(** ** More of the active-message queue *)

Module AmsgExt.
Import DartTypes Amsg.

(** The shape of the send ring that [trysend] and
    [amsgq_test_sendreqs_unsafe] rely on: [msg_count] request slots, the
    requests in flight fill slots [0 .. send_tailpos - 1] and every other
    slot is [MPI_REQUEST_NULL]. *)
Definition send_inv (q : amsgq) : Prop :=
  length (send_reqs q) = msg_count q /\ send_tailpos q <= msg_count q /\
  forall i, i < msg_count q ->
    (nth i (send_reqs q) MPI_REQUEST_NULL = MPI_REQUEST_NULL <-> send_tailpos q <= i).

(** The send side of [dart_amsg_sendrecv_openq]: [msg_count] slots, all
    [MPI_REQUEST_NULL], and [send_tailpos] zero from [calloc]. (With
    [direct_send] the C code allocates no send slots; they are never used
    then.) *)
Definition dart_amsg_sendrecv_openq (msg_count : nat) (direct_send sync_send : bool)
    (batches : list (list amsg)) : amsgq :=
  {| send_reqs := repeat MPI_REQUEST_NULL msg_count; send_tailpos := 0;
     msg_count := msg_count; send_count := fun _ => 0; recv_count := fun _ => 0;
     direct_send := direct_send; sync_send := sync_send; processing_locked := false;
     recv_batches := batches; processed := [] |}.

(** MPI completing the send request in slot [j], if one is in flight
    there: what a later [MPI_Testsome] reports as done. *)
Definition mpi_complete (j : nat) (q : amsgq) : amsgq :=
  match nth j (send_reqs q) MPI_REQUEST_NULL with
  | MPI_ACTIVE false =>
      set_send q (list_set (send_reqs q) j (MPI_ACTIVE true)) (send_tailpos q) (send_count q)
  | _ => q
  end.

(** A sequence of events on the send side: [trysend] to a unit with the
    result of its MPI send call, [amsgq_test_sendreqs_unsafe], or MPI
    completing the request of a slot. [None] is a failed [DART_ASSERT]. *)
Inductive send_op := SendTo (target : nat) (mpi_ret : Z) | TestSendReqs | MpiComplete (j : nat).

Fixpoint run_send (ops : list send_op) (q : amsgq) : option amsgq :=
  match ops with
  | [] => Some q
  | SendTo t r :: ops' =>
      match dart_amsg_sendrecv_trysend t r q with
      | Some (_, q') => run_send ops' q'
      | None => None
      end
  | TestSendReqs :: ops' => run_send ops' (snd (amsgq_test_sendreqs_unsafe q))
  | MpiComplete j :: ops' => run_send ops' (mpi_complete j q)
  end.

(** The number of messages from unit [x] in a list of messages. *)
Definition from_count (x : nat) (ms : list amsg) : nat :=
  length (filter (fun m => Nat.eqb (msg_source m) x) ms).

(** Whether a request slot holds a request. *)
Definition is_req (r : mpi_request) : bool :=
  match r with MPI_REQUEST_NULL => false | MPI_ACTIVE _ => true end.

(** The number of slots that hold a request. *)
Definition cnt (reqs : list mpi_request) : nat := length (filter is_req reqs).

(** [l] is strictly increasing and its elements are at least [i]. *)
Fixpoint sorted_from (i : nat) (l : list nat) : Prop :=
  match l with
  | [] => True
  | x :: l' => i <= x /\ sorted_from (S x) l'
  end.

(** What processing did to the queue: the batches [done] were consumed and
    their payloads handed to [dart__amsgq__process_buffer] in order, the
    receive counters moved by the messages of [done] (unless [sync_send]),
    [left] are the batches still to come, and the send side is untouched. *)
Definition processed_batches (q q' : amsgq) (done left : list (list amsg)) : Prop :=
  recv_batches q' = left /\
  processed q' = processed q ++ map msg_payload (concat done) /\
  (forall x, recv_count q' x =
     recv_count q x + (if sync_send q then 0 else from_count x (concat done))) /\
  send_reqs q' = send_reqs q /\ send_tailpos q' = send_tailpos q /\
  send_count q' = send_count q /\ msg_count q' = msg_count q /\ sync_send q' = sync_send q.

End AmsgExt.

(* ------------------------------------------------------------------ *)
(** ** Task objects: [allocate_task], [dart__tasking__destroy_task] *)

Module TaskAlloc.

Definition TASK_MEMPOOL_SIZE : nat := 64.

(** A task object: slot [snd t] of the task memory pool [fst t]. *)
Definition task_ref := (nat * nat)%type.

Definition task_ref_eqb (a b : task_ref) : bool :=
  Nat.eqb (fst a) (fst b) && Nat.eqb (snd a) (snd b).

(** [task_free_lists] of each thread (the stacks of
    [DART_TASKLIST_ELEM_POP]/[DART_TASKLIST_ELEM_PUSH], popped and pushed at
    the front); [__taskpool] of each thread, as its pool and [pos], [None]
    for [NULL]; the [owner] field of each task object; the next pool that
    [malloc] returns. *)
Record alloc_state := mk_alloc_state {
  task_free_lists : nat -> list task_ref;
  taskpool : nat -> option (nat * nat);
  owner : task_ref -> nat;
  next_pool_id : nat
}.

Definition set_free_list (s : alloc_state) (thr : nat) (l : list task_ref) : alloc_state :=
  {| task_free_lists := fun t => if Nat.eqb t thr then l else task_free_lists s t;
     taskpool := taskpool s; owner := owner s; next_pool_id := next_pool_id s |}.

(** [allocate_task] (without [DART_TASKING_NOMEMPOOL]) on thread [thr]. *)
Definition allocate_task (thr : nat) (s : alloc_state) : task_ref * alloc_state :=
  match task_free_lists s thr with
  | task :: rest => (task, set_free_list s thr rest)
  | [] =>
      let '(pool, pos, np) :=
        match taskpool s thr with
        | Some (p, pos) =>
            if Nat.eqb pos (TASK_MEMPOOL_SIZE - 1)
            then (next_pool_id s, 0, S (next_pool_id s))
            else (p, pos, next_pool_id s)
        | None => (next_pool_id s, 0, S (next_pool_id s))
        end in
      let task := (pool, pos) in
      (task, {| task_free_lists := task_free_lists s;
                taskpool := fun t => if Nat.eqb t thr then Some (pool, S pos) else taskpool s t;
                owner := fun x => if task_ref_eqb x task then thr else owner s x;
                next_pool_id := np |})
  end.

(** [dart__tasking__destroy_task]: the object goes onto the free list of its
    [owner]. *)
Definition dart__tasking__destroy_task (task : task_ref) (s : alloc_state) : alloc_state :=
  set_free_list s (owner s task) (task :: task_free_lists s (owner s task)).

(** [dart__tasking__allocate_dummytask]: the [memset] of the whole task object
    after [allocate_task] also clears [owner]. *)
Definition dart__tasking__allocate_dummytask (thr : nat) (s : alloc_state)
    : task_ref * alloc_state :=
  let '(task, s1) := allocate_task thr s in
  (task, {| task_free_lists := task_free_lists s1; taskpool := taskpool s1;
            owner := fun x => if task_ref_eqb x task then 0 else owner s1 x;
            next_pool_id := next_pool_id s1 |}).

(** What the pools and free lists keep: [pos] of a thread's pool never
    passes the last slot, and the free lists hold objects of the used
    slots only. *)
Definition alloc_inv (s : alloc_state) : Prop :=
  (forall thr p pos, taskpool s thr = Some (p, pos) -> pos <= TASK_MEMPOOL_SIZE - 1) /\
  (forall thr t, In t (task_free_lists s thr) -> snd t < TASK_MEMPOOL_SIZE - 1).

Definition alloc_init : alloc_state :=
  {| task_free_lists := fun _ => []; taskpool := fun _ => None; owner := fun _ => 0;
     next_pool_id := 0 |}.

(** [n] successive calls of [allocate_task] on thread [thr]. *)
Fixpoint alloc_n (thr n : nat) (s : alloc_state) : list task_ref * alloc_state :=
  match n with
  | 0 => ([], s)
  | S n' =>
      let '(t, s1) := allocate_task thr s in
      let '(ts, s2) := alloc_n thr n' s1 in
      (t :: ts, s2)
  end.

End TaskAlloc.

(* ------------------------------------------------------------------ *)
(** ** [remote_progress] *)

Module Progress.

(** [REMOTE_PROGRESS_INTERVAL_USEC], [1E4]. *)
Definition REMOTE_PROGRESS_INTERVAL_USEC : Z := 10000.

(** One call of [remote_progress]: [force], the time [current_time_us()]
    returns in the condition and the one it returns after progressing. *)
Record progress_call := mk_call { force : bool; now_check : Z; now_after : Z }.

(** [remote_progress] on a thread whose [last_progress_ts] is [last_ts]:
    whether [dart_tasking_remote_progress] is called, and the new
    [last_progress_ts]. The comparison, made in [double] in C, is exact on
    integers below 2^53, as here. *)
Definition remote_progress (num_units : Z) (c : progress_call) (last_ts : Z) : bool * Z :=
  if Z.eqb num_units 1 then (false, last_ts)
  else if force c || Z.geb (last_ts + REMOTE_PROGRESS_INTERVAL_USEC) (now_check c)
  then (true, now_after c)
  else (false, last_ts).

(** Successive calls on one thread: how many of them progressed, and the
    final [last_progress_ts]. *)
Fixpoint progress_run (num_units : Z) (calls : list progress_call) (last_ts : Z) : nat * Z :=
  match calls with
  | [] => (0, last_ts)
  | c :: cs =>
      let '(done, ts) := remote_progress num_units c last_ts in
      let '(n, ts') := progress_run num_units cs ts in
      ((if done then S n else n), ts')
  end.

(** The times of the checks do not decrease, starting from [t]. *)
Fixpoint times_from (t : Z) (calls : list progress_call) : Prop :=
  match calls with
  | [] => True
  | c :: cs => (t <= now_check c)%Z /\ times_from (now_check c) cs
  end.

End Progress.

(* ------------------------------------------------------------------ *)
(** ** A worker looking for its next task: [next_task] *)

Module Worker.

(** The fields of [dart_thread_t] that [next_task] reads: [queue] holds the
    [THREAD_QUEUE_SIZE] slots of the thread-local queue, [NULL] as [None]. *)
Record dart_thread_t := mk_thread {
  thread_id : nat;
  numa_id : nat;
  next_task : TaskQueue.ptr;
  queue : list TaskQueue.ptr;
  last_steal_thread_id : nat
}.

Definition with_next_task (th : dart_thread_t) (t : TaskQueue.ptr) : dart_thread_t :=
  mk_thread (thread_id th) (numa_id th) t (queue th) (last_steal_thread_id th).
Definition with_queue (th : dart_thread_t) (q : list TaskQueue.ptr) : dart_thread_t :=
  mk_thread (thread_id th) (numa_id th) (next_task th) q (last_steal_thread_id th).
Definition with_last_steal (th : dart_thread_t) (v : nat) : dart_thread_t :=
  mk_thread (thread_id th) (numa_id th) (next_task th) (queue th) v.

(** [thread_pool] ([NULL] entries as [None]) and the task queues of the
    NUMA domains. *)
Record sched_state := mk_sched_state {
  thread_pool : nat -> option dart_thread_t;
  task_queue : TaskQueue.state
}.

Definition set_thread (s : sched_state) (t : nat) (th : dart_thread_t) : sched_state :=
  mk_sched_state (fun x => if Nat.eqb x t then Some th else thread_pool s x) (task_queue s).

(** The loop of [next_task_thread]: the first non-[NULL] slot, taken out
    (the compare-and-swap succeeds, there being no other thread here). *)
Fixpoint next_task_thread_loop (slots : list TaskQueue.ptr) : TaskQueue.ptr * list TaskQueue.ptr :=
  match slots with
  | [] => (None, [])
  | Some t :: rest => (Some t, None :: rest)
  | None :: rest => let '(r, rest') := next_task_thread_loop rest in (r, None :: rest')
  end.

(** The loop of [next_task_thread_back], from the last slot down. *)
Fixpoint next_task_thread_back_loop (slots : list TaskQueue.ptr)
    : TaskQueue.ptr * list TaskQueue.ptr :=
  match slots with
  | [] => (None, [])
  | x :: rest =>
      match next_task_thread_back_loop rest with
      | (Some t, rest') => (Some t, x :: rest')
      | (None, rest') =>
          match x with
          | Some t => (Some t, None :: rest')
          | None => (None, None :: rest')
          end
      end
  end.

(** [target = (++target == num_threads) ? 0 : target] *)
Definition next_target (num_threads target : nat) : nat :=
  if Nat.eqb (S target) num_threads then 0 else S target.

(** The stealing loops of [next_task]: from [target] round to the thread's
    own [thread_id], stealing from the back of the threads that exist and
    pass [pick]; a successful steal sets [last_steal_thread_id] of thread
    [me]. The fuel, [num_threads], is never exhausted when
    [thread_id < num_threads]. *)
Fixpoint steal_loop (num_threads : nat) (me id : nat) (pick : dart_thread_t -> bool)
    (fuel target : nat) (s : sched_state) : option (TaskQueue.ptr * sched_state) :=
  if Nat.eqb target id then Some (None, s)
  else
    match fuel with
    | 0 => Some (None, s)
    | S f =>
        match thread_pool s target with
        | Some target_thread =>
            if pick target_thread then
              match next_task_thread_back_loop (queue target_thread) with
              | (Some t, q') =>
                  let s1 := set_thread s target (with_queue target_thread q') in
                  match thread_pool s1 me with
                  | Some th => Some (Some t, set_thread s1 me (with_last_steal th target))
                  | None => None
                  end
              | (None, _) => steal_loop num_threads me id pick f (next_target num_threads target) s
              end
            else steal_loop num_threads me id pick f (next_target num_threads target) s
        | None => steal_loop num_threads me id pick f (next_target num_threads target) s
        end
    end.

(** The [do ... while] loop over the task queues of the NUMA domains,
    starting with the thread's own. *)
Fixpoint numa_loop (num_numa_nodes numa : nat) (fuel i : nat) : TaskQueue.M TaskQueue.ptr :=
  match fuel with
  | 0 => TaskQueue.ret None
  | S f =>
      TaskQueue.bind (TaskQueue.dart_tasking_taskqueue_pop ((numa + i) mod num_numa_nodes))
        (fun task =>
           if TaskQueue.is_nonnull task then TaskQueue.ret task
           else if Nat.ltb (S i) num_numa_nodes then numa_loop num_numa_nodes numa f (S i)
           else TaskQueue.ret None)
  end.

(** [next_task] of the thread [thread_pool[me]]. [None] is a [NULL]
    dereference or a failure inside the task queue. *)
Definition next_task_of (num_threads num_numa_nodes me : nat) (s : sched_state)
    : option (TaskQueue.ptr * sched_state) :=
  match thread_pool s me with
  | None => None
  | Some th =>
      let '(task, th1) :=
        match next_task th with
        | Some t => (Some t, with_next_task th None)
        | None => let '(r, q') := next_task_thread_loop (queue th) in (r, with_queue th q')
        end in
      let s1 := set_thread s me th1 in
      if TaskQueue.is_nonnull task then Some (task, s1)
      else
        (* try to steal from the last successful thread *)
        match thread_pool s1 (last_steal_thread_id th1) with
        | None => None
        | Some victim =>
            match next_task_thread_back_loop (queue victim) with
            | (Some t, q') =>
                Some (Some t, set_thread s1 (last_steal_thread_id th1) (with_queue victim q'))
            | (None, _) =>
                (* threads on the same NUMA node *)
                match steal_loop num_threads me (thread_id th1)
                        (fun t => Nat.eqb (numa_id t) (numa_id th1)) num_threads
                        ((thread_id th1 + 1) mod num_threads) s1 with
                | None => None
                | Some (Some t, s2) => Some (Some t, s2)
                | Some (None, s2) =>
                    (* the global queues of the NUMA domains *)
                    match numa_loop num_numa_nodes (numa_id th1) num_numa_nodes 0 (task_queue s2) with
                    | None => None
                    | Some (Some t, tq') => Some (Some t, mk_sched_state (thread_pool s2) tq')
                    | Some (None, tq') =>
                        let s3 := mk_sched_state (thread_pool s2) tq' in
                        if Nat.ltb 1 num_numa_nodes then
                          steal_loop num_threads me (thread_id th1)
                            (fun t => negb (Nat.eqb (numa_id t) (numa_id th1))) num_threads
                            ((thread_id th1 + 1) mod num_threads) s3
                        else Some (None, s3)
                    end
                end
            end
        end
  end.

(** The targets [steal_loop] visits, in order. *)
Fixpoint visits (num_threads id fuel target : nat) : list nat :=
  if Nat.eqb target id then []
  else
    match fuel with
    | 0 => []
    | S f => target :: visits num_threads id f (next_target num_threads target)
    end.

End Worker.
(* ------------------------------------------------------------------ *)
(** ** Facts about the task queue *)

Module TaskQueueFacts.
Import TaskQueue.

(** *** Memory updates *)

Lemma hset_next_eq h x v : hset_next h x v x = mk_task v (prev (h x)) (prio (h x)).
Proof. unfold hset_next. now rewrite Nat.eqb_refl. Qed.

Lemma hset_next_neq h x v y : y <> x -> hset_next h x v y = h y.
Proof. intros Hne. unfold hset_next. now rewrite (proj2 (Nat.eqb_neq _ _) Hne). Qed.

Lemma hset_prev_eq h x v : hset_prev h x v x = mk_task (next (h x)) v (prio (h x)).
Proof. unfold hset_prev. now rewrite Nat.eqb_refl. Qed.

Lemma hset_prev_neq h x v y : y <> x -> hset_prev h x v y = h y.
Proof. intros Hne. unfold hset_prev. now rewrite (proj2 (Nat.eqb_neq _ _) Hne). Qed.

Lemma hset_next_prio h x v y : prio (hset_next h x v y) = prio (h y).
Proof. unfold hset_next. destruct (Nat.eqb_spec y x); subst; reflexivity. Qed.

Lemma hset_prev_prio h x v y : prio (hset_prev h x v y) = prio (h y).
Proof. unfold hset_prev. destruct (Nat.eqb_spec y x); subst; reflexivity. Qed.

Lemma dq_eqb_spec d d' : dq_eqb d d' = true <-> d = d'.
Proof.
  destruct d as [q w], d' as [q' w']; unfold dq_eqb; simpl.
  rewrite andb_true_iff, Nat.eqb_eq.
  split.
  - intros [-> Hw]. destruct w, w'; simpl in Hw; congruence.
  - intros H. inversion H; subst. destruct w'; auto.
Qed.

Lemma dq_set_same s d v : dq (set_dq s d v) d = v.
Proof.
  destruct d as [q w]; unfold dq, set_dq; simpl. rewrite Nat.eqb_refl.
  destruct w; reflexivity.
Qed.

Lemma dq_set_other s d d' v : d' <> d -> dq (set_dq s d v) d' = dq s d'.
Proof.
  destruct d as [q w], d' as [q' w']; unfold dq, set_dq; simpl; intros Hne.
  destruct (Nat.eqb_spec q' q); subst; [|reflexivity].
  destruct w, w'; simpl; congruence.
Qed.

Lemma tasks_set_dq s d v : tasks (set_dq s d v) = tasks s.
Proof. reflexivity. Qed.

Lemma dq_set_next s x v d : dq (set_next s x v) d = dq s d.
Proof. reflexivity. Qed.

Lemma dq_set_prev s x v d : dq (set_prev s x v) d = dq s d.
Proof. reflexivity. Qed.

Lemma Lset_same L d l : Lset L d l d = l.
Proof. unfold Lset. now rewrite (proj2 (dq_eqb_spec d d) eq_refl). Qed.

Lemma Lset_other L d d' l : d' <> d -> Lset L d l d' = L d'.
Proof.
  intros Hne. unfold Lset. destruct (dq_eqb d' d) eqn:E; [|reflexivity].
  apply dq_eqb_spec in E. contradiction.
Qed.

Lemma dqaddr_eq_dec (d d' : dqaddr) : {d = d'} + {d <> d'}.
Proof. decide equality; [decide equality | apply Nat.eq_dec]. Qed.

(** *** List segments *)

Lemma dseg_frame h h' l : forall p f la n,
  (forall y, In y l -> h' y = h y) -> dseg h l p f la n -> dseg h' l p f la n.
Proof.
  induction l as [|x l IH]; simpl; intros p f la n Hh H; [exact H|].
  destruct H as (Hf & Hp & H).
  rewrite (Hh x (or_introl eq_refl)).
  split; [exact Hf|]. split; [exact Hp|].
  apply IH; [|exact H].
  intros y Hy; apply Hh; now right.
Qed.

Lemma dseg_app h l1 l2 : forall p f la n,
  dseg h (l1 ++ l2) p f la n <->
  exists m1 m2, dseg h l1 p f m1 m2 /\ dseg h l2 m1 m2 la n.
Proof.
  induction l1 as [|x l1 IH]; simpl; intros p f la n.
  - split.
    + intros H. exists p, f. auto.
    + intros (m1 & m2 & (-> & ->) & H). exact H.
  - rewrite IH. split.
    + intros (-> & Hp & m1 & m2 & H1 & H2). exists m1, m2. auto.
    + intros (m1 & m2 & (-> & Hp & H1) & H2). repeat split; auto.
      exists m1, m2. auto.
Qed.

Lemma dseg_mid h l1 x l2 p f la n :
  dseg h (l1 ++ x :: l2) p f la n <->
  exists m, dseg h l1 p f m (Some x) /\ prev (h x) = m /\
            dseg h l2 (Some x) (next (h x)) la n.
Proof.
  rewrite dseg_app. simpl. split.
  - intros (m1 & m2 & H1 & -> & Hp & H2). exists m1. auto.
  - intros (m & H1 & Hp & H2). exists m, (Some x). auto.
Qed.

Lemma dseg_snoc h l x p f la n :
  dseg h (l ++ [x]) p f la n <->
  exists m, dseg h l p f m (Some x) /\ prev (h x) = m /\ next (h x) = n /\ la = Some x.
Proof.
  rewrite dseg_mid. simpl. split.
  - intros (m & H1 & Hp & Hn & Hla). exists m. auto.
  - intros (m & H1 & Hp & Hn & Hla). exists m. auto.
Qed.

Lemma dseg_last h l : forall p f la n,
  dseg h l p f la n -> l <> [] -> la = Some (last l 0).
Proof.
  induction l as [|x l IH]; simpl; intros p f la n H Hne; [congruence|].
  destruct H as (_ & _ & H). destruct l as [|y l].
  - simpl in H. destruct H as [_ ->]. reflexivity.
  - apply (IH _ _ _ _ H). discriminate.
Qed.

Lemma rep_head_tail h d l : rep h d l -> (head d = None <-> tail d = None).
Proof.
  unfold rep; intros H. destruct l as [|x l].
  - simpl in H. destruct H as [-> ->]. tauto.
  - pose proof (dseg_last _ _ _ _ _ _ H ltac:(discriminate)) as Hl.
    simpl in H. destruct H as (-> & _). rewrite Hl. split; discriminate.
Qed.

Lemma rep_nil h d : rep h d [] <-> head d = None /\ tail d = None.
Proof. unfold rep; simpl. split; intros [? ?]; auto. Qed.

Lemma rep_head_some h d x l : rep h d (x :: l) -> head d = Some x.
Proof. unfold rep; simpl; tauto. Qed.

Lemma rep_tail_some h d l : rep h d l -> l <> [] -> tail d = Some (last l 0).
Proof. unfold rep; intros H Hne. exact (dseg_last _ _ _ _ _ _ H Hne). Qed.

Lemma last_In (l : list nat) : l <> [] -> In (last l 0) l.
Proof.
  induction l as [|x l IH]; intros Hne; [congruence|].
  destruct l as [|y l]; simpl; [auto|].
  right. apply IH. discriminate.
Qed.

Arguments hset_next : simpl never.
Arguments hset_prev : simpl never.
Arguments set_dq : simpl never.
Arguments dq : simpl never.

Arguments insert_walk : simpl never.

Ltac neq_tac := solve [congruence | intro; subst; tauto | intro; subst; eauto ].

Ltac hsimpl :=
  repeat progress (simpl;
    rewrite ?tasks_set_dq, ?dq_set_same, ?dq_set_next, ?dq_set_prev,
            ?hset_next_eq, ?hset_prev_eq, ?hset_next_prio, ?hset_prev_prio;
    repeat (rewrite hset_next_neq by neq_tac);
    repeat (rewrite hset_prev_neq by neq_tac);
    repeat (rewrite dq_set_other by congruence)).

Ltac mrun :=
  unfold bind, ret, fail, assert, load_dq, store_head, store_tail, load_next,
    load_prev, load_prio, store_next, store_prev, both_nonnull, is_nonnull in *;
  hsimpl.

Ltac dq_other H :=
  repeat (first [rewrite dq_set_next | rewrite dq_set_prev | rewrite dq_set_other by exact H]);
  reflexivity.

Lemma deque_push_run s d t l :
  rep (tasks s) (dq s d) l -> NoDup l -> ~ In t l ->
  next (tasks s t) = None -> prev (tasks s t) = None ->
  exists s', task_deque_push d (Some t) s = Some (tt, s') /\
    rep (tasks s') (dq s' d) (t :: l) /\
    (forall d', d' <> d -> dq s' d' = dq s d') /\
    (forall y, y <> t -> ~ In y l -> tasks s' y = tasks s y) /\
    (forall y, prio (tasks s' y) = prio (tasks s y)).
Proof.
  intros Hr Hnd Ht Hn Hp. destruct l as [|x l].
  - apply rep_nil in Hr as [Hh Htl].
    eexists; split.
    { unfold task_deque_push. mrun. rewrite Hh. mrun. reflexivity. }
    hsimpl. split; [|split; [|split]].
    + unfold rep; simpl. auto.
    + intros d' Hd'. dq_other Hd'.
    + reflexivity.
    + reflexivity.
  - pose proof (rep_head_some _ _ _ _ Hr) as Hh.
    pose proof (rep_tail_some _ _ _ Hr ltac:(discriminate)) as Htl.
    assert (Htx : t <> x) by (intro; subst; apply Ht; left; reflexivity).
    eexists; split.
    { unfold task_deque_push. mrun. rewrite Hh. mrun. rewrite Htl. mrun. reflexivity. }
    unfold rep in Hr. simpl in Hr. destruct Hr as (_ & Hpx & Hr). rewrite Htl in Hr.
    apply NoDup_cons_iff in Hnd as [Hxl Hnd]. simpl in Ht.
    hsimpl. split; [|split; [|split]].
    + unfold rep; simpl. hsimpl. split; auto. split; auto. split; auto. split; auto.
      hsimpl. 
      eapply dseg_frame; [|exact Hr].
      intros y Hy. hsimpl. reflexivity.
    + intros d' Hd'. dq_other Hd'.
    + intros y Hy1 Hy2. hsimpl. reflexivity.
    + intros y. hsimpl. reflexivity.
Qed.

Lemma dseg_snoc_exists (l : list nat) : l <> [] -> exists l0 w, l = l0 ++ [w].
Proof.
  intros Hne. destruct (exists_last Hne) as [l0 [w ->]]. eauto.
Qed.

Lemma deque_pushback_run s d t l :
  rep (tasks s) (dq s d) l -> NoDup l -> ~ In t l ->
  next (tasks s t) = None -> prev (tasks s t) = None ->
  exists s', task_deque_pushback d (Some t) s = Some (tt, s') /\
    rep (tasks s') (dq s' d) (l ++ [t]) /\
    (forall d', d' <> d -> dq s' d' = dq s d') /\
    (forall y, y <> t -> ~ In y l -> tasks s' y = tasks s y) /\
    (forall y, prio (tasks s' y) = prio (tasks s y)).
Proof.
  intros Hr Hnd Ht Hn Hp. destruct l as [|x l'] eqn:El.
  - apply rep_nil in Hr as [Hh Htl].
    eexists; split.
    { unfold task_deque_pushback. mrun. rewrite Hh. mrun. reflexivity. }
    hsimpl. split; [|split; [|split]].
    + unfold rep; simpl. auto.
    + intros d' Hd'. dq_other Hd'.
    + reflexivity.
    + reflexivity.
  - rewrite <- El in *.
    pose proof (rep_head_some _ _ _ _ (eq_ind _ (fun l => rep _ _ l) Hr _ El)) as Hh.
    assert (Hne : l <> []) by (rewrite El; discriminate).
    pose proof (rep_tail_some _ _ _ Hr Hne) as Htl.
    destruct (dseg_snoc_exists l Hne) as (l0 & w & Hl). clear El.
    subst l. rewrite last_last in Htl.
    assert (Htw : t <> w) by (intro; subst; apply Ht, in_or_app; right; left; reflexivity).
    eexists; split.
    { unfold task_deque_pushback. mrun. rewrite Hh. mrun. rewrite Htl. mrun.
      rewrite Hh. mrun. reflexivity. }
    unfold rep in Hr. rewrite Htl in Hr.
    apply dseg_snoc in Hr as (m & Hr0 & Hpw & Hnw & _).
    apply NoDup_remove in Hnd as [Hnd Hw0]. rewrite app_nil_r in Hnd, Hw0.
    assert (Ht0 : ~ In t l0) by (intro; apply Ht, in_or_app; left; assumption).
    hsimpl. split; [|split; [|split]].
    + unfold rep; simpl. hsimpl.
      apply dseg_snoc. exists (Some w). hsimpl. split; [|auto].
      apply dseg_snoc. exists m. hsimpl. split; [|auto].
      rewrite Hh in Hr0. eapply dseg_frame; [|exact Hr0].
      intros y Hy. hsimpl. reflexivity.
    + intros d' Hd'. dq_other Hd'.
    + intros y Hy1 Hy2. rewrite in_app_iff in Hy2. simpl in Hy2. hsimpl. reflexivity.
    + intros y. hsimpl. reflexivity.
Qed.

Lemma deque_pop_run s d l :
  rep (tasks s) (dq s d) l -> NoDup l ->
  exists s', task_deque_pop d s = Some (hd_error l, s') /\
    rep (tasks s') (dq s' d) (tl l) /\
    (forall d', d' <> d -> dq s' d' = dq s d') /\
    (forall y, ~ In y l -> tasks s' y = tasks s y) /\
    (forall y, prio (tasks s' y) = prio (tasks s y)) /\
    (forall x, hd_error l = Some x -> next (tasks s' x) = None /\ prev (tasks s' x) = None).
Proof.
  intros Hr Hnd. destruct l as [|x [|z l]].
  - apply rep_nil in Hr as [Hh Htl].
    eexists; split.
    { unfold task_deque_pop. mrun. rewrite Hh. mrun. rewrite Hh, Htl. mrun. reflexivity. }
    split; [apply rep_nil; auto|].
    split; [intros; reflexivity|].
    split; [intros; reflexivity|].
    split; [intros; reflexivity|].
    intros x Hx; discriminate.
  - pose proof (rep_head_some _ _ _ _ Hr) as Hh.
    pose proof (rep_tail_some _ _ _ Hr ltac:(discriminate)) as Htl. simpl in Htl.
    eexists; split.
    { unfold task_deque_pop. mrun. rewrite Hh, Htl. mrun. rewrite Nat.eqb_refl. mrun.
      reflexivity. }
    hsimpl. split; [|split; [|split; [|split]]].
    + apply rep_nil. hsimpl. auto.
    + intros d' Hd'. dq_other Hd'.
    + intros y Hy. simpl in Hy. hsimpl. reflexivity.
    + intros y. hsimpl. reflexivity.
    + intros y Hy. simpl in Hy. injection Hy as <-. hsimpl. auto.
  - pose proof (rep_head_some _ _ _ _ Hr) as Hh.
    pose proof (rep_tail_some _ _ _ Hr ltac:(discriminate)) as Htl.
    change (last (x :: z :: l) 0) with (last (z :: l) 0) in Htl.
    set (w := last (z :: l) 0) in *.
    assert (Hw : In w (z :: l)) by (apply last_In; discriminate).
    apply NoDup_cons_iff in Hnd as [Hxl Hnd].
    assert (Hxw : x <> w) by (intro; subst; contradiction).
    unfold rep in Hr. simpl in Hr. destruct Hr as (_ & Hpx & Hnx & Hpz & Hr).
    eexists; split.
    { unfold task_deque_pop. mrun. rewrite Hh, Htl. mrun.
      rewrite (proj2 (Nat.eqb_neq x w) Hxw). mrun. rewrite Hnx. mrun. rewrite Htl. mrun.
      reflexivity. }
    apply NoDup_cons_iff in Hnd as [Hzl Hnd]. simpl in Hxl.
    hsimpl. split; [|split; [|split; [|split]]].
    + unfold rep; simpl. hsimpl. split; auto. split; auto.
      rewrite Htl in Hr.
      eapply dseg_frame; [|exact Hr].
      intros y Hy. hsimpl. reflexivity.
    + intros d' Hd'. dq_other Hd'.
    + intros y Hy. simpl in Hy. hsimpl. reflexivity.
    + intros y. hsimpl. reflexivity.
    + intros y Hy. simpl in Hy. injection Hy as <-. hsimpl. auto.
Qed.


Lemma deque_popback_run s d l :
  rep (tasks s) (dq s d) l -> NoDup l ->
  exists s', task_deque_popback d s = Some (last_opt l, s') /\
    rep (tasks s') (dq s' d) (removelast l) /\
    (forall d', d' <> d -> dq s' d' = dq s d') /\
    (forall y, ~ In y l -> tasks s' y = tasks s y) /\
    (forall y, prio (tasks s' y) = prio (tasks s y)) /\
    (forall x, last_opt l = Some x -> next (tasks s' x) = None /\ prev (tasks s' x) = None).
Proof.
  intros Hr Hnd. destruct l as [|x l'] eqn:El.
  - apply rep_nil in Hr as [Hh Htl].
    eexists; split.
    { unfold task_deque_popback. mrun. rewrite Htl. mrun. reflexivity. }
    split; [apply rep_nil; auto|].
    split; [intros; reflexivity|].
    split; [intros; reflexivity|].
    split; [intros; reflexivity|].
    intros y Hy; discriminate.
  - rewrite <- El in *.
    assert (Hne : l <> []) by (rewrite El; discriminate).
    assert (Hlo : last_opt l = Some (last l 0)) by (rewrite El; reflexivity).
    rewrite Hlo. clear El x l'.
    pose proof (rep_tail_some _ _ _ Hr Hne) as Htl.
    destruct (dseg_snoc_exists l Hne) as (l0 & w & Hl). subst l.
    rewrite last_last in *. rewrite removelast_last.
    apply NoDup_remove in Hnd as [Hnd Hw0]. rewrite app_nil_r in Hnd, Hw0.
    pose proof Hr as Hr'.
    unfold rep in Hr. rewrite Htl in Hr.
    apply dseg_snoc in Hr as (m & Hr0 & Hpw & Hnw & _).
    destruct l0 as [|v0 l0'] eqn:El0.
    + simpl in Hr0. destruct Hr0 as [Hh Hm]. subst m.
      eexists; split.
      { unfold task_deque_popback. mrun. rewrite Htl, Hh. mrun. rewrite Hpw. mrun.
        reflexivity. }
      hsimpl. split; [|split; [|split; [|split]]].
      * apply rep_nil. hsimpl. auto.
      * intros d' Hd'. dq_other Hd'.
      * intros y Hy. simpl in Hy. hsimpl. reflexivity.
      * intros y. hsimpl. reflexivity.
      * intros y Hy. injection Hy as <-. hsimpl. auto.
    + rewrite <- El0 in *.
      assert (Hne0 : l0 <> []) by (rewrite El0; discriminate).
      pose proof (dseg_last _ _ _ _ _ _ Hr0 Hne0) as Hm.
      destruct (dseg_snoc_exists l0 Hne0) as (l1 & v & Hl0). clear El0 v0 l0'.
      subst l0. rewrite last_last in Hm. rewrite Hm in Hpw, Hr0. clear Hm.
      assert (Hh : head (dq s d) <> None).
      { intro Hh0. apply rep_head_tail in Hr'. rewrite Htl in Hr'. apply Hr' in Hh0.
        discriminate. }
      destruct (head (dq s d)) as [hd|] eqn:Ehd; [|congruence].
      apply dseg_snoc in Hr0 as (m1 & Hr1 & Hpv & Hnv & _).
      apply NoDup_remove in Hnd as [Hnd1 Hv1]. rewrite app_nil_r in Hnd1, Hv1.
      assert (Hwv : w <> v) by (intro; subst; apply Hw0, in_or_app; right; left; reflexivity).
      assert (Hw1 : ~ In w l1) by (intro; apply Hw0, in_or_app; left; assumption).
      eexists; split.
      { unfold task_deque_popback. mrun. rewrite Htl, Ehd. mrun. rewrite Hpw. mrun.
        reflexivity. }
      hsimpl. split; [|split; [|split; [|split]]].
      * unfold rep. hsimpl. rewrite Ehd. apply dseg_snoc. exists m1. hsimpl.
        split; [|auto].
        eapply dseg_frame; [|exact Hr1].
        intros y Hy. hsimpl. reflexivity.
      * intros d' Hd'. dq_other Hd'.
      * intros y Hy. rewrite !in_app_iff in Hy. simpl in Hy. hsimpl. reflexivity.
      * intros y. hsimpl. reflexivity.
      * intros y Hy. injection Hy as <-. hsimpl. auto.
Qed.

Lemma insert_walk_run s l : forall p f la k,
  dseg (tasks s) l p f la None -> insert_walk k f s = Some (nth_error l k, s).
Proof.
  induction l as [|x l IH]; simpl; intros p f la k H.
  - destruct H as [-> _]. destruct k; reflexivity.
  - destruct H as (-> & _ & H). destruct k as [|k]; [reflexivity|].
    unfold insert_walk; fold insert_walk. unfold bind, load_next.
    exact (IH _ _ _ k H).
Qed.

Lemma firstn_skipn_mid (l1 r : list nat) x :
  firstn (S (length l1)) (l1 ++ x :: r) = l1 ++ [x] /\
  skipn (S (length l1)) (l1 ++ x :: r) = r.
Proof.
  induction l1 as [|y l1 IH]; [split; reflexivity|].
  destruct IH as [IH1 IH2]. split.
  - change (y :: firstn (S (length l1)) (l1 ++ x :: r) = y :: l1 ++ [x]).
    now rewrite IH1.
  - exact IH2.
Qed.

Lemma NoDup_app_disj (l1 l2 : list nat) x : NoDup (l1 ++ l2) -> In x l1 -> In x l2 -> False.
Proof.
  induction l1 as [|y l1 IH]; simpl; intros Hnd H1 H2; [exact H1|].
  apply NoDup_cons_iff in Hnd as [Hy Hnd]. destruct H1 as [<-|H1].
  - apply Hy, in_or_app. now right.
  - exact (IH Hnd H1 H2).
Qed.

Lemma deque_insert_run s d t pos l :
  rep (tasks s) (dq s d) l -> NoDup l -> ~ In t l ->
  next (tasks s t) = None -> prev (tasks s t) = None ->
  exists s', task_deque_insert d (Some t) pos s = Some (tt, s') /\
    rep (tasks s') (dq s' d) (insert_list pos t l) /\
    (forall d', d' <> d -> dq s' d' = dq s d') /\
    (forall y, y <> t -> ~ In y l -> tasks s' y = tasks s y) /\
    (forall y, prio (tasks s' y) = prio (tasks s y)).
Proof.
  intros Hr Hnd Ht Hn Hp.
  destruct pos as [|p].
  - destruct (deque_push_run s d t l Hr Hnd Ht Hn Hp) as (s' & Hrun & H).
    exists s'. split; [|exact H].
    unfold task_deque_insert, bind, load_dq. simpl. exact Hrun.
  - destruct l as [|x l'] eqn:El.
    + destruct (deque_push_run s d t [] Hr Hnd Ht Hn Hp) as (s' & Hrun & H).
      exists s'. split; [|exact H].
      apply rep_nil in Hr as [Hh _].
      unfold task_deque_insert, bind, load_dq. simpl. rewrite Hh. exact Hrun.
    + rewrite <- El in *.
      pose proof (rep_head_some _ _ _ _ (eq_ind _ (fun l => rep _ _ l) Hr _ El)) as Hh.
      assert (Hins : insert_list (S p) t l = firstn (S (S p)) l ++ t :: skipn (S (S p)) l)
        by (rewrite El; reflexivity).
      rewrite Hins. clear Hins El l'.
      pose proof (insert_walk_run s l _ _ _ (S p) Hr) as Hw.
      destruct (nth_error l (S p)) as [tmp|] eqn:Etmp.
      * destruct (nth_error_split l (S p) Etmp) as (l1 & l2 & Hl & Hlen).
        pose proof Hr as Hr'. unfold rep in Hr'. rewrite Hl in Hr'.
        apply dseg_mid in Hr' as (m & Hr1 & Hptmp & Hr2).
        rewrite Hl, <- Hlen. destruct (firstn_skipn_mid l1 l2 tmp) as [Hf Hs].
        rewrite Hf, Hs.
        destruct l2 as [|z l3].
        -- simpl in Hr2. destruct Hr2 as [Hntmp _].
           destruct (deque_pushback_run s d t l Hr Hnd Ht Hn Hp) as (s' & Hrun & H).
           exists s'. split.
           ++ rewrite Hlen. unfold task_deque_insert, bind, load_dq. rewrite Hh in Hw |- *. simpl. rewrite Hw.
              simpl. unfold load_next. rewrite Hntmp. simpl. exact Hrun.
           ++ rewrite Hl in H. exact H.
        -- simpl in Hr2. destruct Hr2 as (Hntmp & Hpz & Hr3).
           rewrite Hl in Hnd, Ht.
           assert (Htmp1 : ~ In tmp l1)
             by (intro Hi; apply (NoDup_app_disj l1 (tmp :: z :: l3) tmp Hnd Hi); left; auto).
           assert (Hz1 : ~ In z l1)
             by (intro Hi; apply (NoDup_app_disj l1 (tmp :: z :: l3) z Hnd Hi); right; left; auto).
           apply NoDup_app_remove_l in Hnd.
           apply NoDup_cons_iff in Hnd as [Htmp2 Hnd]. apply NoDup_cons_iff in Hnd as [Hz3 Hnd].
           rewrite in_app_iff in Ht. simpl in Ht, Htmp2.
           exists (set_next (set_prev (set_prev (set_next (set_prev (set_next s t None) t None) t (Some z)) z (Some t)) t (Some tmp)) tmp (Some t)).
           split.
           ++ rewrite Hlen. unfold task_deque_insert, bind, load_dq. rewrite Hh in Hw |- *. simpl. rewrite Hw.
              simpl. unfold load_next. rewrite Hntmp. simpl.
              mrun. rewrite Hntmp. mrun. rewrite Hh.
              destruct (tail (dq s d)) eqn:Etl.
              ** reflexivity.
              ** exfalso. apply rep_head_tail in Hr. rewrite Hh in Hr.
                 apply Hr in Etl. discriminate.
           ++ hsimpl. split; [|split; [|split]].
              ** unfold rep. hsimpl. rewrite <- app_assoc. simpl.
                 apply dseg_mid. exists m. hsimpl.
                 split; [|split; [exact Hptmp|]].
                 { eapply dseg_frame; [|exact Hr1]. intros y Hy. hsimpl. reflexivity. }
                 repeat split; auto.
                 eapply dseg_frame; [|exact Hr3]. intros y Hy. hsimpl. reflexivity.
              ** intros d' Hd'. dq_other Hd'.
              ** intros y Hy1 Hy2. rewrite in_app_iff in Hy2. simpl in Hy2. hsimpl. reflexivity.
              ** intros y. hsimpl. reflexivity.
      * assert (Hlen : length l <= S p) by (apply nth_error_None; exact Etmp).
        rewrite firstn_all2 by lia. rewrite skipn_all2 by lia.
        destruct (deque_pushback_run s d t l Hr Hnd Ht Hn Hp) as (s' & Hrun & H).
        exists s'. split; [|exact H].
        unfold task_deque_insert, bind, load_dq. rewrite Hh in Hw |- *. simpl. rewrite Hw.
        simpl. exact Hrun.
Qed.

Lemma deque_move_run s dst src ld ls :
  dst <> src ->
  rep (tasks s) (dq s dst) ld -> rep (tasks s) (dq s src) ls ->
  NoDup ld -> NoDup ls -> (forall y, In y ls -> ~ In y ld) ->
  exists s', task_deque_move dst src s = Some (tt, s') /\
    rep (tasks s') (dq s' dst) (ls ++ ld) /\
    rep (tasks s') (dq s' src) [] /\
    (forall d', d' <> dst -> d' <> src -> dq s' d' = dq s d') /\
    (forall y, ~ In y ls -> ~ In y ld -> tasks s' y = tasks s y) /\
    (forall y, prio (tasks s' y) = prio (tasks s y)).
Proof.
  intros Hne Hrd Hrs Hndd Hnds Hdisj.
  destruct ls as [|a ls'].
  - destruct (proj1 (rep_nil _ _) Hrs) as [Hhs Hts].
    exists s. split.
    { unfold task_deque_move. mrun. rewrite Hhs, Hts. reflexivity. }
    split; [exact Hrd|]. split; [exact Hrs|].
    split; [reflexivity|]. split; reflexivity.
  - pose proof (rep_head_some _ _ _ _ Hrs) as Hhs.
    remember (a :: ls') as ls eqn:Els.
    assert (Hnes : ls <> []) by (rewrite Els; discriminate).
    pose proof (rep_tail_some _ _ _ Hrs Hnes) as Hts.
    destruct (dseg_snoc_exists ls Hnes) as (ls0 & b & Hls). rewrite Hls in *. clear Hls Els.
    rewrite last_last in Hts.
    pose proof Hrs as Hrs'. unfold rep in Hrs'. rewrite Hts in Hrs'.
    apply dseg_snoc in Hrs' as (m & Hrs0 & Hpb & Hnb & _).
    apply NoDup_remove in Hnds as [Hnds0 Hb0]. rewrite app_nil_r in Hnds0, Hb0.
    assert (Hbd : ~ In b ld) by (apply Hdisj, in_or_app; right; left; reflexivity).
    destruct ld as [|c ld'].
    + destruct (proj1 (rep_nil _ _) Hrd) as [Hhd Htd].
      eexists; split.
      { unfold task_deque_move. mrun. rewrite Hhs, Hts. mrun. rewrite Hhd. mrun.
        reflexivity. }
      hsimpl. split; [|split; [|split; [|split]]].
      * rewrite app_nil_r. unfold rep. hsimpl. rewrite <- Hts, <- Hhs.
        unfold rep in Hrs. exact Hrs.
      * apply rep_nil. hsimpl. auto.
      * intros d' H1 H2. hsimpl. reflexivity.
      * intros y _ _. reflexivity.
      * intros y. reflexivity.
    + pose proof (rep_head_some _ _ _ _ Hrd) as Hhd.
      pose proof Hrd as Hrd'. unfold rep in Hrd'. simpl in Hrd'.
      destruct Hrd' as (_ & Hpc & Hrd1).
      assert (Hcs : ~ In c (ls0 ++ [b])) by (intros Hi; apply (Hdisj c Hi); left; reflexivity).
      rewrite in_app_iff in Hcs. simpl in Hcs.
      assert (Hb : b <> c) by (intro; subst; tauto).
      apply NoDup_cons_iff in Hndd as [Hcd Hndd].
      assert (Hbd' : ~ In b ld') by (intro; apply Hbd; right; assumption).
      eexists; split.
      { unfold task_deque_move. mrun. rewrite Hhs, Hts. mrun. rewrite Hhd. mrun.
        reflexivity. }
      hsimpl. split; [|split; [|split; [|split]]].
      * unfold rep. hsimpl. apply dseg_app.
        exists (Some b), (Some c). split.
        -- apply dseg_snoc. exists m. hsimpl. split; [|auto].
           rewrite Hhs in Hrs0.
           eapply dseg_frame; [|exact Hrs0]. intros y Hy. hsimpl. reflexivity.
        -- simpl. hsimpl. split; [reflexivity|]. split; [reflexivity|].
           eapply dseg_frame; [|exact Hrd1]. intros y Hy. hsimpl. reflexivity.
      * apply rep_nil. hsimpl. auto.
      * intros d' H1 H2. hsimpl. reflexivity.
      * intros y Hy1 Hy2. rewrite in_app_iff in Hy1. simpl in Hy1, Hy2. hsimpl. reflexivity.
      * intros y. hsimpl. reflexivity.
Qed.

Lemma seg_head_neq h l p f la n t :
  dseg h l p f la n -> l <> [] -> ~ In t l -> ptr_eqb (Some t) f = false.
Proof.
  destruct l as [|x l]; [congruence|]. simpl. intros (-> & _ & _) _ Hx.
  simpl. apply Nat.eqb_neq. intro; subst; tauto.
Qed.

Lemma seg_tail_neq h l p f la n t :
  dseg h l p f la n -> l <> [] -> ~ In t l -> ptr_eqb (Some t) la = false.
Proof.
  intros H Hne Hx. rewrite (dseg_last _ _ _ _ _ _ H Hne). simpl.
  apply Nat.eqb_neq. intro; subst. apply Hx, last_In, Hne.
Qed.

Lemma rep_head_neq h d l t : rep h d l -> ~ In t l -> ptr_eqb (Some t) (head d) = false.
Proof.
  intros H Hx. destruct l as [|x l].
  - apply rep_nil in H as [-> _]. reflexivity.
  - eapply seg_head_neq; [exact H|discriminate|exact Hx].
Qed.

Lemma rep_tail_neq h d l t : rep h d l -> ~ In t l -> ptr_eqb (Some t) (tail d) = false.
Proof.
  intros H Hx. destruct l as [|x l].
  - apply rep_nil in H as [_ ->]. reflexivity.
  - eapply seg_tail_neq; [exact H|discriminate|exact Hx].
Qed.

Lemma ptr_eqb_refl_some t : ptr_eqb (Some t) (Some t) = true.
Proof. simpl. apply Nat.eqb_refl. Qed.


Lemma NoDup_mid (l1 mid l2 : list nat) : NoDup (l1 ++ mid ++ l2) ->
  NoDup mid /\ (forall y, In y l1 -> ~ In y mid) /\ (forall y, In y l2 -> ~ In y mid).
Proof.
  intros H. split; [|split].
  - exact (NoDup_app_remove_r _ _ (NoDup_app_remove_l _ _ H)).
  - intros y H1 H2. apply (NoDup_app_disj l1 (mid ++ l2) y H H1), in_or_app. now left.
  - intros y H1 H2. apply NoDup_app_remove_l in H.
    exact (NoDup_app_disj mid l2 y H H2 H1).
Qed.

Lemma notin3 (a b c y : nat) : ~ In y [a; b; c] -> y <> a /\ y <> b /\ y <> c.
Proof. simpl. intuition congruence. Qed.

Lemma notin2 (a b y : nat) : ~ In y [a; b] -> y <> a /\ y <> b.
Proof. simpl. intuition congruence. Qed.

Lemma notin1 (a y : nat) : ~ In y [a] -> y <> a.
Proof. simpl. intuition congruence. Qed.

Lemma nodup3 (a b c : nat) : NoDup [a; b; c] -> a <> b /\ a <> c /\ b <> c.
Proof.
  intros H. inversion H as [|? ? Ha H']; subst. inversion H' as [|? ? Hb _]; subst.
  simpl in *. intuition congruence.
Qed.

Lemma nodup2 (a b : nat) : NoDup [a; b] -> a <> b.
Proof. intros H. inversion H as [|? ? Ha _]; subst. simpl in *. intuition congruence. Qed.

Arguments ptr_eqb : simpl never.

Ltac rm_run Hpt Hnt EhW EhO EtW EtO := unfold dart_tasking_taskqueue_remove;
  do 8 (mrun; rewrite ?Hpt, ?Hnt, ?EhW, ?EhO, ?EtW, ?EtO); reflexivity.

Lemma queue_remove_run s L q w t l1 l2 :
  wf s L -> L (q, w) = l1 ++ t :: l2 ->
  exists s', dart_tasking_taskqueue_remove q (Some t) s = Some (tt, s') /\
    rep (tasks s') (dq s' (q, w)) (l1 ++ l2) /\
    (forall d', d' <> (q, w) -> dq s' d' = dq s d') /\
    (forall y, ~ In y (l1 ++ t :: l2) -> tasks s' y = tasks s y) /\
    (forall y, prio (tasks s' y) = prio (tasks s y)) /\
    next (tasks s' t) = None /\ prev (tasks s' t) = None.
Proof.
  intros Hwf EL.
  assert (Hno : ~ In t (L (q, other w))).
  { intros Hi. assert (Hx : (q, other w) = (q, w)).
    { apply (wf_disj _ _ Hwf _ _ t Hi). rewrite EL. apply in_or_app; right; left; reflexivity. }
    destruct w; discriminate. }
  pose proof (wf_rep _ _ Hwf (q, other w)) as Hro.
  pose proof (rep_head_neq _ _ _ _ Hro Hno) as EhO.
  pose proof (rep_tail_neq _ _ _ _ Hro Hno) as EtO.
  clear Hro Hno.
  pose proof (wf_nodup _ _ Hwf (q, w)) as Hnd. rewrite EL in Hnd.
  pose proof (wf_rep _ _ Hwf (q, w)) as Hr. rewrite EL in Hr. unfold rep in Hr.
  clear EL.
  assert (Hl1 : l1 = [] \/ exists l1' v, l1 = l1' ++ [v]).
  { destruct l1; [now left|right; apply dseg_snoc_exists; discriminate]. }
  assert (Hl2 : l2 = [] \/ exists z l2', l2 = z :: l2').
  { destruct l2; [now left|right; eauto]. }
  destruct Hl1 as [->|(l1' & v & ->)], Hl2 as [->|(z & l2' & ->)].
  - (* the only element *)
    simpl in Hr. destruct Hr as (Hhd & Hpt & Hnt & Htl).
    assert (EhW : ptr_eqb (Some t) (head (dq s (q, w))) = true)
      by (rewrite Hhd; apply ptr_eqb_refl_some).
    assert (EtW : ptr_eqb (Some t) (tail (dq s (q, w))) = true)
      by (rewrite Htl; apply ptr_eqb_refl_some).
    clear Hwf.
    destruct w; simpl in EhO, EtO; (eexists; split; [rm_run Hpt Hnt EhW EhO EtW EtO|]);
      hsimpl; (split; [apply rep_nil; hsimpl; auto|]);
      (split; [intros d' Hd; hsimpl; reflexivity|]);
      (split; [intros y Hy; apply notin1 in Hy; hsimpl; reflexivity|]);
      (split; [intros y; hsimpl; reflexivity|]); split; reflexivity.
  - (* the first element *)
    simpl in Hr. destruct Hr as (Hhd & Hpt & Hnt & Hpz & Hr2).
    apply (NoDup_mid [] [t; z] l2') in Hnd as (Hnd & _ & Hl2').
    apply nodup2 in Hnd.
    assert (EhW : ptr_eqb (Some t) (head (dq s (q, w))) = true)
      by (rewrite Hhd; apply ptr_eqb_refl_some).
    assert (EtW : ptr_eqb (Some t) (tail (dq s (q, w))) = false).
    { eapply (seg_tail_neq _ (z :: l2')); [simpl; split; [reflexivity|]; split; [exact Hpz|exact Hr2]|discriminate|].
      intros [Hi|Hi]; [congruence|exact (Hl2' t Hi (or_introl eq_refl))]. }
    clear Hwf.
    destruct w; simpl in EhO, EtO; (eexists; split; [rm_run Hpt Hnt EhW EhO EtW EtO|]);
      hsimpl; (split; [unfold rep; hsimpl; split; [reflexivity|]; split; [hsimpl; reflexivity|];
                       eapply dseg_frame; [|exact Hr2]; intros y Hy;
                       destruct (notin2 _ _ _ (Hl2' y Hy)); hsimpl; reflexivity|]);
      (split; [intros d' Hd; hsimpl; reflexivity|]);
      (split; [intros y Hy; assert (y <> t /\ y <> z) as [? ?]
                 by (split; intro; subst; apply Hy; simpl; intuition); hsimpl; reflexivity|]);
      (split; [intros y; hsimpl; reflexivity|]); split; hsimpl; reflexivity.
  - (* the last element *)
    apply dseg_snoc in Hr as (m & Hr1 & Hpt & Hnt & Htl).
    assert (Hnd' : NoDup (l1' ++ [v; t] ++ [])) by (rewrite <- app_assoc in Hnd; exact Hnd).
    apply NoDup_mid in Hnd' as (Hnd' & Hl1'' & _). apply nodup2 in Hnd'.
    assert (EhW : ptr_eqb (Some t) (head (dq s (q, w))) = false).
    { eapply seg_head_neq; [exact Hr1|apply not_eq_sym, app_cons_not_nil|].
      intros Hi. apply in_app_iff in Hi as [Hi|[Hi|[]]]; [exact (Hl1'' t Hi (or_intror (or_introl eq_refl)))|congruence]. }
    assert (EtW : ptr_eqb (Some t) (tail (dq s (q, w))) = true)
      by (rewrite Htl; apply ptr_eqb_refl_some).
    apply dseg_snoc in Hr1 as (m' & Hr0 & Hpv & Hnv & ->).
    clear Hwf Hnd.
    destruct w; simpl in EhO, EtO; (eexists; split; [rm_run Hpt Hnt EhW EhO EtW EtO|]);
      hsimpl; (split; [rewrite app_nil_r; unfold rep; hsimpl; apply dseg_snoc; exists m';
                       (split; [|hsimpl; auto]);
                       eapply dseg_frame; [|exact Hr0]; intros y Hy;
                       destruct (notin2 _ _ _ (Hl1'' y Hy)); hsimpl; reflexivity|]);
      (split; [intros d' Hd; hsimpl; reflexivity|]);
      (split; [intros y Hy; assert (y <> t /\ y <> v) as [? ?]
                 by (split; intro; subst; apply Hy; rewrite ?in_app_iff; simpl; intuition);
               hsimpl; reflexivity|]);
      (split; [intros y; hsimpl; reflexivity|]); split; hsimpl; reflexivity.
  - (* an inner element *)
    apply dseg_mid in Hr as (m & Hr1 & Hpt & Hr2).
    assert (Hnd' : NoDup (l1' ++ [v; t; z] ++ l2')) by (rewrite <- app_assoc in Hnd; exact Hnd).
    apply NoDup_mid in Hnd' as (Hnd' & Hl1'' & Hl2''). apply nodup3 in Hnd' as (Hvt & Hvz & Htz).
    assert (EhW : ptr_eqb (Some t) (head (dq s (q, w))) = false).
    { eapply seg_head_neq; [exact Hr1|apply not_eq_sym, app_cons_not_nil|].
      intros Hi. apply in_app_iff in Hi as [Hi|[Hi|[]]]; [exact (Hl1'' t Hi (or_intror (or_introl eq_refl)))|congruence]. }
    assert (EtW : ptr_eqb (Some t) (tail (dq s (q, w))) = false).
    { eapply seg_tail_neq; [exact Hr2|discriminate|].
      intros [Hi|Hi]; [congruence|exact (Hl2'' t Hi (or_intror (or_introl eq_refl)))]. }
    apply dseg_snoc in Hr1 as (m' & Hr0 & Hpv & Hnv & ->).
    simpl in Hr2. destruct Hr2 as (Hnt & Hpz & Hr2).
    clear Hwf Hnd.
    destruct w; simpl in EhO, EtO; (eexists; split; [rm_run Hpt Hnt EhW EhO EtW EtO|]);
      hsimpl; (split; [unfold rep; hsimpl; apply dseg_app; exists (Some v), (Some z); split;
                       [apply dseg_snoc; exists m'; (split; [|hsimpl; auto]);
                        eapply dseg_frame; [|exact Hr0]; intros y Hy;
                        destruct (notin3 _ _ _ _ (Hl1'' y Hy)) as (? & ? & ?); hsimpl; reflexivity
                       |simpl; hsimpl; split; [reflexivity|]; split; [reflexivity|];
                        eapply dseg_frame; [|exact Hr2]; intros y Hy;
                        destruct (notin3 _ _ _ _ (Hl2'' y Hy)) as (? & ? & ?); hsimpl; reflexivity]|]);
      (split; [intros d' Hd; hsimpl; reflexivity|]);
      (split; [intros y Hy; assert (y <> t /\ y <> v /\ y <> z) as (? & ? & ?)
                 by (split; [|split]; intro; subst; apply Hy; rewrite ?in_app_iff; simpl; intuition);
               hsimpl; reflexivity|]);
      (split; [intros y; hsimpl; reflexivity|]); split; hsimpl; reflexivity.
Qed.

Lemma queue_remove_free s L q t :
  wf s L -> (forall d, ~ In t (L d)) ->
  exists s', dart_tasking_taskqueue_remove q (Some t) s = Some (tt, s') /\
    (forall d, dq s' d = dq s d) /\ (forall y, tasks s' y = tasks s y).
Proof.
  intros Hwf Hf.
  pose proof (rep_head_neq _ _ _ _ (wf_rep _ _ Hwf (q, High)) (Hf _)) as EhH.
  pose proof (rep_head_neq _ _ _ _ (wf_rep _ _ Hwf (q, Low)) (Hf _)) as EhL.
  pose proof (rep_tail_neq _ _ _ _ (wf_rep _ _ Hwf (q, High)) (Hf _)) as EtH.
  pose proof (rep_tail_neq _ _ _ _ (wf_rep _ _ Hwf (q, Low)) (Hf _)) as EtL.
  destruct (wf_free _ _ Hwf t Hf) as [Hnt Hpt].
  eexists; split; [rm_run Hpt Hnt EhH EhL EtH EtL|].
  split; [intros d; reflexivity|].
  intros y. destruct (Nat.eq_dec y t) as [->|Hy]; hsimpl; [|reflexivity].
  destruct (tasks s t); simpl in *; subst; reflexivity.
Qed.

Lemma wf_ext s L L' : wf s L -> (forall d, L' d = L d) -> wf s L'.
Proof.
  intros [Hr Hn Hd Hf Hp] HL. split; intros; rewrite ?HL in *; eauto.
  apply Hf. intros d; rewrite <- HL; auto.
Qed.

(** The invariant is kept by a step that changes the deques [C] (and
    nothing else), and queues the new tasks [Tnew]. *)
Lemma wf_step s s' L L' (C : list dqaddr) (Tnew : list nat) :
  wf s L ->
  (forall d, In d C -> rep (tasks s') (dq s' d) (L' d) /\ NoDup (L' d)) ->
  (forall d, ~ In d C -> L' d = L d /\ dq s' d = dq s d) ->
  (forall y, (forall d, In d C -> ~ In y (L d)) -> ~ In y Tnew -> tasks s' y = tasks s y) ->
  (forall y, prio (tasks s' y) = prio (tasks s y)) ->
  (forall d y, In d C -> In y (L' d) -> In y Tnew \/ exists d0, In d0 C /\ In y (L d0)) ->
  (forall d1 d2 y, In d1 C -> In d2 C -> In y (L' d1) -> In y (L' d2) -> d1 = d2) ->
  (forall y, (forall d, ~ In y (L' d)) -> (exists d, In d C /\ In y (L d)) \/ In y Tnew ->
             next (tasks s' y) = None /\ prev (tasks s' y) = None) ->
  (forall d y, In d C -> In y (L' d) -> deque_for (fst d) (prio (tasks s y)) = d) ->
  (forall y, In y Tnew -> forall d, ~ In y (L d)) ->
  wf s' L'.
Proof.
  intros Hwf HC Hout Hframe Hprio Horig Hdisj Hfree Hpl Hnew.
  assert (Hsep : forall d y, ~ In d C -> In y (L d) ->
                   (forall d0, In d0 C -> ~ In y (L d0)) /\ ~ In y Tnew).
  { intros d y Hd Hy. split.
    - intros d0 Hd0 Hy0. apply Hd. rewrite (wf_disj _ _ Hwf _ _ _ Hy Hy0). exact Hd0.
    - intros Hi. exact (Hnew y Hi d Hy). }
  split.
  - intros d. destruct (in_dec dqaddr_eq_dec d C) as [Hd|Hd]; [apply HC, Hd|].
    destruct (Hout d Hd) as [-> ->].
    eapply dseg_frame; [|apply (wf_rep _ _ Hwf)].
    intros y Hy. destruct (Hsep d y Hd Hy). apply Hframe; assumption.
  - intros d. destruct (in_dec dqaddr_eq_dec d C) as [Hd|Hd]; [apply HC, Hd|].
    destruct (Hout d Hd) as [-> _]. apply (wf_nodup _ _ Hwf).
  - intros d1 d2 y Hy1 Hy2.
    destruct (in_dec dqaddr_eq_dec d1 C) as [Hd1|Hd1], (in_dec dqaddr_eq_dec d2 C) as [Hd2|Hd2].
    + eauto.
    + destruct (Hout d2 Hd2) as [E _]. rewrite E in Hy2.
      destruct (Hsep d2 y Hd2 Hy2) as [H1 H2].
      destruct (Horig d1 y Hd1 Hy1) as [Hi|(d0 & Hd0 & Hi)]; [tauto|].
      exfalso. exact (H1 d0 Hd0 Hi).
    + destruct (Hout d1 Hd1) as [E _]. rewrite E in Hy1.
      destruct (Hsep d1 y Hd1 Hy1) as [H1 H2].
      destruct (Horig d2 y Hd2 Hy2) as [Hi|(d0 & Hd0 & Hi)]; [tauto|].
      exfalso. exact (H1 d0 Hd0 Hi).
    + destruct (Hout d1 Hd1) as [E1 _], (Hout d2 Hd2) as [E2 _]. rewrite E1 in Hy1. rewrite E2 in Hy2.
      exact (wf_disj _ _ Hwf _ _ _ Hy1 Hy2).
  - intros y Hy.
    destruct (in_dec Nat.eq_dec y Tnew) as [Ht|Ht]; [apply Hfree; auto|].
    destruct (Exists_dec (fun d => In y (L d)) C (fun d => in_dec Nat.eq_dec y (L d))) as [He|He].
    + apply Exists_exists in He. apply Hfree; auto.
    + assert (HnC : forall d, In d C -> ~ In y (L d)).
      { intros d Hd Hi. apply He, Exists_exists. eauto. }
      rewrite Hframe by assumption. apply (wf_free _ _ Hwf).
      intros d. destruct (in_dec dqaddr_eq_dec d C) as [Hd|Hd]; [auto|].
      destruct (Hout d Hd) as [E _]. rewrite <- E. apply Hy.
  - intros d y Hy. rewrite Hprio.
    destruct (in_dec dqaddr_eq_dec d C) as [Hd|Hd]; [eauto|].
    destruct (Hout d Hd) as [E _]. rewrite E in Hy. exact (wf_prio _ _ Hwf _ _ Hy).
Qed.

Lemma wf_enqueue s s' L d t l' :
  wf s L -> (forall d0, ~ In t (L d0)) -> deque_for (fst d) (prio (tasks s t)) = d ->
  rep (tasks s') (dq s' d) l' -> NoDup l' -> (forall y, In y l' <-> y = t \/ In y (L d)) ->
  (forall d', d' <> d -> dq s' d' = dq s d') ->
  (forall y, y <> t -> ~ In y (L d) -> tasks s' y = tasks s y) ->
  (forall y, prio (tasks s' y) = prio (tasks s y)) ->
  wf s' (Lset L d l').
Proof.
  intros Hwf Ht Hd Hr Hnd Hin Hdq Hfr Hpr.
  apply (wf_step s s' L _ [d] [t] Hwf).
  - intros d0 [<-|[]]. rewrite Lset_same. auto.
  - intros d0 Hd0. rewrite Lset_other by (intro; subst; apply Hd0; now left). split; [reflexivity|].
    apply Hdq. intro; subst; apply Hd0; now left.
  - intros y Hy Hyt. apply Hfr; [intro; subst; apply Hyt; now left|apply Hy; now left].
  - exact Hpr.
  - intros d0 y [<-|[]] Hy. rewrite Lset_same in Hy. apply Hin in Hy as [->|Hy]; [left; now left|].
    right. exists d. split; [now left|exact Hy].
  - intros d1 d2 y [<-|[]] [<-|[]] _ _. reflexivity.
  - intros y Hy Hc. exfalso. apply (Hy d). rewrite Lset_same. apply Hin.
    destruct Hc as [(d0 & [<-|[]] & Hi)|[<-|[]]]; [right; exact Hi|left; reflexivity].
  - intros d0 y [<-|[]] Hy. rewrite Lset_same in Hy. apply Hin in Hy as [->|Hy]; [exact Hd|].
    exact (wf_prio _ _ Hwf _ _ Hy).
  - intros y [<-|[]]. exact Ht.
Qed.

Lemma wf_dequeue s s' L d l' :
  wf s L -> rep (tasks s') (dq s' d) l' -> NoDup l' -> (forall y, In y l' -> In y (L d)) ->
  (forall y, In y (L d) -> ~ In y l' -> next (tasks s' y) = None /\ prev (tasks s' y) = None) ->
  (forall d', d' <> d -> dq s' d' = dq s d') ->
  (forall y, ~ In y (L d) -> tasks s' y = tasks s y) ->
  (forall y, prio (tasks s' y) = prio (tasks s y)) ->
  wf s' (Lset L d l').
Proof.
  intros Hwf Hr Hnd Hsub Hfree Hdq Hfr Hpr.
  apply (wf_step s s' L _ [d] [] Hwf).
  - intros d0 [<-|[]]. rewrite Lset_same. auto.
  - intros d0 Hd0. rewrite Lset_other by (intro; subst; apply Hd0; now left). split; [reflexivity|].
    apply Hdq. intro; subst; apply Hd0; now left.
  - intros y Hy _. apply Hfr, Hy. now left.
  - exact Hpr.
  - intros d0 y [<-|[]] Hy. rewrite Lset_same in Hy. right. exists d. split; [now left|auto].
  - intros d1 d2 y [<-|[]] [<-|[]] _ _. reflexivity.
  - intros y Hy [(d0 & [<-|[]] & Hi)|[]]. apply Hfree; [exact Hi|].
    specialize (Hy d). rewrite Lset_same in Hy. exact Hy.
  - intros d0 y [<-|[]] Hy. rewrite Lset_same in Hy. exact (wf_prio _ _ Hwf _ _ (Hsub _ Hy)).
  - intros y [].
Qed.

Lemma wf_move s s' L dst src :
  wf s L -> dst <> src -> snd dst = snd src ->
  rep (tasks s') (dq s' dst) (L src ++ L dst) -> rep (tasks s') (dq s' src) [] ->
  (forall d', d' <> dst -> d' <> src -> dq s' d' = dq s d') ->
  (forall y, ~ In y (L src) -> ~ In y (L dst) -> tasks s' y = tasks s y) ->
  (forall y, prio (tasks s' y) = prio (tasks s y)) ->
  wf s' (Lset (Lset L dst (L src ++ L dst)) src []).
Proof.
  intros Hwf Hne Hw Hrd Hrs Hdq Hfr Hpr.
  assert (EL_dst : Lset (Lset L dst (L src ++ L dst)) src [] dst = L src ++ L dst)
    by (rewrite Lset_other by exact Hne; apply Lset_same).
  assert (EL_src : Lset (Lset L dst (L src ++ L dst)) src [] src = []) by apply Lset_same.
  assert (Hdisj : forall y, In y (L src) -> In y (L dst) -> False).
  { intros y H1 H2. apply Hne. symmetry. exact (wf_disj _ _ Hwf _ _ _ H1 H2). }
  apply (wf_step s s' L _ [dst; src] [] Hwf).
  - intros d0 [<-|[<-|[]]].
    + rewrite EL_dst. split; [exact Hrd|].
      apply NoDup_app; [apply (wf_nodup _ _ Hwf)|apply (wf_nodup _ _ Hwf)|exact Hdisj].
    + rewrite EL_src. split; [exact Hrs|constructor].
  - intros d0 Hd0. simpl in Hd0.
    rewrite !Lset_other by (intro; subst; tauto). split; [reflexivity|].
    apply Hdq; intro; subst; tauto.
  - intros y Hy _. apply Hfr; apply Hy; simpl; auto.
  - exact Hpr.
  - intros d0 y [<-|[<-|[]]] Hy.
    + rewrite EL_dst in Hy. right. apply in_app_iff in Hy as [Hy|Hy].
      * exists src. split; [simpl; auto|exact Hy].
      * exists dst. split; [simpl; auto|exact Hy].
    + rewrite EL_src in Hy. simpl in Hy. tauto.
  - intros d1 d2 y [<-|[<-|[]]] [<-|[<-|[]]] H1 H2; try reflexivity;
      rewrite ?EL_src in H1; rewrite ?EL_src in H2; simpl in H1, H2; tauto.
  - intros y Hy [(d0 & [<-|[<-|[]]] & Hi)|[]]; exfalso; apply (Hy dst); rewrite EL_dst;
      apply in_or_app; auto.
  - intros d0 y [<-|[<-|[]]] Hy.
    + rewrite EL_dst in Hy. apply in_app_iff in Hy as [Hy|Hy]; [|exact (wf_prio _ _ Hwf _ _ Hy)].
      pose proof (wf_prio _ _ Hwf _ _ Hy) as Hp.
      destruct dst as [qd wd], src as [qs ws]. simpl in *. subst wd.
      unfold deque_for in *. injection Hp as Hp. rewrite Hp. reflexivity.
    + rewrite EL_src in Hy. simpl in Hy. tauto.
  - intros y [].
Qed.

Lemma unlink_frame s L d t :
  wf s L -> (forall d0, ~ In t (L d0)) ->
  rep (tasks (set_prev (set_next s t None) t None)) (dq (set_prev (set_next s t None) t None) d) (L d).
Proof.
  intros Hwf Ht. eapply dseg_frame; [|apply (wf_rep _ _ Hwf)].
  intros y Hy. assert (y <> t) by (intro; subst; exact (Ht d Hy)). simpl. hsimpl. reflexivity.
Qed.

Lemma op_push_wf s L q t :
  wf s L -> (forall d, ~ In t (L d)) ->
  exists s', exec_op (OpPush q t) s = Some (None, s') /\ wf s' (abs_op s (OpPush q t) L).
Proof.
  intros Hwf Ht.
  pose proof (rep_head_neq _ _ _ _ (wf_rep _ _ Hwf (q, High)) (Ht _)) as EhH.
  pose proof (rep_head_neq _ _ _ _ (wf_rep _ _ Hwf (q, Low)) (Ht _)) as EhL.
  set (d := deque_for q (prio (tasks s t))).
  destruct (deque_push_run (set_prev (set_next s t None) t None) d t (L d)
              (unlink_frame s L d t Hwf Ht) (wf_nodup _ _ Hwf d) (Ht d))
    as (s' & Hrun & Hr & Hdq & Hfr & Hpr); [simpl; hsimpl; reflexivity..|].
  exists s'. split.
  - unfold exec_op, dart_tasking_taskqueue_push. mrun. rewrite EhH, EhL. mrun.
    unfold d in Hrun. rewrite Hrun. reflexivity.
  - apply (wf_enqueue s s' L d t _ Hwf Ht).
    + unfold d, deque_for. reflexivity.
    + exact Hr.
    + constructor; [apply Ht|apply (wf_nodup _ _ Hwf)].
    + intros y. simpl. split; intros [H|H]; auto.
    + intros d' Hd'. rewrite Hdq by exact Hd'. reflexivity.
    + intros y Hy Hy'. rewrite Hfr by assumption. simpl. hsimpl. reflexivity.
    + intros y. rewrite Hpr. simpl. hsimpl. reflexivity.
Qed.

Lemma insert_list_perm pos t l : Permutation (t :: l) (insert_list pos t l).
Proof.
  unfold insert_list. destruct pos as [|p], l as [|x l]; try reflexivity.
  apply Permutation_trans with (t :: (firstn (S (S p)) (x :: l) ++ skipn (S (S p)) (x :: l))).
  - rewrite firstn_skipn. reflexivity.
  - apply Permutation_middle.
Qed.

Lemma op_pushback_wf s L q t :
  wf s L -> (forall d, ~ In t (L d)) ->
  exists s', exec_op (OpPushback q t) s = Some (None, s') /\ wf s' (abs_op s (OpPushback q t) L).
Proof.
  intros Hwf Ht.
  set (d := deque_for q (prio (tasks s t))).
  destruct (deque_pushback_run (set_prev (set_next s t None) t None) d t (L d)
              (unlink_frame s L d t Hwf Ht) (wf_nodup _ _ Hwf d) (Ht d))
    as (s' & Hrun & Hr & Hdq & Hfr & Hpr); [simpl; hsimpl; reflexivity..|].
  exists s'. split.
  - unfold exec_op, dart_tasking_taskqueue_pushback. mrun.
    unfold d in Hrun. rewrite Hrun. reflexivity.
  - apply (wf_enqueue s s' L d t _ Hwf Ht).
    + unfold d, deque_for. reflexivity.
    + exact Hr.
    + apply NoDup_app; [apply (wf_nodup _ _ Hwf)|constructor; [intros []|constructor]|].
      intros y Hy [<-|[]]. exact (Ht d Hy).
    + intros y. rewrite in_app_iff. simpl. intuition (subst; auto).
    + intros d' Hd'. rewrite Hdq by exact Hd'. reflexivity.
    + intros y Hy Hy'. rewrite Hfr by assumption. simpl. hsimpl. reflexivity.
    + intros y. rewrite Hpr. simpl. hsimpl. reflexivity.
Qed.

Lemma op_insert_wf s L q t pos :
  wf s L -> (forall d, ~ In t (L d)) ->
  exists s', exec_op (OpInsert q t pos) s = Some (None, s') /\ wf s' (abs_op s (OpInsert q t pos) L).
Proof.
  intros Hwf Ht.
  set (d := deque_for q (prio (tasks s t))).
  destruct (deque_insert_run (set_prev (set_next s t None) t None) d t pos (L d)
              (unlink_frame s L d t Hwf Ht) (wf_nodup _ _ Hwf d) (Ht d))
    as (s' & Hrun & Hr & Hdq & Hfr & Hpr); [simpl; hsimpl; reflexivity..|].
  exists s'. split.
  - unfold exec_op, dart_tasking_taskqueue_insert. mrun.
    unfold d in Hrun. rewrite Hrun. reflexivity.
  - pose proof (insert_list_perm pos t (L d)) as Hperm.
    apply (wf_enqueue s s' L d t _ Hwf Ht).
    + unfold d, deque_for. reflexivity.
    + exact Hr.
    + apply (Permutation_NoDup Hperm). constructor; [apply Ht|apply (wf_nodup _ _ Hwf)].
    + intros y. split; intros Hy.
      * apply (Permutation_in _ (Permutation_sym Hperm)) in Hy. destruct Hy; auto.
      * apply (Permutation_in _ Hperm). destruct Hy as [->|Hy]; [left|right]; auto.
    + intros d' Hd'. rewrite Hdq by exact Hd'. reflexivity.
    + intros y Hy Hy'. rewrite Hfr by assumption. simpl. hsimpl. reflexivity.
    + intros y. rewrite Hpr. simpl. hsimpl. reflexivity.
Qed.

Lemma removelast_split (l : list nat) : l <> [] -> l = removelast l ++ [last l 0].
Proof. intros Hne. apply app_removelast_last, Hne. Qed.

Lemma op_pop_wf s L q :
  wf s L ->
  exists s', exec_op (OpPop q) s =
             Some (match L (q, High) with [] => hd_error (L (q, Low)) | x :: _ => Some x end, s') /\
             wf s' (abs_op s (OpPop q) L).
Proof.
  intros Hwf.
  destruct (deque_pop_run s (q, High) (L (q, High)) (wf_rep _ _ Hwf _) (wf_nodup _ _ Hwf _))
    as (s1 & Hrun1 & Hr1 & Hdq1 & Hfr1 & Hpr1 & Hfree1).
  pose proof (wf_nodup _ _ Hwf (q, High)) as Hnd.
  assert (Hwf1 : wf s1 (Lset L (q, High) (tl (L (q, High))))).
  { apply (wf_dequeue s s1 L _ _ Hwf Hr1).
    - destruct (L (q, High)); [constructor|]. simpl. apply NoDup_cons_iff in Hnd. tauto.
    - destruct (L (q, High)); simpl; tauto.
    - intros y Hy Hy'. apply Hfree1. destruct (L (q, High)) as [|x l]; [destruct Hy|].
      destruct Hy as [->|Hy]; [reflexivity|contradiction].
    - exact Hdq1.
    - exact Hfr1.
    - exact Hpr1. }
  unfold exec_op, abs_op, dart_tasking_taskqueue_pop.
  destruct (L (q, High)) as [|x lh] eqn:EH.
  - apply (wf_ext _ _ L) in Hwf1;
      [|intros d; destruct (dqaddr_eq_dec d (q, High)) as [->|Hd];
        [rewrite Lset_same; simpl; exact EH|symmetry; apply Lset_other, Hd]].
    destruct (deque_pop_run s1 (q, Low) (L (q, Low)) (wf_rep _ _ Hwf1 _) (wf_nodup _ _ Hwf1 _))
      as (s2 & Hrun2 & Hr2 & Hdq2 & Hfr2 & Hpr2 & Hfree2).
    exists s2. split.
    + unfold bind. rewrite Hrun1. simpl. exact Hrun2.
    + pose proof (wf_nodup _ _ Hwf1 (q, Low)) as Hnd2.
      apply (wf_dequeue s1 s2 L _ _ Hwf1 Hr2).
      * destruct (L (q, Low)); [constructor|]. simpl. apply NoDup_cons_iff in Hnd2. tauto.
      * destruct (L (q, Low)); simpl; tauto.
      * intros y Hy Hy'. apply Hfree2. destruct (L (q, Low)) as [|x l]; [destruct Hy|].
        destruct Hy as [->|Hy]; [reflexivity|contradiction].
      * exact Hdq2.
      * exact Hfr2.
      * exact Hpr2.
  - exists s1. split.
    + unfold bind. rewrite Hrun1. reflexivity.
    + exact Hwf1.
Qed.

Lemma op_popback_wf s L q :
  wf s L ->
  exists s', exec_op (OpPopback q) s =
             Some (match L (q, High) with [] => last_opt (L (q, Low)) | _ :: _ => last_opt (L (q, High)) end, s') /\
             wf s' (abs_op s (OpPopback q) L).
Proof.
  intros Hwf.
  assert (Hdeq : forall s0 L0 d s1, wf s0 L0 ->
            rep (tasks s1) (dq s1 d) (removelast (L0 d)) ->
            (forall d', d' <> d -> dq s1 d' = dq s0 d') ->
            (forall y, ~ In y (L0 d) -> tasks s1 y = tasks s0 y) ->
            (forall y, prio (tasks s1 y) = prio (tasks s0 y)) ->
            (forall x, last_opt (L0 d) = Some x -> next (tasks s1 x) = None /\ prev (tasks s1 x) = None) ->
            wf s1 (Lset L0 d (removelast (L0 d)))).
  { intros s0 L0 d s1 Hw Hr Hdq Hfr Hpr Hfree.
    pose proof (wf_nodup _ _ Hw d) as Hnd.
    destruct (L0 d) as [|x l] eqn:El.
    - apply (wf_dequeue s0 s1 L0 _ _ Hw Hr); rewrite ?El;
        [constructor|intros y Hy; simpl in Hy; destruct Hy|intros y Hy; simpl in Hy; destruct Hy
        |exact Hdq|exact Hfr|exact Hpr].
    - assert (Hne : x :: l <> []) by discriminate.
      pose proof (removelast_split _ Hne) as Hsp.
      apply (wf_dequeue s0 s1 L0 _ _ Hw); rewrite ?El; auto.
      + rewrite Hsp in Hnd. exact (NoDup_app_remove_r _ _ Hnd).
      + intros y Hy. rewrite Hsp. apply in_or_app. now left.
      + intros y Hy Hy'. apply Hfree. rewrite Hsp in Hy. apply in_app_iff in Hy as [Hy|[<-|[]]];
          [contradiction|reflexivity]. }
  destruct (deque_popback_run s (q, High) (L (q, High)) (wf_rep _ _ Hwf _) (wf_nodup _ _ Hwf _))
    as (s1 & Hrun1 & Hr1 & Hdq1 & Hfr1 & Hpr1 & Hfree1).
  pose proof (Hdeq s L (q, High) s1 Hwf Hr1 Hdq1 Hfr1 Hpr1 Hfree1) as Hwf1.
  unfold exec_op, abs_op, dart_tasking_taskqueue_popback.
  destruct (L (q, High)) as [|x lh] eqn:EH.
  - apply (wf_ext _ _ L) in Hwf1;
      [|intros d; destruct (dqaddr_eq_dec d (q, High)) as [->|Hd];
        [rewrite Lset_same; rewrite EH; reflexivity|symmetry; apply Lset_other, Hd]].
    destruct (deque_popback_run s1 (q, Low) (L (q, Low)) (wf_rep _ _ Hwf1 _) (wf_nodup _ _ Hwf1 _))
      as (s2 & Hrun2 & Hr2 & Hdq2 & Hfr2 & Hpr2 & Hfree2).
    exists s2. split.
    + unfold bind. rewrite Hrun1. simpl. exact Hrun2.
    + exact (Hdeq s1 L (q, Low) s2 Hwf1 Hr2 Hdq2 Hfr2 Hpr2 Hfree2).
  - exists s1. split.
    + unfold bind. rewrite Hrun1. reflexivity.
    + exact Hwf1.
Qed.

Lemma op_move_wf s L dst src :
  wf s L -> dst <> src ->
  exists s', exec_op (OpMove dst src) s = Some (None, s') /\ wf s' (abs_op s (OpMove dst src) L).
Proof.
  intros Hwf Hne.
  assert (HneH : (dst, High) <> (src, High)) by congruence.
  assert (HneL : (dst, Low) <> (src, Low)) by congruence.
  destruct (deque_move_run s (dst, High) (src, High) (L (dst, High)) (L (src, High)) HneH
              (wf_rep _ _ Hwf _) (wf_rep _ _ Hwf _) (wf_nodup _ _ Hwf _) (wf_nodup _ _ Hwf _))
    as (s1 & Hrun1 & Hrd1 & Hrs1 & Hdq1 & Hfr1 & Hpr1).
  { intros y H1 H2. apply HneH. exact (wf_disj _ _ Hwf _ _ _ H2 H1). }
  pose proof (wf_move s s1 L _ _ Hwf HneH eq_refl Hrd1 Hrs1 Hdq1 Hfr1 Hpr1) as Hwf1.
  set (L1 := Lset (Lset L (dst, High) (L (src, High) ++ L (dst, High))) (src, High) []) in Hwf1.
  destruct (deque_move_run s1 (dst, Low) (src, Low) (L1 (dst, Low)) (L1 (src, Low)) HneL
              (wf_rep _ _ Hwf1 _) (wf_rep _ _ Hwf1 _) (wf_nodup _ _ Hwf1 _) (wf_nodup _ _ Hwf1 _))
    as (s2 & Hrun2 & Hrd2 & Hrs2 & Hdq2 & Hfr2 & Hpr2).
  { intros y H1 H2. apply HneL. exact (wf_disj _ _ Hwf1 _ _ _ H2 H1). }
  pose proof (wf_move s1 s2 L1 _ _ Hwf1 HneL eq_refl Hrd2 Hrs2 Hdq2 Hfr2 Hpr2) as Hwf2.
  assert (E1 : L1 (src, Low) = L (src, Low)) by (unfold L1; rewrite !Lset_other by congruence; reflexivity).
  assert (E2 : L1 (dst, Low) = L (dst, Low)) by (unfold L1; rewrite !Lset_other by congruence; reflexivity).
  rewrite E1, E2 in Hwf2.
  exists s2. split.
  - unfold exec_op, dart_tasking_taskqueue_move, bind. rewrite Hrun1, Hrun2. reflexivity.
  - exact Hwf2.
Qed.

Lemma wf_same_state s s' L :
  wf s L -> (forall d, dq s' d = dq s d) -> (forall y, tasks s' y = tasks s y) -> wf s' L.
Proof.
  intros Hwf Hdq Ht. split.
  - intros d. rewrite Hdq. eapply dseg_frame; [|apply (wf_rep _ _ Hwf)]. intros y _; apply Ht.
  - apply (wf_nodup _ _ Hwf).
  - apply (wf_disj _ _ Hwf).
  - intros x Hx. rewrite Ht. apply (wf_free _ _ Hwf _ Hx).
  - intros d x Hx. rewrite Ht. apply (wf_prio _ _ Hwf _ _ Hx).
Qed.

Lemma remove_notin t (l : list nat) : ~ In t l -> remove Nat.eq_dec t l = l.
Proof. apply notin_remove. Qed.

Lemma remove_mid t (l1 l2 : list nat) :
  ~ In t l1 -> ~ In t l2 -> remove Nat.eq_dec t (l1 ++ t :: l2) = l1 ++ l2.
Proof.
  intros H1 H2. rewrite remove_app. simpl. destruct (Nat.eq_dec t t) as [_|]; [|congruence].
  rewrite !notin_remove; auto.
Qed.

Lemma op_remove_queued_wf s L q w t :
  wf s L -> In t (L (q, w)) ->
  exists s', exec_op (OpRemove q t) s = Some (None, s') /\ wf s' (abs_op s (OpRemove q t) L).
Proof.
  intros Hwf Hin.
  destruct (in_split _ _ Hin) as (l1 & l2 & EL).
  destruct (queue_remove_run s L q w t l1 l2 Hwf EL)
    as (s' & Hrun & Hr & Hdq & Hfr & Hpr & Hn & Hp).
  pose proof (wf_nodup _ _ Hwf (q, w)) as Hnd. rewrite EL in Hnd.
  apply NoDup_remove in Hnd as [Hnd Ht]. rewrite in_app_iff in Ht.
  exists s'. split.
  - unfold exec_op, bind. rewrite Hrun. reflexivity.
  - assert (Hwf' : wf s' (Lset L (q, w) (l1 ++ l2))).
    { apply (wf_dequeue s s' L _ _ Hwf Hr Hnd).
      - intros y Hy. rewrite EL. apply in_app_iff in Hy as [Hy|Hy]; apply in_or_app; simpl; auto.
      - intros y Hy Hy'. rewrite EL in Hy. apply in_app_iff in Hy as [Hy|[<-|Hy]];
          [exfalso; apply Hy'; apply in_or_app; auto|auto|exfalso; apply Hy'; apply in_or_app; auto].
      - exact Hdq.
      - intros y Hy. apply Hfr. rewrite <- EL. exact Hy.
      - exact Hpr. }
    assert (Hno : ~ In t (L (q, other w))).
    { intros Hi. assert (Hx : (q, other w) = (q, w)) by exact (wf_disj _ _ Hwf _ _ t Hi Hin).
      destruct w; discriminate. }
    apply (wf_ext _ _ _ Hwf'). intros d. simpl.
    destruct (dqaddr_eq_dec d (q, Low)) as [->|HdL].
    + rewrite Lset_same. destruct w.
      * rewrite Lset_other by discriminate. apply remove_notin, Hno.
      * rewrite Lset_same, EL. apply remove_mid; tauto.
    + rewrite Lset_other by exact HdL.
      destruct (dqaddr_eq_dec d (q, High)) as [->|HdH].
      * rewrite Lset_same. destruct w.
        -- rewrite Lset_same, EL. apply remove_mid; tauto.
        -- rewrite Lset_other by discriminate. apply remove_notin, Hno.
      * rewrite !Lset_other by (destruct w; assumption). reflexivity.
Qed.

Lemma op_remove_free_wf s L q t :
  wf s L -> (forall d, ~ In t (L d)) ->
  exists s', exec_op (OpRemove q t) s = Some (None, s') /\ wf s' (abs_op s (OpRemove q t) L).
Proof.
  intros Hwf Hf.
  destruct (queue_remove_free s L q t Hwf Hf) as (s' & Hrun & Hdq & Ht).
  exists s'. split.
  - unfold exec_op, bind. rewrite Hrun. reflexivity.
  - apply (wf_ext _ L); [exact (wf_same_state s s' L Hwf Hdq Ht)|].
    intros d. simpl.
    destruct (dqaddr_eq_dec d (q, Low)) as [->|H1];
      [rewrite Lset_same; apply remove_notin, Hf|rewrite Lset_other by exact H1].
    destruct (dqaddr_eq_dec d (q, High)) as [->|H2];
      [rewrite Lset_same; apply remove_notin, Hf|rewrite Lset_other by exact H2; reflexivity].
Qed.

Lemma op_wf s L o :
  wf s L -> pre o L -> exists r s', exec_op o s = Some (r, s') /\ wf s' (abs_op s o L).
Proof.
  intros Hwf Hpre. destruct o as [q t|q t|q t pos|q|q|dst src|q t]; simpl in Hpre.
  - destruct (op_push_wf s L q t Hwf Hpre) as (s' & H1 & H2); eauto.
  - destruct (op_pushback_wf s L q t Hwf Hpre) as (s' & H1 & H2); eauto.
  - destruct (op_insert_wf s L q t pos Hwf Hpre) as (s' & H1 & H2); eauto.
  - destruct (op_pop_wf s L q Hwf) as (s' & H1 & H2); eauto.
  - destruct (op_popback_wf s L q Hwf) as (s' & H1 & H2); eauto.
  - destruct (op_move_wf s L dst src Hwf Hpre) as (s' & H1 & H2); eauto.
  - destruct Hpre as [Hi|[Hi|Hf]].
    + destruct (op_remove_queued_wf s L q High t Hwf Hi) as (s' & H1 & H2); eauto.
    + destruct (op_remove_queued_wf s L q Low t Hwf Hi) as (s' & H1 & H2); eauto.
    + destruct (op_remove_free_wf s L q t Hwf Hf) as (s' & H1 & H2); eauto.
Qed.

Lemma init_wf prio_of : wf (init_state prio_of) (fun _ => []).
Proof.
  split.
  - intros [q w]. unfold rep, dq. destruct w; simpl; split; reflexivity.
  - intros _. constructor.
  - intros d1 d2 x [].
  - intros x _. simpl. split; reflexivity.
  - intros d x [].
Qed.

Lemma reach_wf prio_of s L : reach prio_of s L -> wf s L.
Proof.
  induction 1 as [|s L o r s' Hr IH Hpre Hex].
  - apply init_wf.
  - destruct (op_wf s L o IH Hpre) as (r' & s'' & Hex' & Hwf).
    rewrite Hex in Hex'. injection Hex' as <- <-. exact Hwf.
Qed.

(** Claim C3: in every state reached from the empty queues by operations
    [push], [pushback], [pop], [popback], [insert], [move] and [remove]
    (each used within its contract), every deque has [head = NULL] exactly
    when [tail = NULL]; and every such operation succeeds and leads to
    another reachable state. *)
Theorem taskqueue_head_null_iff_tail_null prio_of s L :
  reach prio_of s L ->
  (forall d, head (dq s d) = None <-> tail (dq s d) = None) /\
  (forall o, pre o L -> exists r s', exec_op o s = Some (r, s') /\ reach prio_of s' (abs_op s o L)).
Proof.
  intros Hr. pose proof (reach_wf _ _ _ Hr) as Hwf. split.
  - intros d. exact (rep_head_tail _ _ _ (wf_rep _ _ Hwf d)).
  - intros o Hpre. destruct (op_wf s L o Hwf Hpre) as (r & s' & Hex & _).
    exists r, s'. split; [exact Hex|]. exact (reach_step _ _ _ _ _ _ Hr Hpre Hex).
Qed.

Lemma high_deque_prio s L q x :
  wf s L -> In x (L (q, High)) \/ In x (L (q, Low)) ->
  (prio_is_high (prio (tasks s x)) = true <-> In x (L (q, High))).
Proof.
  intros Hwf Hx. split.
  - intros Hp. destruct Hx as [Hx|Hx]; [exact Hx|].
    pose proof (wf_prio _ _ Hwf _ _ Hx) as H. unfold deque_for in H. simpl in H.
    rewrite Hp in H. discriminate.
  - intros Hi. pose proof (wf_prio _ _ Hwf _ _ Hi) as H. unfold deque_for in H. simpl in H.
    destruct (prio_is_high (prio (tasks s x))); [reflexivity|discriminate].
Qed.

(** Claim C4: [pop] and [popback] on a queue prefer the high-priority
    deque: a low-priority task is returned only when the high-priority deque
    is empty, and a high-priority task is returned whenever the queue holds
    one. *)
Theorem taskqueue_pop_prefers_high prio_of s L q :
  reach prio_of s L ->
  ((forall r s', dart_tasking_taskqueue_pop q s = Some (r, s') ->
     (forall y, r = Some y -> prio_is_high (prio (tasks s y)) = false ->
                L (q, High) = [] /\ head (dq s (q, High)) = None) /\
     ((exists x, (In x (L (q, High)) \/ In x (L (q, Low))) /\ prio_is_high (prio (tasks s x)) = true) ->
      exists y, r = Some y /\ prio_is_high (prio (tasks s y)) = true)) /\
   (forall r s', dart_tasking_taskqueue_popback q s = Some (r, s') ->
     (forall y, r = Some y -> prio_is_high (prio (tasks s y)) = false ->
                L (q, High) = [] /\ head (dq s (q, High)) = None) /\
     ((exists x, (In x (L (q, High)) \/ In x (L (q, Low))) /\ prio_is_high (prio (tasks s x)) = true) ->
      exists y, r = Some y /\ prio_is_high (prio (tasks s y)) = true))).
Proof.
  intros Hr. pose proof (reach_wf _ _ _ Hr) as Hwf.
  assert (Hhi : forall y, In y (L (q, High)) -> prio_is_high (prio (tasks s y)) = true).
  { intros y Hy. apply (high_deque_prio s L q y Hwf); auto. }
  assert (Hnil : L (q, High) = [] -> head (dq s (q, High)) = None).
  { intros E. pose proof (wf_rep _ _ Hwf (q, High)) as H. rewrite E in H. exact (proj1 (proj1 (rep_nil _ _) H)). }
  assert (Hex : (exists x, (In x (L (q, High)) \/ In x (L (q, Low))) /\ prio_is_high (prio (tasks s x)) = true) ->
                L (q, High) <> []).
  { intros (x & Hx & Hp) E. apply (high_deque_prio s L q x Hwf Hx) in Hp. rewrite E in Hp. destruct Hp. }
  split.
  - intros r s' Hpop. destruct (op_pop_wf s L q Hwf) as (s'' & Hrun & _).
    change (dart_tasking_taskqueue_pop q s =
            Some (match L (q, High) with [] => hd_error (L (q, Low)) | x :: _ => Some x end, s'')) in Hrun.
    rewrite Hpop in Hrun. injection Hrun as Er _. subst r.
    split.
    + intros y Ey Hy. destruct (L (q, High)) as [|x l] eqn:E; [auto|].
      injection Ey as <-. rewrite Hhi in Hy; [discriminate|now left].
    + intros H. apply Hex in H. destruct (L (q, High)) as [|x l] eqn:E; [congruence|].
      exists x. split; [reflexivity|]. apply Hhi. now left.
  - intros r s' Hpop. destruct (op_popback_wf s L q Hwf) as (s'' & Hrun & _).
    change (dart_tasking_taskqueue_popback q s =
            Some (match L (q, High) with [] => last_opt (L (q, Low)) | _ :: _ => last_opt (L (q, High)) end, s'')) in Hrun.
    rewrite Hpop in Hrun. injection Hrun as Er _. subst r.
    split.
    + intros y Ey Hy. destruct (L (q, High)) as [|x l] eqn:E; [auto|].
      injection Ey as <-. rewrite Hhi in Hy; [discriminate|]. exact (last_In (x :: l) ltac:(discriminate)).
    + intros H. apply Hex in H. destruct (L (q, High)) as [|x l] eqn:E; [congruence|].
      eexists. split; [reflexivity|]. apply Hhi. exact (last_In (x :: l) ltac:(discriminate)).
Qed.

Lemma example_reach : reach example_prio example_state example_L.
Proof.
  eapply reach_step; [eapply reach_step; [apply reach_init| |reflexivity]| |reflexivity].
  - intros d []. 
  - intros d. unfold example_L1, abs_op, Lset. simpl.
    destruct (dq_eqb d _); simpl; [intros [H|[]]; discriminate|intros []].
Qed.

Lemma taskqueue_pop_prefers_high_witness :
  reach example_prio example_state example_L /\
  example_L (0, High) = [1] /\ example_L (0, Low) = [2] /\
  dart_tasking_taskqueue_pop 0 example_state = Some (Some 1, after (OpPop 0) example_state) /\
  ((forall r s', dart_tasking_taskqueue_pop 0 example_state = Some (r, s') ->
     (forall y, r = Some y -> prio_is_high (prio (tasks example_state y)) = false ->
                example_L (0, High) = [] /\ head (dq example_state (0, High)) = None) /\
     ((exists x, (In x (example_L (0, High)) \/ In x (example_L (0, Low))) /\
                 prio_is_high (prio (tasks example_state x)) = true) ->
      exists y, r = Some y /\ prio_is_high (prio (tasks example_state y)) = true)) /\
   (forall r s', dart_tasking_taskqueue_popback 0 example_state = Some (r, s') ->
     (forall y, r = Some y -> prio_is_high (prio (tasks example_state y)) = false ->
                example_L (0, High) = [] /\ head (dq example_state (0, High)) = None) /\
     ((exists x, (In x (example_L (0, High)) \/ In x (example_L (0, Low))) /\
                 prio_is_high (prio (tasks example_state x)) = true) ->
      exists y, r = Some y /\ prio_is_high (prio (tasks example_state y)) = true))).
Proof.
  split; [exact example_reach|].
  split; [reflexivity|]. split; [reflexivity|]. split; [reflexivity|].
  exact (taskqueue_pop_prefers_high example_prio example_state example_L 0 example_reach).
Defined.

Lemma taskqueue_head_null_iff_tail_null_witness :
  reach example_prio example_state example_L /\
  (forall d, head (dq example_state d) = None <-> tail (dq example_state d) = None) /\
  (forall o, pre o example_L -> exists r s', exec_op o example_state = Some (r, s') /\
             reach example_prio s' (abs_op example_state o example_L)).
Proof.
  split; [exact example_reach|].
  exact (taskqueue_head_null_iff_tail_null example_prio example_state example_L example_reach).
Defined.

Lemma exec_unit_inv (m : M unit) s r s' : (m ;;; ret (@None nat)) s = Some (r, s') -> m s = Some (tt, s').
Proof.
  unfold bind, ret. destruct (m s) as [[[] s1]|]; [|discriminate]. now intros [= _ ->].
Qed.

Lemma insert_list_split pos t (l : list nat) : 0 < pos ->
  exists l1 l2, insert_list pos t l = l1 ++ t :: l2 /\ l1 ++ l2 = l /\
                length l1 = Nat.min (S pos) (length l).
Proof.
  intros Hp. exists (firstn (S pos) l), (skipn (S pos) l). split; [|split].
  - unfold insert_list. destruct pos as [|p]; [lia|]. destruct l; reflexivity.
  - apply firstn_skipn.
  - apply length_firstn.
Qed.

(** Claim C1, what the code does: [requeue_task] puts the task at the head of its
    deque when [delay = 0], at its tail when [delay < 0], and when
    [delay > 0] right after the first [min (delay + 1) n] of the [n] tasks
    of the deque, so at index [delay + 1] (or at the tail of a shorter
    deque); the queue stays well formed. *)
Theorem requeue_task_position prio_of th s L t :
  reach prio_of s L -> (forall d, ~ In t (L d)) ->
  let d := deque_for (thread_queue th) (prio (tasks s t)) in
  exists s' l', requeue_task th t s = Some (tt, s') /\ reach prio_of s' (Lset L d l') /\
    ((delay th = 0)%Z -> l' = t :: L d) /\
    ((delay th < 0)%Z -> l' = L d ++ [t]) /\
    ((0 < delay th)%Z -> exists l1 l2, l' = l1 ++ t :: l2 /\ l1 ++ l2 = L d /\
                      length l1 = Nat.min (S (Z.to_nat (delay th))) (length (L d))).
Proof.
  intros Hr Ht d. pose proof (reach_wf _ _ _ Hr) as Hwf.
  unfold requeue_task.
  destruct (Z.eqb_spec (delay th) 0) as [E0|E0]; [|destruct (Z.ltb_spec 0 (delay th)) as [Ep|Ep]].
  - destruct (op_wf s L (OpPush (thread_queue th) t) Hwf Ht) as (r & s' & Hex & _).
    exists s', (t :: L d). split; [exact (exec_unit_inv _ _ _ _ Hex)|].
    split; [exact (reach_step _ _ _ (OpPush _ t) _ _ Hr Ht Hex)|]. split; [reflexivity|]. split; lia.
  - destruct (op_wf s L (OpInsert (thread_queue th) t (Z.to_nat (delay th))) Hwf Ht) as (r & s' & Hex & _).
    exists s', (insert_list (Z.to_nat (delay th)) t (L d)). split; [exact (exec_unit_inv _ _ _ _ Hex)|].
    split; [exact (reach_step _ _ _ (OpInsert _ t _) _ _ Hr Ht Hex)|]. split; [lia|]. split; [lia|].
    intros _. apply insert_list_split. lia.
  - destruct (op_wf s L (OpPushback (thread_queue th) t) Hwf Ht) as (r & s' & Hex & _).
    exists s', (L d ++ [t]). split; [exact (exec_unit_inv _ _ _ _ Hex)|].
    split; [exact (reach_step _ _ _ (OpPushback _ t) _ _ Hr Ht Hex)|]. split; [lia|]. split; [reflexivity|lia].
Qed.

Lemma cex_reach : reach cex_prio cex_state cex_L.
Proof.
  eapply reach_step; [eapply reach_step; [eapply reach_step; [apply reach_init| |reflexivity]| |reflexivity]| |reflexivity].
  - intros d [].
  - intros d. unfold cex_L1, abs_op, Lset. simpl. destruct (dq_eqb d _); simpl; [intros [H|[]]; discriminate|intros []].
  - intros d. unfold cex_L2, cex_L1, abs_op, Lset. simpl.
    destruct (dq_eqb d _); simpl; [intros [H|[H|[]]]; discriminate|intros []].
Qed.

(** Counterexample to claim C1 as stated: with [delay = 1] the task [4]
    requeued into the deque [1; 2; 3] lands at index 2, not 1. *)
Lemma requeue_task_counterexample :
  reach cex_prio cex_state cex_L /\ cex_L (0, Low) = [1; 2; 3] /\
  exists s', requeue_task (mk_thread 0 1) 4 cex_state = Some (tt, s') /\
    follow 10 s' (head (dq s' (0, Low))) = [1; 2; 4; 3] /\
    nth_error (follow 10 s' (head (dq s' (0, Low)))) 1 <> Some 4.
Proof.
  split; [exact cex_reach|]. split; [vm_compute; reflexivity|].
  exists (match requeue_task (mk_thread 0 1) 4 cex_state with
          | Some (_, s') => s' | None => cex_state end).
  split; [vm_compute; reflexivity|]. split; [vm_compute; reflexivity|].
  vm_compute. discriminate.
Qed.

Lemma requeue_task_position_witness :
  reach cex_prio cex_state cex_L /\ (forall d, ~ In 4 (cex_L d)) /\
  let d := deque_for (thread_queue (mk_thread 0 1)) (prio (tasks cex_state 4)) in
  exists s' l', requeue_task (mk_thread 0 1) 4 cex_state = Some (tt, s') /\ reach cex_prio s' (Lset cex_L d l') /\
    ((delay (mk_thread 0 1) = 0)%Z -> l' = 4 :: cex_L d) /\
    ((delay (mk_thread 0 1) < 0)%Z -> l' = cex_L d ++ [4]) /\
    ((0 < delay (mk_thread 0 1))%Z -> exists l1 l2, l' = l1 ++ 4 :: l2 /\ l1 ++ l2 = cex_L d /\
                      length l1 = Nat.min (S (Z.to_nat (delay (mk_thread 0 1)))) (length (cex_L d))).
Proof.
  assert (H4 : forall d, ~ In 4 (cex_L d)).
  { intros d. unfold cex_L, cex_L2, cex_L1, abs_op, Lset. simpl.
    destruct (dq_eqb d _); simpl; [intros [H|[H|[H|[]]]]; discriminate|intros []]. }
  split; [exact cex_reach|]. split; [exact H4|].
  exact (requeue_task_position cex_prio (mk_thread 0 1) cex_state cex_L 4 cex_reach H4).
Defined.

End TaskQueueFacts.

(* ------------------------------------------------------------------ *)
(** ** Facts about the scheduler, contexts, pools and messages *)

Module TaskingFacts.
Import DartTypes Tasking.

Lemma create_task_spec pr s t s1 :
  create_task pr s = (t, s1) ->
  t = next_free s /\ state (task_of s1 t) = DART_TASK_NASCENT /\
  parent (task_of s1 t) = current_task s /\
  phase (task_of s1 t) = (if state_eqb (state (task_of s (current_task s))) DART_TASK_ROOT
                          then DART_PHASE (phase_current s) else DART_PHASE_ANY) /\
  flag_commtask (task_of s1 t) = false /\
  root_task s1 = root_task s /\ cancellation s1 = cancellation s /\
  phase_is_runnable s1 = phase_is_runnable s /\ queued s1 = queued s /\
  deferred s1 = deferred s /\ inlined s1 = inlined s /\ comm s1 = comm s /\
  phase_current s1 = phase_current s.
Proof.
  unfold create_task. intros E.
  destruct pr; injection E as <- <-; simpl; rewrite Nat.eqb_refl; simpl; auto 20.
Qed.

Lemma enqueue_deferred t n s :
  cancellation s = false -> state (task_of s t) = DART_TASK_CREATED ->
  unresolved_deps (task_of s t) = 0 -> parent (task_of s t) = root_task s ->
  phase (task_of s t) = DART_PHASE n -> phase_is_runnable s n = false ->
  let s' := dart__tasking__enqueue_runnable t s in
  state (task_of s' t) = DART_TASK_DEFERRED /\ deferred s' = deferred s ++ [t] /\
  queued s' = queued s /\ inlined s' = inlined s.
Proof.
  intros Hc Hs Hd Hp Hph Hr. unfold dart__tasking__enqueue_runnable.
  rewrite Hc, Hs. simpl. unfold dart_tasking_datadeps_is_runnable. rewrite Hd. simpl.
  rewrite Nat.eqb_refl. simpl. rewrite Hp, Nat.eqb_refl, Hph. simpl. rewrite Hr. simpl.
  rewrite Nat.eqb_refl. simpl. auto.
Qed.

(** Claim C10: before any worker thread has been started, [yield] (in both
    builds) returns [DART_OK] at once and leaves the scheduler state as it
    was: the caller is not suspended, no queue is touched and no remote
    progress is made. *)
Theorem yield_threads_not_running delay s :
  threads_running s = false ->
  dart__tasking__yield delay s = YReturn DART_OK s /\
  dart__tasking__yield_noctx delay s = YReturn DART_OK s.
Proof. intros H. unfold dart__tasking__yield, dart__tasking__yield_noctx. rewrite H. auto. Qed.

Lemma yield_threads_not_running_witness :
  threads_running example_sched = false /\
  dart__tasking__yield 0 example_sched = YReturn DART_OK example_sched /\
  dart__tasking__yield_noctx 0 example_sched = YReturn DART_OK example_sched.
Proof.
  split; [reflexivity | apply (yield_threads_not_running 0 example_sched); reflexivity].
Defined.

(** Claim C2, as amended: in the build with [USE_UCONTEXT], once threads
    are running, a [yield] from a task carrying [DART_TASK_INLINE] returns
    [DART_ERR_INVAL] and leaves the scheduler state unchanged when no
    cancellation has been requested; when one has, [yield] aborts the
    current task before it looks at the flag, and does not return. *)
Theorem yield_inline_inval delay s :
  threads_running s = true ->
  flag_inline (task_of s (current_task s)) = true ->
  (cancellation s = false -> dart__tasking__yield delay s = YReturn DART_ERR_INVAL s) /\
  (cancellation s = true -> dart__tasking__yield delay s = YAbort s).
Proof.
  intros Hr Hi. unfold dart__tasking__yield. rewrite Hr, Hi. simpl.
  split; intros Hc; rewrite Hc; reflexivity.
Qed.

Lemma yield_inline_inval_witness :
  threads_running (example_sched_inline false) = true /\
  flag_inline (task_of (example_sched_inline false)
                 (current_task (example_sched_inline false))) = true /\
  (cancellation (example_sched_inline false) = false ->
   dart__tasking__yield 0 (example_sched_inline false)
     = YReturn DART_ERR_INVAL (example_sched_inline false)) /\
  (cancellation (example_sched_inline false) = true ->
   dart__tasking__yield 0 (example_sched_inline false) = YAbort (example_sched_inline false)).
Proof.
  split; [reflexivity | split; [reflexivity |]].
  apply (yield_inline_inval 0 (example_sched_inline false)); reflexivity.
Defined.

(** Counterexample to claim C2 as stated: an inline task [1] running on a
    started scheduler while a cancellation is requested. Its [yield] does
    not return [DART_ERR_INVAL]: the cancellation check comes first and
    aborts the task. *)
Lemma yield_inline_counterexample :
  threads_running (example_sched_inline true) = true /\
  flag_inline (task_of (example_sched_inline true)
                 (current_task (example_sched_inline true))) = true /\
  dart__tasking__yield 0 (example_sched_inline true) = YAbort (example_sched_inline true) /\
  forall s', dart__tasking__yield 0 (example_sched_inline true) <> YReturn DART_ERR_INVAL s'.
Proof.
  split; [reflexivity|]. split; [reflexivity|]. split; [reflexivity|].
  intros s'. discriminate.
Qed.

(** Claim C5: [create_task] returns [DART_OK] in every case. While a
    cancellation is requested it returns at once and leaves the scheduler as
    it was (no task is allocated, nothing is queued). When the new task is a
    child of the root task whose phase is not yet runnable, it returns
    [DART_OK] as well, the task is left [DEFERRED] and appended to the
    deferred tasks, and nothing is queued. *)
Theorem create_task_returns_ok pr noyield has_ref nd s :
  fst (dart__tasking__create_task pr noyield has_ref nd s) = DART_OK /\
  (cancellation s = true -> dart__tasking__create_task pr noyield has_ref nd s = (DART_OK, s)) /\
  (cancellation s = false -> nd = 0 -> current_task s = root_task s ->
   state (task_of s (root_task s)) = DART_TASK_ROOT ->
   phase_is_runnable s (phase_current s) = false ->
   let '(r, s') := dart__tasking__create_task pr noyield has_ref nd s in
   r = DART_OK /\ state (task_of s' (next_free s)) = DART_TASK_DEFERRED /\
   deferred s' = deferred s ++ [next_free s] /\ queued s' = queued s /\
   inlined s' = inlined s).
Proof.
  unfold dart__tasking__create_task. split; [|split].
  - destruct (cancellation s); [reflexivity|]. destruct (create_task _ _); reflexivity.
  - intros H; rewrite H; reflexivity.
  - intros Hc Hnd Hcur Hroot Hph. subst nd. rewrite Hc.
    set (s0 := if negb (threads_running s) then start_threads s else s).
    assert (E0 : task_of s0 = task_of s /\ next_free s0 = next_free s /\
                 current_task s0 = current_task s /\ root_task s0 = root_task s /\
                 cancellation s0 = false /\ phase_current s0 = phase_current s /\
                 phase_is_runnable s0 = phase_is_runnable s /\ deferred s0 = deferred s /\
                 queued s0 = queued s /\ inlined s0 = inlined s /\ comm s0 = comm s).
    { subst s0. destruct (negb (threads_running s)); simpl; auto 20. }
    destruct E0 as (T0 & N0 & C0 & R0 & K0 & P0 & Q0 & D0 & U0 & I0 & M0).
    destruct (create_task pr s0) as [t s1] eqn:Ec.
    destruct (create_task_spec pr s0 t s1 Ec)
      as (Et & St & Pt & Ht & Ft & R1 & K1 & P1 & Q1 & D1 & U1 & I1 & M1).
    rewrite T0, C0, Hcur, Hroot in Ht. simpl in Ht. rewrite P0 in Ht.
    rewrite C0, Hcur in Pt. rewrite N0 in Et. subst t.
    set (s2 := if has_ref then _ else s1).
    set (s3 := if noyield then _ else s2).
    assert (E3 : core (task_of s3 (next_free s)) = core (task_of s1 (next_free s)) /\
                 flag_commtask (task_of s3 (next_free s)) = false /\
                 same_lists s3 s1).
    { subst s3 s2. destruct has_ref, noyield; simpl; rewrite ?Nat.eqb_refl;
        (split; [reflexivity | split; [assumption | repeat split]]). }
    destruct E3 as (Co3 & F3 & L3).
    set (s4 := set_task s3 (parent (task_of s3 (next_free s))) inc_children).
    assert (Co4 : core (task_of s4 (next_free s)) = core (task_of s3 (next_free s)) /\
                  flag_commtask (task_of s4 (next_free s)) = false).
    { subst s4. simpl. destruct (Nat.eqb _ _); auto. }
    destruct Co4 as [Co4 F4].
    set (s5 := set_task s4 (next_free s) (with_deps 0)).
    set (s6 := set_task s5 (next_free s) (with_state DART_TASK_CREATED)).
    unfold core in Co3, Co4. rewrite St, Pt, Ht in Co3. rewrite Co3 in Co4.
    injection Co4 as S4 Pa4 Ph4.
    assert (H6 : state (task_of s6 (next_free s)) = DART_TASK_CREATED /\
                 unresolved_deps (task_of s6 (next_free s)) = 0 /\
                 parent (task_of s6 (next_free s)) = root_task s /\
                 phase (task_of s6 (next_free s)) = DART_PHASE (phase_current s) /\
                 flag_commtask (task_of s6 (next_free s)) = false).
    { subst s6 s5. simpl. rewrite !Nat.eqb_refl. simpl. auto. }
    destruct H6 as (S6 & D6 & Pa6 & Ph6 & F6).
    assert (L6 : same_lists s6 s1).
    { destruct L3 as (a & b & c & d & e & f & g). unfold same_lists.
      subst s6 s5 s4. simpl. rewrite a, b, c, d, e, f, g. auto 10. }
    destruct L6 as (R6 & K6 & Q6 & D6' & U6 & I6 & M6).
    assert (Rn : dart_tasking_datadeps_is_runnable s6 (next_free s) = true)
      by (unfold dart_tasking_datadeps_is_runnable; rewrite D6; reflexivity).
    rewrite Rn.
    destruct (enqueue_deferred (next_free s) (phase_current s) s6) as (Sd & Dd & Qd & Id);
      try assumption; try congruence.
    split; [reflexivity|]. split; [exact Sd|]. split; [congruence|]. split; congruence.
Qed.

Lemma create_task_returns_ok_witness :
  cancellation example_sched = false /\ current_task example_sched = root_task example_sched /\
  state (task_of example_sched (root_task example_sched)) = DART_TASK_ROOT /\
  phase_is_runnable example_sched (phase_current example_sched) = false /\
  (fst (dart__tasking__create_task DART_PRIO_LOW false true 0 example_sched) = DART_OK /\
  (cancellation example_sched = true ->
   dart__tasking__create_task DART_PRIO_LOW false true 0 example_sched = (DART_OK, example_sched)) /\
  (cancellation example_sched = false -> 0 = 0 ->
   current_task example_sched = root_task example_sched ->
   state (task_of example_sched (root_task example_sched)) = DART_TASK_ROOT ->
   phase_is_runnable example_sched (phase_current example_sched) = false ->
   let '(r, s') := dart__tasking__create_task DART_PRIO_LOW false true 0 example_sched in
   r = DART_OK /\ state (task_of s' (next_free example_sched)) = DART_TASK_DEFERRED /\
   deferred s' = deferred example_sched ++ [next_free example_sched] /\
   queued s' = queued example_sched /\ inlined s' = inlined example_sched)).
Proof.
  split; [reflexivity|]. split; [reflexivity|]. split; [reflexivity|]. split; [reflexivity|].
  exact (create_task_returns_ok DART_PRIO_LOW false true 0 example_sched).
Defined.

End TaskingFacts.

Module ContextFacts.
Import Context.

(** Claim C6, as amended: after [context_init] the stack size is the value of
    [TASKSTACKSIZE] when it is set and 2 MiB otherwise, raised to the page
    size when it is smaller than a page; it is not rounded to a multiple of
    the page size. *)
Theorem context_init_stack_size page_size env_stack_size :
  dart__tasking__context_init page_size env_stack_size =
  Z.max (if Z.ltb (-1) env_stack_size then env_stack_size else Z.pow 2 21) page_size.
Proof.
  unfold dart__tasking__context_init, DEFAULT_TASK_STACK_SIZE.
  change (Z.shiftl 1 21) with (Z.pow 2 21).
  destruct (Z.ltb (-1) env_stack_size);
  match goal with |- (if Z.ltb ?a ?b then _ else _) = _ =>
    destruct (Z.ltb_spec a b); lia end.
Qed.

(** Counterexample to claim C6 as stated: with 4 KiB pages and
    [TASKSTACKSIZE=5000] the stack size stays 5000, which is not a multiple
    of the page size; only the memory block allocated for a context is
    padded to whole pages. *)
Lemma context_init_counterexample :
  dart__tasking__context_init 4096 5000 = 5000%Z /\
  Z.modulo (dart__tasking__context_init 4096 5000) 4096 <> 0%Z /\
  dart__tasking__context_adjust_size 4096 5000 = 8192%Z.
Proof. split; [reflexivity | split; [discriminate | reflexivity]]. Qed.

Lemma ctx_alloc_inv t s : ctx_inv s ->
  ctx_inv (snd (dart__tasking__context_allocate t s)).
Proof.
  intros H t'. simpl. destruct (H t') as [Hn Ho]. split; [exact Hn|].
  intros c' Hc. destruct (Ho c' Hc) as [E L].
  destruct (Nat.eqb_spec c' (next_ctx s)); [lia|]. split; [exact E | lia].
Qed.

(** Claim C7: a context a thread [t] obtains from [context_create] is owned
    by [t] and lies on no free list; releasing it pushes it once onto the
    free list of [t], its owner, and leaves every other thread's free list,
    the caller's included when it is another thread, as it was. Both steps
    keep the free lists consistent. *)
Theorem context_release_to_owner t s c s1 :
  ctx_inv s ->
  dart__tasking__context_create t s = (c, s1) ->
  owner s1 c = t /\ (forall t', ~ In c (ctxlist s1 t')) /\ ctx_inv s1 /\
  let s2 := dart__tasking__context_release c s1 in
  ctxlist s2 t = c :: ctxlist s1 t /\
  count_occ Nat.eq_dec (ctxlist s2 t) c = 1 /\
  (forall t', t' <> t -> ctxlist s2 t' = ctxlist s1 t') /\
  ctx_inv s2.
Proof.
  intros Hinv Hc.
  assert (Hpre : owner s1 c = t /\ (forall t', ~ In c (ctxlist s1 t')) /\ ctx_inv s1 /\
                 c < next_ctx s1).
  { unfold dart__tasking__context_create in Hc.
    destruct (ctxlist s t) as [|c0 rest] eqn:E.
    - unfold dart__tasking__context_allocate in Hc. injection Hc as <- <-. simpl.
      rewrite Nat.eqb_refl. split; [reflexivity|]. split; [|split; [|lia]].
      + intros t' Hin. destruct (Hinv t') as [_ Ho]. destruct (Ho _ Hin). lia.
      + exact (ctx_alloc_inv t s Hinv).
    - injection Hc as <- <-. simpl.
      destruct (Hinv t) as [Hn Ho]. rewrite E in Hn, Ho.
      destruct (Ho c0 (or_introl eq_refl)) as [Eo Lc].
      split; [exact Eo|]. split; [|split; [|exact Lc]].
      + intros t' Hin. destruct (Nat.eqb_spec t' t).
        * subst t'. inversion Hn; contradiction.
        * destruct (Hinv t') as [_ Ho']. destruct (Ho' _ Hin). congruence.
      + intros t'. simpl. destruct (Nat.eqb_spec t' t).
        * subst t'. inversion Hn; subst. split; [assumption|].
          intros c' Hc'. apply Ho. right. exact Hc'.
        * apply Hinv. }
  destruct Hpre as [Ho [Hn [Hi1 Hl]]].
  split; [exact Ho|]. split; [exact Hn|]. split; [exact Hi1|].
  unfold dart__tasking__context_release, ctx_push. simpl. rewrite Ho, Nat.eqb_refl.
  split; [reflexivity|]. split.
  { simpl. destruct (Nat.eq_dec c c) as [_|]; [|contradiction].
    f_equal. apply count_occ_not_In, Hn. }
  split.
  { intros t' Ht'. apply Nat.eqb_neq in Ht'. rewrite Ht'. reflexivity. }
  intros t'. simpl. destruct (Nat.eqb_spec t' t).
  - subst t'. destruct (Hi1 t) as [Hn1 Ho1]. split.
    + constructor; [apply Hn | exact Hn1].
    + intros c' [<-|Hc']; [split; [exact Ho | exact Hl] | apply Ho1, Hc'].
  - apply Hi1.
Qed.

Lemma context_release_to_owner_witness :
  ctx_inv example_ctx /\
  dart__tasking__context_create 1 example_ctx = (0, snd (dart__tasking__context_create 1 example_ctx)) /\
  let s1 := snd (dart__tasking__context_create 1 example_ctx) in
  owner s1 0 = 1 /\ (forall t', ~ In 0 (ctxlist s1 t')) /\ ctx_inv s1 /\
  let s2 := dart__tasking__context_release 0 s1 in
  ctxlist s2 1 = 0 :: ctxlist s1 1 /\
  count_occ Nat.eq_dec (ctxlist s2 1) 0 = 1 /\
  (forall t', t' <> 1 -> ctxlist s2 t' = ctxlist s1 t') /\
  ctx_inv s2.
Proof.
  assert (Hinv : ctx_inv example_ctx).
  { intros t. unfold example_ctx. simpl. destruct (Nat.eqb_spec t 1).
    - split; [repeat constructor; simpl; tauto|].
      intros c [<-|[]]. split; [congruence | lia].
    - split; [constructor | intros c []]. }
  split; [exact Hinv|]. split; [reflexivity|].
  exact (context_release_to_owner 1 example_ctx 0 _ Hinv eq_refl).
Defined.

End ContextFacts.

Module MempoolFacts.
Import Mempool.

Lemma find_in_spec ps size l p :
  find_mem_pool_in ps size l = Some p -> ps p = size /\ In p l.
Proof.
  induction l as [|q l IH]; simpl; [discriminate|].
  destruct (Nat.eqb_spec size (ps q)).
  - intros [= <-]. auto.
  - intros H. destruct (IH H). auto.
Qed.

(** Claim C8: for a copy-in dependency whose [dest] is null, preparing it
    takes a buffer from the pool whose size is the dependency's size (the
    pool found in the list when there is one, a new pool otherwise), sets
    the destructor, and the destructor returns the buffer to that same
    pool, after checking the magic word: an element whose magic word is
    wrong is refused by [return_to_mempool]. *)
Theorem copyin_buffer_same_pool elem s :
  pool_inv s -> dest elem = None ->
  (let '(elem', s1) := dart_tasking_copyin_prepare_dep elem s in
   exists p m, dest elem' = Some m /\ dtor_release_mem elem' = true /\
     find_mem_pool (dep_size elem) s1 = Some p /\ pool_size s1 p = dep_size elem /\
     (forall p', find_mem_pool (dep_size elem) s = Some p' -> p = p') /\
     (find_mem_pool (dep_size elem) s = None -> ~ In p (mem_pool s)) /\
     elem_pool s1 m = p /\ elem_magic s1 m = MEMPOOL_MAGIC_NUM /\
     exists elem'' s2,
       dart_tasking_copyin_release_mem elem' s1 = Some (elem'', s2) /\
       dest elem'' = None /\ pool_elems s2 p = m :: pool_elems s1 p /\
       (forall q, q <> p -> pool_elems s2 q = pool_elems s1 q)) /\
  (forall m s', elem_magic s' m <> MEMPOOL_MAGIC_NUM -> return_to_mempool m s' = None).
Proof.
  intros [Hel Hpl] Hd. split.
  2:{ intros m s' Hm. unfold return_to_mempool. apply Z.eqb_neq in Hm. rewrite Hm. reflexivity. }
  unfold dart_tasking_copyin_prepare_dep. rewrite Hd.
  set (size := dep_size elem).
  (* the pool chosen, before the element is taken *)
  assert (Hpool : exists p s1,
            (match find_mem_pool size s with
             | Some p => (p, s)
             | None => match find_mem_pool size s with
                       | Some p => (p, s)
                       | None => new_mem_pool size s end end) = (p, s1) /\
            find_mem_pool size s1 = Some p /\ pool_size s1 p = size /\
            (forall p', find_mem_pool size s = Some p' -> p = p') /\
            (find_mem_pool size s = None -> ~ In p (mem_pool s) /\ pool_elems s1 p = []) /\
            (find_mem_pool size s <> None -> s1 = s) /\
            next_elem s1 = next_elem s /\ elem_pool s1 = elem_pool s /\
            elem_magic s1 = elem_magic s).
  { destruct (find_mem_pool size s) as [p|] eqn:F.
    - exists p, s. split; [reflexivity|]. split; [exact F|].
      split; [exact (proj1 (find_in_spec _ _ _ _ F))|].
      split; [congruence|]. split; [discriminate|]. auto.
    - eexists; eexists. split; [reflexivity|]. unfold new_mem_pool, find_mem_pool. simpl.
      rewrite !Nat.eqb_refl. split; [reflexivity|]. split; [reflexivity|].
      split; [discriminate|]. split; [|split; [congruence|auto]].
      intros _. split; [|reflexivity]. intros Hin. specialize (Hpl _ Hin). lia. }
  destruct Hpool as [p [s1 [E [F1 [S1 [U [N [Same [Ne [Ep Em]]]]]]]]]].
  unfold allocate_from_mempool. rewrite E.
  destruct (pool_elems s1 p) as [|e rest] eqn:Pe.
  - (* a new element *)
    simpl. exists p, (next_elem s1). rewrite !Nat.eqb_refl.
    split; [reflexivity|]. split; [reflexivity|].
    split; [exact F1|]. split; [exact S1|]. split; [exact U|]. split; [intros H; apply (N H)|].
    split; [reflexivity|]. split; [reflexivity|].
    unfold dart_tasking_copyin_release_mem, return_to_mempool. simpl.
    rewrite !Nat.eqb_refl. simpl. eexists; eexists. split; [reflexivity|].
    split; [reflexivity|]. simpl. rewrite Nat.eqb_refl. split; [reflexivity|].
    intros q Hq. apply Nat.eqb_neq in Hq. rewrite Hq. reflexivity.
  - (* an element of the pool, which existed already *)
    assert (Hs : s1 = s).
    { apply Same. intros F. destruct (N F) as [_ Hx]. congruence. }
    subst s1. destruct (Hel p e) as [Hep [Hem _]]; [rewrite Pe; left; reflexivity|].
    exists p, e. simpl. split; [reflexivity|]. split; [reflexivity|].
    split; [exact F1|]. split; [exact S1|]. split; [exact U|].
    split; [intros H; apply (N H)|]. split; [exact Hep|]. split; [exact Hem|].
    unfold dart_tasking_copyin_release_mem, return_to_mempool. simpl.
    rewrite Hem, Z.eqb_refl. simpl. eexists; eexists. split; [reflexivity|].
    split; [reflexivity|]. simpl. rewrite Hep, !Nat.eqb_refl. split; [reflexivity|].
    intros q Hq. apply Nat.eqb_neq in Hq. rewrite Hq. reflexivity.
Qed.

Lemma copyin_buffer_same_pool_witness :
  pool_inv empty_pools /\ dest (mk_dephash_elem None 64 false) = None /\
  (let '(elem', s1) := dart_tasking_copyin_prepare_dep (mk_dephash_elem None 64 false) empty_pools in
   exists p m, dest elem' = Some m /\ dtor_release_mem elem' = true /\
     find_mem_pool 64 s1 = Some p /\ pool_size s1 p = 64 /\
     (forall p', find_mem_pool 64 empty_pools = Some p' -> p = p') /\
     (find_mem_pool 64 empty_pools = None -> ~ In p (mem_pool empty_pools)) /\
     elem_pool s1 m = p /\ elem_magic s1 m = MEMPOOL_MAGIC_NUM /\
     exists elem'' s2,
       dart_tasking_copyin_release_mem elem' s1 = Some (elem'', s2) /\
       dest elem'' = None /\ pool_elems s2 p = m :: pool_elems s1 p /\
       (forall q, q <> p -> pool_elems s2 q = pool_elems s1 q)) /\
  (forall m s', elem_magic s' m <> MEMPOOL_MAGIC_NUM -> return_to_mempool m s' = None).
Proof.
  assert (H : pool_inv empty_pools) by (split; simpl; intros; contradiction).
  split; [exact H|]. split; [reflexivity|].
  exact (copyin_buffer_same_pool (mk_dephash_elem None 64 false) empty_pools H eq_refl).
Defined.

End MempoolFacts.

Module AmsgFacts.
Import DartTypes Amsg.

Lemma test_sendreqs_ret q :
  fst (amsgq_test_sendreqs_unsafe q) = DART_OK \/
  amsgq_test_sendreqs_unsafe q = (DART_ERR_AGAIN, q).
Proof.
  unfold amsgq_test_sendreqs_unsafe. destruct (mpi_testsome _ _) as [o r].
  destruct (Nat.ltb 0 (length o)); [destruct (Nat.eqb _ _); left; reflexivity | right; reflexivity].
Qed.

(** Claim C9: [trysend] answers [DART_ERR_AGAIN], with the queue unchanged,
    when the send ring is full and none of its requests has completed; it
    answers [DART_ERR_AGAIN] whenever the MPI send call does not return
    [MPI_SUCCESS]; and nonblocking processing answers [DART_ERR_AGAIN], with
    the queue unchanged, when another thread holds the processing mutex. *)
Theorem amsg_again_cases target mpi_ret q :
  (direct_send q = false -> send_tailpos q = msg_count q ->
   testsome_from 0 (send_tailpos q) (send_reqs q) = [] ->
   dart_amsg_sendrecv_trysend target mpi_ret q = Some (DART_ERR_AGAIN, q)) /\
  (send_tailpos q <= msg_count q -> mpi_ret <> MPI_SUCCESS ->
   exists q', dart_amsg_sendrecv_trysend target mpi_ret q = Some (DART_ERR_AGAIN, q')) /\
  (processing_locked q = true -> dart_amsg_sendrecv_process q = Some (DART_ERR_AGAIN, q)).
Proof.
  split; [|split].
  - intros Hd Ht Hs.
    unfold dart_amsg_sendrecv_trysend, amsgq_test_sendreqs_unsafe, mpi_testsome.
    rewrite Hs, Ht, Nat.leb_refl, Hd, Nat.eqb_refl. reflexivity.
  - intros Ht Hm. apply Z.eqb_neq in Hm. unfold dart_amsg_sendrecv_trysend.
    apply Nat.leb_le in Ht. rewrite Ht. simpl.
    destruct (direct_send q); simpl; [rewrite Hm; eexists; reflexivity|].
    destruct (Nat.eqb (send_tailpos q) (msg_count q)).
    + destruct (test_sendreqs_ret q) as [Ho|Ha].
      * destruct (amsgq_test_sendreqs_unsafe q) as [r q1]. simpl in Ho. subst r.
        simpl. rewrite Hm. eexists; reflexivity.
      * rewrite Ha. simpl. eexists; reflexivity.
    + simpl. rewrite Hm. eexists; reflexivity.
  - intros Hl. unfold dart_amsg_sendrecv_process, amsg_sendrecv_process_internal.
    rewrite Hl. reflexivity.
Qed.

Lemma amsg_again_cases_witness :
  direct_send example_full = false /\ send_tailpos example_full = msg_count example_full /\
  testsome_from 0 (send_tailpos example_full) (send_reqs example_full) = [] /\
  send_tailpos example_full <= msg_count example_full /\ (1 <> MPI_SUCCESS)%Z /\
  processing_locked example_full = true /\
  ((direct_send example_full = false -> send_tailpos example_full = msg_count example_full ->
    testsome_from 0 (send_tailpos example_full) (send_reqs example_full) = [] ->
    dart_amsg_sendrecv_trysend 0 1 example_full = Some (DART_ERR_AGAIN, example_full)) /\
   (send_tailpos example_full <= msg_count example_full -> (1 <> MPI_SUCCESS)%Z ->
    exists q', dart_amsg_sendrecv_trysend 0 1 example_full = Some (DART_ERR_AGAIN, q')) /\
   (processing_locked example_full = true ->
    dart_amsg_sendrecv_process example_full = Some (DART_ERR_AGAIN, example_full))).
Proof.
  split; [reflexivity|]. split; [reflexivity|]. split; [reflexivity|].
  split; [simpl; lia|]. split; [discriminate|]. split; [reflexivity|].
  exact (amsg_again_cases 0 1%Z example_full).
Defined.

End AmsgFacts.

Module TaskQueueExtFacts.
Import TaskQueue TaskQueueFacts TaskQueueExt.

Lemma example_L_3 : forall d, ~ In 3 (example_L d).
Proof.
  intros d. unfold example_L, example_L1, abs_op, Lset. simpl.
  destruct (dq_eqb d _); simpl; [intros [H|[]]; discriminate|].
  destruct (dq_eqb d _); simpl; [intros [H|[]]; discriminate|intros []].
Qed.

Lemma rep_head_none h d l : rep h d l -> (head d = None <-> l = []).
Proof.
  intros H. destruct l as [|x l].
  - apply rep_nil in H as [-> _]. tauto.
  - rewrite (rep_head_some _ _ _ _ H). split; discriminate.
Qed.

Lemma pop_empty_run s q :
  dq s (q, High) = empty_deque -> dq s (q, Low) = empty_deque ->
  dart_tasking_taskqueue_pop q s = Some (None, s) /\
  dart_tasking_taskqueue_popback q s = Some (None, s).
Proof.
  intros Hh Hl. unfold dart_tasking_taskqueue_pop, dart_tasking_taskqueue_popback,
    task_deque_pop, task_deque_popback.
  do 4 (mrun; rewrite ?Hh, ?Hl). mrun. split; reflexivity.
Qed.

Lemma empty_dq h d : rep h d [] -> d = empty_deque.
Proof. intros H. apply rep_nil in H as [Hh Ht]. destruct d; simpl in *; subst; reflexivity. Qed.

(** X1: Pop and popback answer [NULL] exactly when both deques of the queue
    are empty ([head == NULL]), and then they change nothing. *)
Theorem taskqueue_pop_null_iff_empty prio_of s L q :
  reach prio_of s L ->
  (forall r s', dart_tasking_taskqueue_pop q s = Some (r, s') ->
     (r = None <-> head (dq s (q, High)) = None /\ head (dq s (q, Low)) = None) /\
     (r = None -> s' = s)) /\
  (forall r s', dart_tasking_taskqueue_popback q s = Some (r, s') ->
     (r = None <-> head (dq s (q, High)) = None /\ head (dq s (q, Low)) = None) /\
     (r = None -> s' = s)).
Proof.
  intros Hr. pose proof (reach_wf _ _ _ Hr) as Hwf.
  pose proof (rep_head_none _ _ _ (wf_rep _ _ Hwf (q, High))) as EH.
  pose proof (rep_head_none _ _ _ (wf_rep _ _ Hwf (q, Low))) as EL.
  assert (Hemp : L (q, High) = [] -> L (q, Low) = [] ->
                 dart_tasking_taskqueue_pop q s = Some (None, s) /\
                 dart_tasking_taskqueue_popback q s = Some (None, s)).
  { intros H1 H2. apply pop_empty_run.
    - apply (empty_dq (tasks s)). rewrite <- H1. apply Hwf.
    - apply (empty_dq (tasks s)). rewrite <- H2. apply Hwf. }
  split.
  - intros r s' Hp. destruct (op_pop_wf s L q Hwf) as (s'' & Hrun & _).
    change (dart_tasking_taskqueue_pop q s =
            Some (match L (q, High) with [] => hd_error (L (q, Low)) | x :: _ => Some x end, s'')) in Hrun.
    rewrite Hp in Hrun. injection Hrun as Er _. subst r. rewrite EH, EL.
    destruct (L (q, High)) as [|x l] eqn:E1; [destruct (L (q, Low)) as [|y l'] eqn:E2|].
    + split; [tauto|]. intros _. destruct (Hemp eq_refl eq_refl) as [H _]. congruence.
    + simpl. split; [split; [discriminate|intros [_ H]; discriminate]|discriminate].
    + split; [split; [discriminate|intros [H _]; discriminate]|discriminate].
  - intros r s' Hp. destruct (op_popback_wf s L q Hwf) as (s'' & Hrun & _).
    change (dart_tasking_taskqueue_popback q s =
            Some (match L (q, High) with [] => last_opt (L (q, Low)) | _ :: _ => last_opt (L (q, High)) end, s'')) in Hrun.
    rewrite Hp in Hrun. injection Hrun as Er _. subst r. rewrite EH, EL.
    destruct (L (q, High)) as [|x l] eqn:E1; [destruct (L (q, Low)) as [|y l'] eqn:E2|].
    + split; [tauto|]. intros _. destruct (Hemp eq_refl eq_refl) as [_ H]. congruence.
    + simpl. split; [split; [discriminate|intros [_ H]; discriminate]|discriminate].
    + split; [split; [discriminate|intros [H _]; discriminate]|discriminate].
Qed.

Lemma taskqueue_pop_null_iff_empty_witness :
  reach example_prio example_state example_L /\
  (forall r s', dart_tasking_taskqueue_pop 0 example_state = Some (r, s') ->
     (r = None <-> head (dq example_state (0, High)) = None /\ head (dq example_state (0, Low)) = None) /\
     (r = None -> s' = example_state)) /\
  (forall r s', dart_tasking_taskqueue_popback 0 example_state = Some (r, s') ->
     (r = None <-> head (dq example_state (0, High)) = None /\ head (dq example_state (0, Low)) = None) /\
     (r = None -> s' = example_state)).
Proof.
  split; [exact example_reach|].
  exact (taskqueue_pop_null_iff_empty example_prio example_state example_L 0 example_reach).
Defined.


Lemma Lset_ext L d l : l = L d -> forall d', Lset L d l d' = L d'.
Proof. intros -> d'. unfold Lset. destruct (dq_eqb_spec d' d) as [H _]. destruct (dq_eqb d' d) eqn:E; [rewrite (H eq_refl); reflexivity|reflexivity]. Qed.

Ltac lset_tac := unfold Lset; repeat match goal with
  | E : dq_eqb ?a ?a = false |- _ => rewrite (proj2 (dq_eqb_spec a a) eq_refl) in E; discriminate E
  | |- context [dq_eqb ?a ?b] =>
      let E := fresh "E" in destruct (dq_eqb a b) eqn:E; [apply dq_eqb_spec in E; try subst|]
  end; try reflexivity; try congruence.

Lemma pqH_neq_pqL (q : nat) : (q, High) <> (q, Low) :> dqaddr.
Proof. congruence. Qed.

(** X2: LIFO round trip at the front: a task [t] that is in no queue, pushed
    into queue [q], is what the next pop of [q] returns, when [t] has high
    priority or the high-priority deque of [q] is empty; afterwards the
    deques hold the same tasks as before. *)
Theorem taskqueue_push_pop_roundtrip prio_of s L q t :
  reach prio_of s L -> (forall d, ~ In t (L d)) ->
  prio_is_high (prio (tasks s t)) = true \/ L (q, High) = [] ->
  exists s1 s2 L2, dart_tasking_taskqueue_push q (Some t) s = Some (tt, s1) /\
    dart_tasking_taskqueue_pop q s1 = Some (Some t, s2) /\
    reach prio_of s2 L2 /\ (forall d, L2 d = L d).
Proof.
  intros Hr Ht Hc. pose proof (reach_wf _ _ _ Hr) as Hwf.
  destruct (op_push_wf s L q t Hwf Ht) as (s1 & Hex & Hwf1).
  pose proof (reach_step _ _ _ (OpPush q t) _ _ Hr Ht Hex) as Hr1.
  set (L1 := abs_op s (OpPush q t) L) in *.
  destruct (op_pop_wf s1 L1 q Hwf1) as (s2 & Hp & _).
  pose proof (reach_step _ _ _ (OpPop q) _ _ Hr1 I Hp) as Hr2.
  exists s1, s2, (abs_op s1 (OpPop q) L1).
  split; [exact (exec_unit_inv _ _ _ _ Hex)|].
  change (exec_op (OpPop q) s1) with (dart_tasking_taskqueue_pop q s1) in Hp.
  assert (HH : prio_is_high (prio (tasks s t)) = true -> L1 (q, High) = t :: L (q, High)).
  { intros E. unfold L1, abs_op, deque_for. rewrite E. apply Lset_same. }
  assert (HL : prio_is_high (prio (tasks s t)) = false ->
               L1 (q, High) = L (q, High) /\ L1 (q, Low) = t :: L (q, Low)).
  { intros E. unfold L1, abs_op, deque_for. rewrite E. split; [|apply Lset_same].
    apply Lset_other, pqH_neq_pqL. }
  destruct (prio_is_high (prio (tasks s t))) eqn:Ep.
  - rewrite (HH eq_refl) in Hp. split; [exact Hp|]. split; [exact Hr2|].
    intros d. unfold abs_op. rewrite (HH eq_refl).
    unfold L1, abs_op, deque_for. rewrite Ep. lset_tac.
  - destruct Hc as [Hc|Hc]; [discriminate|].
    destruct (HL eq_refl) as [E1 E2]. rewrite E1, Hc, E2 in Hp. simpl in Hp.
    split; [exact Hp|]. split; [exact Hr2|].
    intros d. unfold abs_op at 1. rewrite E1, Hc, E2. simpl.
    unfold L1, abs_op, deque_for. rewrite Ep. lset_tac.
Qed.

Lemma taskqueue_push_pop_roundtrip_witness :
  reach example_prio example_state example_L /\ (forall d, ~ In 3 (example_L d)) /\
  (prio_is_high (prio (tasks example_state 3)) = true \/ example_L (1, High) = []) /\
  exists s1 s2 L2, dart_tasking_taskqueue_push 1 (Some 3) example_state = Some (tt, s1) /\
    dart_tasking_taskqueue_pop 1 s1 = Some (Some 3, s2) /\
    reach example_prio s2 L2 /\ (forall d, L2 d = example_L d).
Proof.
  assert (Hh : prio_is_high (prio (tasks example_state 3)) = true \/ example_L (1, High) = [])
    by (right; vm_compute; reflexivity).
  split; [exact example_reach|]. split; [exact example_L_3|]. split; [exact Hh|].
  exact (taskqueue_push_pop_roundtrip example_prio example_state example_L 1 3
           example_reach example_L_3 Hh).
Defined.

Lemma removelast_snoc (l : list nat) x : removelast (l ++ [x]) = l.
Proof. induction l as [|a l IH]; [reflexivity|]. simpl. rewrite IH. destruct l; reflexivity. Qed.

Lemma last_opt_snoc (l : list nat) x : last_opt (l ++ [x]) = Some x.
Proof. destruct l; simpl; [reflexivity|]. rewrite last_last. destruct l; reflexivity. Qed.

(** X3: Round trip at the back: a task [t] in no queue, pushed to the back of
    queue [q], is what the next popback of [q] returns, when [t] has high
    priority or the high-priority deque of [q] is empty; afterwards the
    deques hold the same tasks as before. *)
Theorem taskqueue_pushback_popback_roundtrip prio_of s L q t :
  reach prio_of s L -> (forall d, ~ In t (L d)) ->
  prio_is_high (prio (tasks s t)) = true \/ L (q, High) = [] ->
  exists s1 s2 L2, dart_tasking_taskqueue_pushback q (Some t) s = Some (tt, s1) /\
    dart_tasking_taskqueue_popback q s1 = Some (Some t, s2) /\
    reach prio_of s2 L2 /\ (forall d, L2 d = L d).
Proof.
  intros Hr Ht Hc. pose proof (reach_wf _ _ _ Hr) as Hwf.
  destruct (op_pushback_wf s L q t Hwf Ht) as (s1 & Hex & Hwf1).
  pose proof (reach_step _ _ _ (OpPushback q t) _ _ Hr Ht Hex) as Hr1.
  set (L1 := abs_op s (OpPushback q t) L) in *.
  destruct (op_popback_wf s1 L1 q Hwf1) as (s2 & Hp & _).
  pose proof (reach_step _ _ _ (OpPopback q) _ _ Hr1 I Hp) as Hr2.
  exists s1, s2, (abs_op s1 (OpPopback q) L1).
  split; [exact (exec_unit_inv _ _ _ _ Hex)|].
  change (exec_op (OpPopback q) s1) with (dart_tasking_taskqueue_popback q s1) in Hp.
  assert (HH : prio_is_high (prio (tasks s t)) = true -> L1 (q, High) = L (q, High) ++ [t]).
  { intros E. unfold L1, abs_op, deque_for. rewrite E. apply Lset_same. }
  assert (HL : prio_is_high (prio (tasks s t)) = false ->
               L1 (q, High) = L (q, High) /\ L1 (q, Low) = L (q, Low) ++ [t]).
  { intros E. unfold L1, abs_op, deque_for. rewrite E. split; [|apply Lset_same].
    apply Lset_other, pqH_neq_pqL. }
  destruct (prio_is_high (prio (tasks s t))) eqn:Ep.
  - assert (Hne : exists a l, L1 (q, High) = a :: l).
    { rewrite (HH eq_refl). destruct (L (q, High)); eexists; eexists; reflexivity. }
    destruct Hne as (a & l & Ea).
    rewrite Ea in Hp. rewrite <- Ea, (HH eq_refl), last_opt_snoc in Hp.
    split; [exact Hp|]. split; [exact Hr2|].
    intros d. unfold abs_op at 1. rewrite Ea. rewrite <- Ea, (HH eq_refl), removelast_snoc.
    unfold L1, abs_op, deque_for. rewrite Ep. lset_tac.
  - destruct Hc as [Hc|Hc]; [discriminate|].
    destruct (HL eq_refl) as [E1 E2]. rewrite E1, Hc, E2, last_opt_snoc in Hp.
    split; [exact Hp|]. split; [exact Hr2|].
    intros d. unfold abs_op at 1. rewrite E1, Hc, E2, removelast_snoc.
    unfold L1, abs_op, deque_for. rewrite Ep. lset_tac.
Qed.

Lemma taskqueue_pushback_popback_roundtrip_witness :
  reach example_prio example_state example_L /\ (forall d, ~ In 3 (example_L d)) /\
  (prio_is_high (prio (tasks example_state 3)) = true \/ example_L (1, High) = []) /\
  exists s1 s2 L2, dart_tasking_taskqueue_pushback 1 (Some 3) example_state = Some (tt, s1) /\
    dart_tasking_taskqueue_popback 1 s1 = Some (Some 3, s2) /\
    reach example_prio s2 L2 /\ (forall d, L2 d = example_L d).
Proof.
  assert (Hh : prio_is_high (prio (tasks example_state 3)) = true \/ example_L (1, High) = [])
    by (right; vm_compute; reflexivity).
  split; [exact example_reach|]. split; [exact example_L_3|]. split; [exact Hh|].
  exact (taskqueue_pushback_popback_roundtrip example_prio example_state example_L 1 3
           example_reach example_L_3 Hh).
Defined.


Lemma pop_all_S n q s : pop_all (S n) q s =
  match dart_tasking_taskqueue_pop q s with
  | Some (t, s1) => match pop_all n q s1 with Some (ts, s2) => Some (t :: ts, s2) | None => None end
  | None => None
  end.
Proof. simpl. unfold bind, ret. destruct (dart_tasking_taskqueue_pop q s) as [[t s1]|]; [|reflexivity].
  destruct (pop_all n q s1) as [[ts s2]|]; reflexivity. Qed.

Lemma popback_all_S n q s : popback_all (S n) q s =
  match dart_tasking_taskqueue_popback q s with
  | Some (t, s1) => match popback_all n q s1 with Some (ts, s2) => Some (t :: ts, s2) | None => None end
  | None => None
  end.
Proof. simpl. unfold bind, ret. destruct (dart_tasking_taskqueue_popback q s) as [[t s1]|]; [|reflexivity].
  destruct (popback_all n q s1) as [[ts s2]|]; reflexivity. Qed.

Lemma drain_pop prio_of q n : forall s L,
  reach prio_of s L -> length (L (q, High)) + length (L (q, Low)) = n ->
  exists s' L', pop_all n q s = Some (map Some (L (q, High) ++ L (q, Low)), s') /\
    reach prio_of s' L' /\ L' (q, High) = [] /\ L' (q, Low) = [] /\
    (forall d, fst d <> q -> L' d = L d).
Proof.
  induction n as [|n IH]; intros s L Hr Hn.
  - destruct (L (q, High)) as [|x l] eqn:E1; [|simpl in Hn; lia].
    destruct (L (q, Low)) as [|y l'] eqn:E2; [|simpl in Hn; lia].
    exists s, L. split; [reflexivity|]. auto.
  - pose proof (reach_wf _ _ _ Hr) as Hwf.
    destruct (op_pop_wf s L q Hwf) as (s1 & Hp & _).
    pose proof (reach_step _ _ _ (OpPop q) _ _ Hr I Hp) as Hr1.
    change (exec_op (OpPop q) s) with (dart_tasking_taskqueue_pop q s) in Hp.
    rewrite pop_all_S, Hp.
    destruct (L (q, High)) as [|x l] eqn:E1.
    + destruct (L (q, Low)) as [|y l'] eqn:E2; [simpl in Hn; lia|].
      assert (H1 : abs_op s (OpPop q) L (q, High) = []).
      { unfold abs_op. rewrite E1. rewrite Lset_other by (apply pqH_neq_pqL). exact E1. }
      assert (H2 : abs_op s (OpPop q) L (q, Low) = l').
      { unfold abs_op. rewrite E1, Lset_same, E2. reflexivity. }
      destruct (IH _ _ Hr1 ltac:(rewrite H1, H2; simpl in *; lia)) as (s' & L' & Ha & Hr' & Ha1 & Ha2 & Ho).
      rewrite H1, H2 in Ha. rewrite Ha. exists s', L'. split; [reflexivity|].
      split; [exact Hr'|]. split; [exact Ha1|]. split; [exact Ha2|].
      intros d Hd. rewrite (Ho d Hd). unfold abs_op. rewrite E1. apply Lset_other.
      intros ->. apply Hd. reflexivity.
    + assert (H1 : abs_op s (OpPop q) L (q, High) = l).
      { unfold abs_op. rewrite E1, Lset_same. reflexivity. }
      assert (H2 : abs_op s (OpPop q) L (q, Low) = L (q, Low)).
      { unfold abs_op. rewrite E1. apply Lset_other. congruence. }
      destruct (IH _ _ Hr1 ltac:(rewrite H1, H2; simpl in *; lia)) as (s' & L' & Ha & Hr' & Ha1 & Ha2 & Ho).
      rewrite H1, H2 in Ha. rewrite Ha. exists s', L'. split; [reflexivity|].
      split; [exact Hr'|]. split; [exact Ha1|]. split; [exact Ha2|].
      intros d Hd. rewrite (Ho d Hd). unfold abs_op. rewrite E1. apply Lset_other.
      intros ->. apply Hd. reflexivity.
Qed.

Lemma last_opt_split (l : list nat) : l <> [] ->
  last_opt l = Some (last l 0) /\ rev l = last l 0 :: rev (removelast l) /\
  length (removelast l) = length l - 1.
Proof.
  intros Hne. split; [destruct l; [congruence|reflexivity]|].
  pose proof (removelast_split l Hne) as E. split.
  - rewrite E at 1. rewrite rev_app_distr. reflexivity.
  - rewrite E at 2. rewrite length_app. simpl. lia.
Qed.

Lemma drain_popback prio_of q n : forall s L,
  reach prio_of s L -> length (L (q, High)) + length (L (q, Low)) = n ->
  exists s' L', popback_all n q s = Some (map Some (rev (L (q, High)) ++ rev (L (q, Low))), s') /\
    reach prio_of s' L' /\ L' (q, High) = [] /\ L' (q, Low) = [] /\
    (forall d, fst d <> q -> L' d = L d).
Proof.
  induction n as [|n IH]; intros s L Hr Hn.
  - destruct (L (q, High)) as [|x l] eqn:E1; [|simpl in Hn; lia].
    destruct (L (q, Low)) as [|y l'] eqn:E2; [|simpl in Hn; lia].
    exists s, L. split; [reflexivity|]. auto.
  - pose proof (reach_wf _ _ _ Hr) as Hwf.
    destruct (op_popback_wf s L q Hwf) as (s1 & Hp & _).
    pose proof (reach_step _ _ _ (OpPopback q) _ _ Hr I Hp) as Hr1.
    change (exec_op (OpPopback q) s) with (dart_tasking_taskqueue_popback q s) in Hp.
    rewrite popback_all_S, Hp.
    destruct (L (q, High)) as [|x l] eqn:E1.
    + assert (Hne : L (q, Low) <> []) by (intros E2; rewrite E2 in Hn; simpl in Hn; lia).
      destruct (last_opt_split _ Hne) as (Hl1 & Hl2 & Hl3).
      assert (H1 : abs_op s (OpPopback q) L (q, High) = []).
      { unfold abs_op. rewrite E1. rewrite Lset_other by (apply pqH_neq_pqL). exact E1. }
      assert (H2 : abs_op s (OpPopback q) L (q, Low) = removelast (L (q, Low))).
      { unfold abs_op. rewrite E1, Lset_same. reflexivity. }
      destruct (IH _ _ Hr1 ltac:(rewrite H1, H2; simpl in *; lia)) as (s' & L' & Ha & Hr' & Ha1 & Ha2 & Ho).
      rewrite H1, H2 in Ha. rewrite Ha, Hl1, Hl2. exists s', L'. split; [reflexivity|].
      split; [exact Hr'|]. split; [exact Ha1|]. split; [exact Ha2|].
      intros d Hd. rewrite (Ho d Hd). unfold abs_op. rewrite E1. apply Lset_other.
      intros ->. apply Hd. reflexivity.
    + rewrite <- E1 in *.
      assert (Hne : L (q, High) <> []) by (rewrite E1; discriminate).
      destruct (last_opt_split _ Hne) as (Hl1 & Hl2 & Hl3).
      assert (H1 : abs_op s (OpPopback q) L (q, High) = removelast (L (q, High))).
      { unfold abs_op. rewrite E1, Lset_same. rewrite <- E1. reflexivity. }
      assert (H2 : abs_op s (OpPopback q) L (q, Low) = L (q, Low)).
      { unfold abs_op. rewrite E1. apply Lset_other. congruence. }
      assert (Hpos : length (L (q, High)) > 0) by (rewrite E1; simpl; lia).
      destruct (IH _ _ Hr1 ltac:(rewrite H1, H2; lia)) as (s' & L' & Ha & Hr' & Ha1 & Ha2 & Ho).
      rewrite H1, H2 in Ha. rewrite E1 in Hp. rewrite <- E1 in Hp. rewrite Hl1, Ha, Hl2.
      exists s', L'. split; [reflexivity|].
      split; [exact Hr'|]. split; [exact Ha1|]. split; [exact Ha2|].
      intros d Hd. rewrite (Ho d Hd). unfold abs_op. rewrite E1. apply Lset_other.
      intros ->. apply Hd. reflexivity.
Qed.

(** X4: Draining: as many pops of queue [q] as it holds tasks return first the
    high-priority deque from head to tail, then the low-priority one;
    as many popbacks return each deque from tail to head, the
    high-priority one first. Either way both deques of [q] end empty and
    the other queues keep their tasks. *)
Theorem taskqueue_drain_order prio_of s L q :
  reach prio_of s L ->
  let n := length (L (q, High)) + length (L (q, Low)) in
  (exists s' L', pop_all n q s = Some (map Some (L (q, High) ++ L (q, Low)), s') /\
     reach prio_of s' L' /\ L' (q, High) = [] /\ L' (q, Low) = [] /\
     (forall d, fst d <> q -> L' d = L d)) /\
  (exists s' L', popback_all n q s = Some (map Some (rev (L (q, High)) ++ rev (L (q, Low))), s') /\
     reach prio_of s' L' /\ L' (q, High) = [] /\ L' (q, Low) = [] /\
     (forall d, fst d <> q -> L' d = L d)).
Proof.
  intros Hr n. split; [apply drain_pop | apply drain_popback]; auto.
Qed.

Lemma taskqueue_drain_order_witness :
  reach example_prio example_state example_L /\
  let n := length (example_L (0, High)) + length (example_L (0, Low)) in
  (exists s' L', pop_all n 0 example_state =
       Some (map Some (example_L (0, High) ++ example_L (0, Low)), s') /\
     reach example_prio s' L' /\ L' (0, High) = [] /\ L' (0, Low) = [] /\
     (forall d, fst d <> 0 -> L' d = example_L d)) /\
  (exists s' L', popback_all n 0 example_state =
       Some (map Some (rev (example_L (0, High)) ++ rev (example_L (0, Low))), s') /\
     reach example_prio s' L' /\ L' (0, High) = [] /\ L' (0, Low) = [] /\
     (forall d, fst d <> 0 -> L' d = example_L d)).
Proof.
  split; [exact example_reach|].
  exact (taskqueue_drain_order example_prio example_state example_L 0 example_reach).
Defined.


(** X5: Moving: [dart_tasking_taskqueue_move(dst, src)] with two different
    queues puts the tasks of each deque of [src] in front of those of the
    same deque of [dst], in order, and leaves both deques of [src] empty
    ([head == tail == NULL]); other queues keep their tasks. *)
Theorem taskqueue_move_splices prio_of s L dst src :
  reach prio_of s L -> dst <> src ->
  exists s' L', dart_tasking_taskqueue_move dst src s = Some (tt, s') /\ reach prio_of s' L' /\
    (forall w, L' (dst, w) = L (src, w) ++ L (dst, w) /\ L' (src, w) = [] /\
               dq s' (src, w) = empty_deque) /\
    (forall d, fst d <> dst -> fst d <> src -> L' d = L d).
Proof.
  intros Hr Hne. pose proof (reach_wf _ _ _ Hr) as Hwf.
  destruct (op_move_wf s L dst src Hwf Hne) as (s' & Hex & Hwf').
  pose proof (reach_step _ _ _ (OpMove dst src) _ _ Hr Hne Hex) as Hr'.
  exists s', (abs_op s (OpMove dst src) L).
  split; [exact (exec_unit_inv _ _ _ _ Hex)|]. split; [exact Hr'|].
  assert (HL : (forall w, abs_op s (OpMove dst src) L (dst, w) = L (src, w) ++ L (dst, w) /\
                          abs_op s (OpMove dst src) L (src, w) = []) /\
               (forall d, fst d <> dst -> fst d <> src -> abs_op s (OpMove dst src) L d = L d)).
  { split.
    - intros w. unfold abs_op. destruct w; split; lset_tac.
    - intros [q w] H1 H2. simpl in H1, H2. unfold abs_op. lset_tac. }
  destruct HL as [HL1 HL2]. split; [|exact HL2].
  intros w. destruct (HL1 w) as [E1 E2]. split; [exact E1|]. split; [exact E2|].
  apply (empty_dq (tasks s')). rewrite <- E2. apply Hwf'.
Qed.

Lemma taskqueue_move_splices_witness :
  reach example_prio example_state example_L /\ 1 <> 0 /\
  exists s' L', dart_tasking_taskqueue_move 1 0 example_state = Some (tt, s') /\
    reach example_prio s' L' /\
    (forall w, L' (1, w) = example_L (0, w) ++ example_L (1, w) /\ L' (0, w) = [] /\
               dq s' (0, w) = empty_deque) /\
    (forall d, fst d <> 1 -> fst d <> 0 -> L' d = example_L d).
Proof.
  split; [exact example_reach|]. split; [discriminate|].
  apply (taskqueue_move_splices example_prio example_state example_L 1 0 example_reach).
  discriminate.
Defined.

Lemma deque_move_self_run s d l :
  rep (tasks s) (dq s d) l ->
  exists s', task_deque_move d d s = Some (tt, s') /\ dq s' d = empty_deque /\
    (forall d', d' <> d -> dq s' d' = dq s d') /\
    (forall y, ~ In y l -> tasks s' y = tasks s y).
Proof.
  intros Hr. destruct l as [|x l].
  - pose proof (empty_dq _ _ Hr) as He. exists s. split.
    + unfold task_deque_move. mrun. rewrite He. reflexivity.
    + split; [exact He|]. split; reflexivity.
  - pose proof (rep_head_some _ _ _ _ Hr) as Hh.
    pose proof (rep_tail_some _ _ _ Hr ltac:(discriminate)) as Ht.
    set (w := last (x :: l) 0) in *.
    assert (Hw : In w (x :: l)) by (apply last_In; discriminate).
    eexists. split.
    { unfold task_deque_move. mrun. rewrite Hh, Ht. mrun. rewrite Hh. mrun. reflexivity. }
    split; [|split].
    + unfold empty_deque. hsimpl. reflexivity.
    + intros d' Hd'. dq_other Hd'.
    + intros y Hy. assert (y <> x) by (intro; subst; apply Hy; left; reflexivity).
      assert (y <> w) by (intro; subst; contradiction). hsimpl. reflexivity.
Qed.

(** X6: Moving a queue into itself, [dart_tasking_taskqueue_move(q, q)],
    empties both deques of [q] ([head == tail == NULL]) without handing out
    their tasks: the tasks that were in [q] are afterwards in no deque,
    while the deques of the other queues are untouched. *)
Theorem taskqueue_move_self prio_of s L q :
  reach prio_of s L ->
  exists s', dart_tasking_taskqueue_move q q s = Some (tt, s') /\
    dq s' (q, High) = empty_deque /\ dq s' (q, Low) = empty_deque /\
    (forall d, fst d <> q -> dq s' d = dq s d /\ rep (tasks s') (dq s' d) (L d)) /\
    (forall x, In x (L (q, High)) \/ In x (L (q, Low)) -> forall d, fst d <> q -> ~ In x (L d)).
Proof.
  intros Hr. pose proof (reach_wf _ _ _ Hr) as Hwf.
  destruct (deque_move_self_run s (q, High) _ (wf_rep _ _ Hwf (q, High))) as (s1 & H1 & E1 & O1 & T1).
  assert (Hr1 : rep (tasks s1) (dq s1 (q, Low)) (L (q, Low))).
  { rewrite O1 by (apply not_eq_sym, pqH_neq_pqL). eapply dseg_frame; [|apply Hwf].
    intros y Hy. apply T1. intros Hy'. pose proof (wf_disj _ _ Hwf _ _ _ Hy Hy'). discriminate. }
  destruct (deque_move_self_run s1 (q, Low) _ Hr1) as (s2 & H2 & E2 & O2 & T2).
  exists s2. split.
  { unfold dart_tasking_taskqueue_move, bind. rewrite H1. exact H2. }
  split; [rewrite O2 by (apply pqH_neq_pqL); exact E1|]. split; [exact E2|]. split.
  - intros d Hd.
    assert (Hq : forall w, d <> (q, w)) by (intros w ->; apply Hd; reflexivity).
    assert (Ed : dq s2 d = dq s d) by (rewrite O2, O1 by apply Hq; reflexivity).
    split; [exact Ed|]. rewrite Ed. eapply dseg_frame; [|apply Hwf].
    intros y Hy. rewrite T2, T1; [reflexivity| |].
    + intros Hy'. apply (Hq High). exact (wf_disj _ _ Hwf _ _ _ Hy Hy').
    + intros Hy'. apply (Hq Low). exact (wf_disj _ _ Hwf _ _ _ Hy Hy').
  - intros x Hx d Hd Hin. destruct Hx as [Hx|Hx];
      pose proof (wf_disj _ _ Hwf _ _ _ Hx Hin) as E; apply Hd; rewrite <- E; reflexivity.
Qed.

Lemma taskqueue_move_self_witness :
  reach example_prio example_state example_L /\
  exists s', dart_tasking_taskqueue_move 0 0 example_state = Some (tt, s') /\
    dq s' (0, High) = empty_deque /\ dq s' (0, Low) = empty_deque /\
    (forall d, fst d <> 0 -> dq s' d = dq example_state d /\ rep (tasks s') (dq s' d) (example_L d)) /\
    (forall x, In x (example_L (0, High)) \/ In x (example_L (0, Low)) ->
       forall d, fst d <> 0 -> ~ In x (example_L d)).
Proof.
  split; [exact example_reach|].
  exact (taskqueue_move_self example_prio example_state example_L 0 example_reach).
Defined.


Lemma filter_head_loop_stuck runnable d x fuel : runnable x = false ->
  forall s, exists s', filter_head_loop runnable fuel d (Some x) s = Some (false, s').
Proof.
  intros Hx. induction fuel as [|f IH]; intros s; [eexists; reflexivity|].
  simpl. rewrite Hx. unfold bind, load_next, store_head, store_next, store_prev, ret.
  simpl. destruct (next (tasks s x)); simpl; apply IH.
Qed.

(** X7: [task_deque_filter_runnable] never returns when the head task of the
    deque is not runnable: its first loop does not advance [task], so for
    every amount of fuel the model runs out of it. *)
Theorem filter_runnable_diverges runnable fuel s d x :
  head (dq s d) = Some x -> runnable x = false ->
  exists s', task_deque_filter_runnable runnable fuel d s = Some (false, s').
Proof.
  intros Hh Hx. unfold task_deque_filter_runnable, bind, load_dq. rewrite Hh.
  destruct (filter_head_loop_stuck runnable d x fuel Hx s) as (s' & E). rewrite E.
  exists s'. reflexivity.
Qed.

Lemma filter_runnable_diverges_witness :
  head (dq example_state (0, High)) = Some 1 /\ (fun _ : nat => false) 1 = false /\
  exists s', task_deque_filter_runnable (fun _ => false) 10 (0, High) example_state = Some (false, s').
Proof.
  split; [vm_compute; reflexivity|]. split; [reflexivity|].
  apply (filter_runnable_diverges (fun _ => false) 10 example_state (0, High) 1);
    [vm_compute; reflexivity|reflexivity].
Defined.

Lemma filter_walk_runnable runnable l : forall fuel s p f la,
  dseg (tasks s) l p f la None -> NoDup l -> (forall x, In x l -> runnable x = true) ->
  length l < fuel ->
  exists s', filter_walk runnable fuel f s = Some (true, s') /\ (forall d, dq s' d = dq s d) /\
    (forall y, In y l -> next (tasks s' y) = None /\ prev (tasks s' y) = None) /\
    (forall y, ~ In y l -> tasks s' y = tasks s y).
Proof.
  induction l as [|x l IH]; intros fuel s p f la Hs Hnd Hrun Hf;
    (destruct fuel as [|fuel]; [simpl in Hf; lia|]).
  - destruct Hs as [-> _]. exists s. simpl. split; [reflexivity|]. split; [reflexivity|].
    split; [intros y []|reflexivity].
  - destruct Hs as (-> & Hp & Hs). apply NoDup_cons_iff in Hnd as [Hxl Hnd].
    set (s1 := set_next (set_prev s x None) x None).
    assert (Hs1 : dseg (tasks s1) l (Some x) (next (tasks s x)) la None).
    { eapply dseg_frame; [|exact Hs]. intros y Hy. unfold s1, set_next, set_prev. simpl.
      assert (y <> x) by (intro; subst; contradiction). hsimpl. reflexivity. }
    destruct (IH fuel s1 _ _ _ Hs1 Hnd (fun y Hy => Hrun y (or_intror Hy)) ltac:(simpl in Hf; lia))
      as (s' & Hw & Hd & Hc & Ho).
    exists s'. split.
    { simpl. rewrite (Hrun x (or_introl eq_refl)). unfold bind, load_next, store_prev, store_next, ret.
      simpl. exact Hw. }
    split; [intros d; rewrite Hd; unfold s1; rewrite dq_set_next, dq_set_prev; reflexivity|].
    split.
    + intros y [<-|Hy]; [|exact (Hc y Hy)]. rewrite Ho by exact Hxl.
      unfold s1, set_next, set_prev. simpl. hsimpl. split; reflexivity.
    + intros y Hy. assert (y <> x) by (intro; subst; apply Hy; left; reflexivity).
      rewrite Ho by (intro; apply Hy; right; assumption).
      unfold s1, set_next, set_prev. simpl. hsimpl. reflexivity.
Qed.

(** X8: [task_deque_filter_runnable] on a deque whose tasks are all runnable
    (with enough fuel) finishes, but clears [next] and [prev] of every task
    while [head] and [tail] keep their values. Once the deque held two or
    more tasks, the head task differs from the tail but its [next] is
    [NULL], so the next [task_deque_pop] passes its first [DART_ASSERT],
    takes the branch [deque->head = task->next; deque->head->prev = NULL;]
    and fails at that [NULL] dereference. *)
Theorem filter_runnable_unlinks_all runnable fuel s d l :
  rep (tasks s) (dq s d) l -> NoDup l -> (forall x, In x l -> runnable x = true) ->
  length l < fuel ->
  exists s', task_deque_filter_runnable runnable fuel d s = Some (true, s') /\
    dq s' d = dq s d /\
    (forall x, In x l -> next (tasks s' x) = None /\ prev (tasks s' x) = None) /\
    (2 <= length l -> exists x, head (dq s' d) = Some x /\ tail (dq s' d) <> Some x /\
       both_nonnull (dq s' d) = true /\ next (tasks s' x) = None /\
       task_deque_pop d s' = None).
Proof.
  intros Hr Hnd Hrun Hf.
  assert (Hhead : exists s1, filter_head_loop runnable fuel d (head (dq s d)) s = Some (true, s1) /\ s1 = s).
  { destruct fuel as [|fuel]; [lia|]. destruct l as [|x l].
    - rewrite (proj1 (proj1 (rep_nil _ _) Hr)). exists s. split; reflexivity.
    - rewrite (rep_head_some _ _ _ _ Hr). exists s. simpl. rewrite (Hrun x (or_introl eq_refl)).
      split; reflexivity. }
  destruct Hhead as (s1 & Hh & ->).
  destruct (filter_walk_runnable runnable l fuel s None (head (dq s d)) (tail (dq s d)) Hr Hnd Hrun Hf)
    as (s' & Hw & Hd & Hc & _).
  exists s'. split.
  { unfold task_deque_filter_runnable, bind, load_dq. rewrite Hh. exact Hw. }
  split; [apply Hd|]. split; [exact Hc|].
  intros H2. destruct l as [|x [|z l]]; [simpl in H2; lia|simpl in H2; lia|].
  pose proof (rep_head_some _ _ _ _ Hr) as Eh.
  pose proof (rep_tail_some _ _ _ Hr ltac:(discriminate)) as Et.
  change (last (x :: z :: l) 0) with (last (z :: l) 0) in Et.
  assert (Hw' : In (last (z :: l) 0) (z :: l)) by (apply last_In; discriminate).
  assert (Hxw : x <> last (z :: l) 0).
  { intros E. apply NoDup_cons_iff in Hnd as [Hx _]. apply Hx. rewrite E. exact Hw'. }
  destruct (Hc x (or_introl eq_refl)) as [Hn _].
  set (w := last (z :: l) 0) in *.
  exists x. rewrite Hd, Eh, Et. split; [reflexivity|]. split; [congruence|].
  split; [unfold both_nonnull, is_nonnull; rewrite Eh, Et; reflexivity|]. split; [exact Hn|].
  unfold task_deque_pop. mrun. rewrite Hd, Eh, Et. mrun.
  unfold ptr_eqb. rewrite (proj2 (Nat.eqb_neq x w) Hxw). mrun. rewrite Hn. reflexivity.
Qed.

Lemma filter_runnable_unlinks_all_witness :
  rep (tasks cex_state) (dq cex_state (0, Low)) [1; 2; 3] /\ NoDup [1; 2; 3] /\
  (forall x, In x [1; 2; 3] -> (fun _ : nat => true) x = true) /\ length [1; 2; 3] < 10 /\
  exists s', task_deque_filter_runnable (fun _ => true) 10 (0, Low) cex_state = Some (true, s') /\
    dq s' (0, Low) = dq cex_state (0, Low) /\
    (forall x, In x [1; 2; 3] -> next (tasks s' x) = None /\ prev (tasks s' x) = None) /\
    (2 <= length [1; 2; 3] -> exists x, head (dq s' (0, Low)) = Some x /\
       tail (dq s' (0, Low)) <> Some x /\ both_nonnull (dq s' (0, Low)) = true /\
       next (tasks s' x) = None /\ task_deque_pop (0, Low) s' = None).
Proof.
  assert (Hr : rep (tasks cex_state) (dq cex_state (0, Low)) [1; 2; 3])
    by exact (wf_rep _ _ (reach_wf _ _ _ cex_reach) (0, Low)).
  assert (Hn : NoDup [1; 2; 3]) by (repeat constructor; simpl; intuition discriminate).
  assert (Ht : forall x, In x [1; 2; 3] -> (fun _ : nat => true) x = true) by reflexivity.
  split; [exact Hr|]. split; [exact Hn|]. split; [exact Ht|]. split; [simpl; lia|].
  apply (filter_runnable_unlinks_all (fun _ => true) 10 cex_state (0, Low) [1; 2; 3] Hr Hn Ht).
  simpl; lia.
Defined.

End TaskQueueExtFacts.

Module ContextExtFacts.
Import Context.

Lemma example_ctx_inv : ctx_inv example_ctx.
Proof.
  intros t. unfold example_ctx. simpl. destruct (Nat.eqb_spec t 1).
  - split; [repeat constructor; simpl; tauto|].
    intros c [<-|[]]. split; [congruence | lia].
  - split; [constructor | intros c []].
Qed.

(** X9: [dart__tasking__context_adjust_size] with a page size [2^k] rounds up
    to the next multiple of the page: the result is the smallest multiple
    of the page size that is at least [size]. (The model computes in [Z];
    the [size_t] computation agrees while [size + page_size - 1] does not
    wrap around.) *)
Theorem context_adjust_size_rounds_up k size :
  (0 <= k)%Z ->
  let r := dart__tasking__context_adjust_size (2 ^ k) size in
  (r mod 2 ^ k = 0)%Z /\ (size <= r < size + 2 ^ k)%Z /\
  (forall m, (m mod 2 ^ k = 0)%Z -> (size <= m)%Z -> (r <= m)%Z).
Proof.
  intros Hk r.
  assert (Hp : (0 < 2 ^ k)%Z) by (apply Z.pow_pos_nonneg; lia).
  assert (Er : r = ((size + (2 ^ k - 1)) / 2 ^ k * 2 ^ k)%Z).
  { unfold r, dart__tasking__context_adjust_size.
    replace (2 ^ k - 1)%Z with (Z.ones k) by (rewrite Z.ones_equiv; lia).
    rewrite <- Z.ldiff_land, Z.ldiff_ones_r by exact Hk.
    rewrite Z.shiftl_mul_pow2, Z.shiftr_div_pow2 by exact Hk. reflexivity. }
  clearbody r. subst r.
  set (p := (2 ^ k)%Z) in *.
  pose proof (Z.div_mod (size + (p - 1)) p ltac:(lia)) as Hdm.
  pose proof (Z.mod_pos_bound (size + (p - 1)) p Hp) as Hb.
  split; [apply Z.mod_mul; lia|]. split; [lia|].
  intros m Hm Hs.
  pose proof (Z.div_mod m p ltac:(lia)) as Hm'. rewrite Hm, Z.add_0_r in Hm'.
  assert (Hq : ((size + (p - 1)) / p <= m / p)%Z).
  { apply Z.lt_succ_r. apply (Z.mul_lt_mono_pos_r p); [lia|]. nia. }
  nia.
Qed.

Lemma context_adjust_size_rounds_up_witness :
  (0 <= 12)%Z /\
  let r := dart__tasking__context_adjust_size (2 ^ 12) 5000 in
  (r mod 2 ^ 12 = 0)%Z /\ (5000 <= r < 5000 + 2 ^ 12)%Z /\
  (forall m, (m mod 2 ^ 12 = 0)%Z -> (5000 <= m)%Z -> (r <= m)%Z).
Proof.
  split; [lia|]. apply (context_adjust_size_rounds_up 12 5000). lia.
Defined.

Lemma create_owner t s c s1 : ctx_inv s ->
  dart__tasking__context_create t s = (c, s1) ->
  owner s1 c = t /\ (forall t', ~ In c (ctxlist s1 t')) /\ c < next_ctx s1 /\ ctx_inv s1.
Proof.
  intros Hinv Hc. unfold dart__tasking__context_create in Hc.
  destruct (ctxlist s t) as [|c0 rest] eqn:E.
  - unfold dart__tasking__context_allocate in Hc. injection Hc as <- <-. simpl.
    rewrite Nat.eqb_refl. split; [reflexivity|]. split; [|split; [lia|]].
    + intros t' Hin. destruct (Hinv t') as [_ Ho]. destruct (Ho _ Hin). lia.
    + intros t'. simpl. destruct (Hinv t') as [Hn Ho]. split; [exact Hn|].
      intros c' Hc'. destruct (Ho c' Hc') as [E' L]. destruct (Nat.eqb_spec c' (next_ctx s)); [lia|].
      split; [exact E'|lia].
  - injection Hc as <- <-. simpl.
    destruct (Hinv t) as [Hn Ho]. rewrite E in Hn, Ho.
    destruct (Ho c0 (or_introl eq_refl)) as [Eo Lc].
    split; [exact Eo|]. split; [|split; [exact Lc|]].
    + intros t' Hin. destruct (Nat.eqb_spec t' t).
      * subst t'. inversion Hn; contradiction.
      * destruct (Hinv t') as [_ Ho']. destruct (Ho' _ Hin). congruence.
    + intros t'. simpl. destruct (Nat.eqb_spec t' t).
      * subst t'. inversion Hn; subst. split; [assumption|].
        intros c' Hc'. apply Ho. right. exact Hc'.
      * apply Hinv.
Qed.

(** X10: Reuse: a context that thread [t] has obtained from [context_create]
    and released again is the context the next [context_create] on [t]
    returns, and the free lists are then as they were before the
    release. *)
Theorem context_release_create_reuse t s c s1 :
  ctx_inv s -> dart__tasking__context_create t s = (c, s1) ->
  let s3 := snd (dart__tasking__context_create t (dart__tasking__context_release c s1)) in
  fst (dart__tasking__context_create t (dart__tasking__context_release c s1)) = c /\
  (forall t', ctxlist s3 t' = ctxlist s1 t') /\ next_ctx s3 = next_ctx s1.
Proof.
  intros Hinv Hc s3. destruct (create_owner t s c s1 Hinv Hc) as (Ho & _).
  unfold s3, dart__tasking__context_create, dart__tasking__context_release, ctx_push. simpl.
  rewrite Ho, Nat.eqb_refl. simpl. split; [reflexivity|]. split; [|reflexivity].
  intros t'. destruct (Nat.eqb_spec t' t); [subst; reflexivity|reflexivity].
Qed.

Lemma context_release_create_reuse_witness :
  ctx_inv example_ctx /\
  dart__tasking__context_create 1 example_ctx = (0, snd (dart__tasking__context_create 1 example_ctx)) /\
  let s1 := snd (dart__tasking__context_create 1 example_ctx) in
  let s3 := snd (dart__tasking__context_create 1 (dart__tasking__context_release 0 s1)) in
  fst (dart__tasking__context_create 1 (dart__tasking__context_release 0 s1)) = 0 /\
  (forall t', ctxlist s3 t' = ctxlist s1 t') /\ next_ctx s3 = next_ctx s1.
Proof.
  split; [exact example_ctx_inv|]. split; [reflexivity|].
  exact (context_release_create_reuse 1 example_ctx 0 _ example_ctx_inv eq_refl).
Defined.

(** X11: No context is handed out twice: two successive [context_create]
    calls, on the same thread or on two threads, return two different
    contexts when nothing is released in between. *)
Theorem context_create_distinct t t' s c1 s1 c2 s2 :
  ctx_inv s -> dart__tasking__context_create t s = (c1, s1) ->
  dart__tasking__context_create t' s1 = (c2, s2) -> c1 <> c2.
Proof.
  intros Hinv H1 H2. destruct (create_owner t s c1 s1 Hinv H1) as (_ & Hn & Hl & Hinv1).
  unfold dart__tasking__context_create in H2. destruct (ctxlist s1 t') as [|c rest] eqn:E.
  - unfold dart__tasking__context_allocate in H2. injection H2 as <- _. lia.
  - injection H2 as <- _. intros ->. apply (Hn t'). rewrite E. left. reflexivity.
Qed.

Lemma context_create_distinct_witness :
  let s1 := snd (dart__tasking__context_create 1 example_ctx) in
  let s2 := snd (dart__tasking__context_create 1 s1) in
  ctx_inv example_ctx /\ dart__tasking__context_create 1 example_ctx = (0, s1) /\
  dart__tasking__context_create 1 s1 = (1, s2) /\ 0 <> 1.
Proof.
  intros s1 s2. split; [exact example_ctx_inv|]. split; [reflexivity|]. split; [reflexivity|].
  exact (context_create_distinct 1 1 example_ctx 0 s1 1 s2 example_ctx_inv eq_refl eq_refl).
Defined.

End ContextExtFacts.

Module MempoolExtFacts.
Import Mempool MempoolFacts.

Lemma find_in_first ps size l p :
  find_mem_pool_in ps size l = Some p -> forall l', find_mem_pool_in ps size (l ++ l') = Some p.
Proof.
  induction l as [|q l IH]; simpl; [discriminate|].
  destruct (Nat.eqb size (ps q)); [auto|]. intros H l'. apply IH, H.
Qed.

(** What [allocate_from_mempool] does, in one place: the pool [p] it takes
    the element from is the first pool of the size in the list, after the
    call; and the element carries the magic word and [p] as its pool. *)
Lemma alloc_spec size s e s1 : pool_inv s ->
  allocate_from_mempool size s = (e, s1) ->
  exists p, find_mem_pool size s1 = Some p /\ elem_pool s1 e = p /\
    elem_magic s1 e = MEMPOOL_MAGIC_NUM /\ pool_size s1 p = size /\ e < next_elem s1 /\
    (find_mem_pool size s <> None -> mem_pool s1 = mem_pool s) /\
    (find_mem_pool size s = None -> mem_pool s1 = p :: mem_pool s /\ p = next_pool s) /\
    next_pool s1 = (if find_mem_pool size s then next_pool s else S (next_pool s)) /\
    (forall q, pool_size s1 q = (if find_mem_pool size s then pool_size s q
                                 else if Nat.eqb q (next_pool s) then size else pool_size s q)) /\
    pool_inv s1.
Proof.
  intros [Hel Hpl] Ha. unfold allocate_from_mempool in Ha.
  destruct (find_mem_pool size s) as [p|] eqn:F.
  - destruct (find_in_spec _ _ _ _ F) as [Hs Hin].
    destruct (pool_elems s p) as [|e0 rest] eqn:Pe; injection Ha as <- <-; exists p; simpl.
    + rewrite !Nat.eqb_refl. unfold find_mem_pool in *. simpl.
      split; [exact F|]. split; [reflexivity|]. split; [reflexivity|]. split; [exact Hs|].
      split; [lia|]. split; [reflexivity|]. split; [discriminate|]. split; [reflexivity|].
      split; [reflexivity|]. split.
      * intros q e' He'. destruct (Hel q e' He') as (H1 & H2 & H3).
        simpl. destruct (Nat.eqb_spec e' (next_elem s)); [lia|]. split; [exact H1|]. split; [exact H2|]. lia.
      * exact Hpl.
    + destruct (Hel p e0) as (H1 & H2 & H3); [rewrite Pe; left; reflexivity|].
      split; [exact F|]. split; [exact H1|]. split; [exact H2|]. split; [exact Hs|].
      split; [exact H3|]. split; [reflexivity|]. split; [discriminate|]. split; [reflexivity|].
      split; [reflexivity|]. split.
      * intros q e' He'. simpl in He'. destruct (Nat.eqb_spec q p).
        -- subst q. apply Hel. rewrite Pe. right. exact He'.
        -- apply Hel, He'.
      * exact Hpl.
  - unfold new_mem_pool in Ha. simpl in Ha. rewrite Nat.eqb_refl in Ha.
    injection Ha as <- <-. exists (next_pool s). simpl. rewrite !Nat.eqb_refl.
    unfold find_mem_pool. simpl. rewrite !Nat.eqb_refl.
    split; [reflexivity|]. split; [reflexivity|]. split; [reflexivity|]. split; [reflexivity|].
    split; [lia|]. split; [congruence|]. split; [auto|]. split; [reflexivity|].
    split; [reflexivity|]. split.
    + intros q e' He'. simpl in He'. destruct (Nat.eqb_spec q (next_pool s)); [destruct He'|].
      destruct (Hel q e' He') as (H1 & H2 & H3).
      simpl. destruct (Nat.eqb_spec e' (next_elem s)); [lia|]. split; [exact H1|]. split; [exact H2|]. lia.
    + simpl. intros q [<-|Hq]; [lia|]. specialize (Hpl q Hq). lia.
Qed.

Lemma return_elems e s s1 : return_to_mempool e s = Some s1 ->
  mem_pool s1 = mem_pool s /\ pool_size s1 = pool_size s /\
  pool_elems s1 (elem_pool s e) = e :: pool_elems s (elem_pool s e) /\
  (forall q, q <> elem_pool s e -> pool_elems s1 q = pool_elems s q) /\
  elem_pool s1 = elem_pool s /\ elem_magic s1 = elem_magic s /\ next_elem s1 = next_elem s /\
  next_pool s1 = next_pool s.
Proof.
  unfold return_to_mempool. destruct (negb _); [discriminate|]. intros [= <-]. simpl.
  rewrite Nat.eqb_refl. split; [reflexivity|]. split; [reflexivity|]. split; [reflexivity|].
  split; [|auto]. intros q Hq. apply Nat.eqb_neq in Hq. rewrite Hq. reflexivity.
Qed.

Lemma alloc_pop size s p e rest :
  find_mem_pool size s = Some p -> pool_elems s p = e :: rest ->
  fst (allocate_from_mempool size s) = e /\
  mem_pool (snd (allocate_from_mempool size s)) = mem_pool s /\
  (forall q, pool_elems (snd (allocate_from_mempool size s)) q =
             if Nat.eqb q p then rest else pool_elems s q) /\
  elem_pool (snd (allocate_from_mempool size s)) = elem_pool s /\
  elem_magic (snd (allocate_from_mempool size s)) = elem_magic s /\
  pool_size (snd (allocate_from_mempool size s)) = pool_size s /\
  next_elem (snd (allocate_from_mempool size s)) = next_elem s.
Proof.
  intros F Pe. unfold allocate_from_mempool. rewrite F, Pe. simpl. auto 8.
Qed.

(** X12: Round trip: the buffer that [allocate_from_mempool] hands out for a
    size is, once given back with [return_to_mempool], what the next
    allocation of that size returns; after it every pool holds the free
    elements it held after the first allocation. *)
Theorem mempool_return_allocate_roundtrip size s e s1 :
  pool_inv s -> allocate_from_mempool size s = (e, s1) ->
  exists s2, return_to_mempool e s1 = Some s2 /\
    fst (allocate_from_mempool size s2) = e /\
    mem_pool (snd (allocate_from_mempool size s2)) = mem_pool s1 /\
    (forall q, pool_elems (snd (allocate_from_mempool size s2)) q = pool_elems s1 q).
Proof.
  intros Hinv Ha.
  destruct (alloc_spec size s e s1 Hinv Ha) as (p & F & Ep & Em & _).
  assert (Hr : exists s2, return_to_mempool e s1 = Some s2).
  { unfold return_to_mempool. rewrite Em, Z.eqb_refl. eexists; reflexivity. }
  destruct Hr as [s2 Hr]. exists s2. split; [exact Hr|].
  destruct (return_elems e s1 s2 Hr) as (M & Ps & Pe & Po & _).
  rewrite Ep in Pe, Po.
  assert (F2 : find_mem_pool size s2 = Some p) by (unfold find_mem_pool; rewrite M, Ps; exact F).
  destruct (alloc_pop size s2 p e (pool_elems s1 p) F2 Pe) as (E1 & E2 & E3 & _).
  split; [exact E1|]. split; [rewrite E2; exact M|].
  intros q. rewrite E3. destruct (Nat.eqb_spec q p); [subst; reflexivity|]. apply Po; assumption.
Qed.

Lemma mempool_return_allocate_roundtrip_witness :
  let e := fst (allocate_from_mempool 64 empty_pools) in
  let s1 := snd (allocate_from_mempool 64 empty_pools) in
  pool_inv empty_pools /\ allocate_from_mempool 64 empty_pools = (e, s1) /\
  exists s2, return_to_mempool e s1 = Some s2 /\
    fst (allocate_from_mempool 64 s2) = e /\
    mem_pool (snd (allocate_from_mempool 64 s2)) = mem_pool s1 /\
    (forall q, pool_elems (snd (allocate_from_mempool 64 s2)) q = pool_elems s1 q).
Proof.
  intros e s1.
  assert (H : pool_inv empty_pools) by (split; simpl; intros; contradiction).
  split; [exact H|]. split; [reflexivity|].
  exact (mempool_return_allocate_roundtrip 64 empty_pools e s1 H eq_refl).
Defined.

(** X13: One pool per size: [allocate_from_mempool] keeps the pool invariant
    and never creates a second pool for a size, so the sizes of the pools
    stay distinct; it creates a pool only when there was none of the size.
    [return_to_mempool] changes neither the pools nor their sizes. *)
Theorem mempool_one_pool_per_size size s :
  pool_inv s -> NoDup (map (pool_size s) (mem_pool s)) ->
  let s1 := snd (allocate_from_mempool size s) in
  pool_inv s1 /\ NoDup (map (pool_size s1) (mem_pool s1)) /\
  (find_mem_pool size s <> None -> mem_pool s1 = mem_pool s) /\
  (forall e s2, return_to_mempool e s1 = Some s2 ->
     mem_pool s2 = mem_pool s1 /\ pool_size s2 = pool_size s1).
Proof.
  intros Hinv Hnd s1.
  destruct (allocate_from_mempool size s) as [e s1'] eqn:Ha. simpl in s1. subst s1.
  destruct (alloc_spec size s e s1' Hinv Ha) as (p & F & _ & _ & _ & _ & Hsame & Hnew & _ & Hps & Hinv1).
  split; [exact Hinv1|]. split; [|split; [exact Hsame|]].
  - destruct (find_mem_pool size s) as [p0|] eqn:F0.
    + rewrite Hsame by discriminate. rewrite (map_ext_in _ (pool_size s)); [exact Hnd|].
      intros q _. rewrite Hps. reflexivity.
    + destruct (Hnew eq_refl) as [M ->]. rewrite M. simpl. constructor.
      * rewrite Hps, Nat.eqb_refl. intros Hin. apply in_map_iff in Hin as (q & Eq & Hq).
        rewrite Hps in Eq. destruct (Nat.eqb_spec q (next_pool s)).
        -- subst q. destruct Hinv as [_ Hpl]. specialize (Hpl _ Hq). lia.
        -- assert (Hf : find_mem_pool size s <> None).
           { clear -Eq Hq. unfold find_mem_pool. induction (mem_pool s) as [|a l IH]; simpl; [destruct Hq|].
             destruct (Nat.eqb_spec size (pool_size s a)); [discriminate|].
             destruct Hq as [->|Hq]; [congruence|]. apply IH, Hq. }
           exact (Hf F0).
      * rewrite (map_ext_in _ (pool_size s)); [exact Hnd|].
        intros q Hq. rewrite Hps. destruct (Nat.eqb_spec q (next_pool s)); [|reflexivity].
        subst q. destruct Hinv as [_ Hpl]. specialize (Hpl _ Hq). lia.
  - intros e' s2 Hr. destruct (return_elems e' s1' s2 Hr) as (M & Ps & _). auto.
Qed.

Lemma mempool_one_pool_per_size_witness :
  pool_inv empty_pools /\ NoDup (map (pool_size empty_pools) (mem_pool empty_pools)) /\
  let s1 := snd (allocate_from_mempool 64 empty_pools) in
  pool_inv s1 /\ NoDup (map (pool_size s1) (mem_pool s1)) /\
  (find_mem_pool 64 empty_pools <> None -> mem_pool s1 = mem_pool empty_pools) /\
  (forall e s2, return_to_mempool e s1 = Some s2 ->
     mem_pool s2 = mem_pool s1 /\ pool_size s2 = pool_size s1).
Proof.
  assert (H : pool_inv empty_pools) by (split; simpl; intros; contradiction).
  assert (Hn : NoDup (map (pool_size empty_pools) (mem_pool empty_pools))) by constructor.
  split; [exact H|]. split; [exact Hn|].
  exact (mempool_one_pool_per_size 64 empty_pools H Hn).
Defined.

(** X14: [return_to_mempool] does not detect a buffer returned twice: both
    calls succeed, the element is then twice on its pool's free list, and
    the next two allocations of the size hand out the same buffer. *)
Theorem mempool_double_return size s e s1 :
  pool_inv s -> allocate_from_mempool size s = (e, s1) ->
  exists s2 s3, return_to_mempool e s1 = Some s2 /\ return_to_mempool e s2 = Some s3 /\
    fst (allocate_from_mempool size s3) = e /\
    fst (allocate_from_mempool size (snd (allocate_from_mempool size s3))) = e.
Proof.
  intros Hinv Ha.
  destruct (alloc_spec size s e s1 Hinv Ha) as (p & F & Ep & Em & _).
  assert (Hr : exists s2, return_to_mempool e s1 = Some s2).
  { unfold return_to_mempool. rewrite Em, Z.eqb_refl. eexists; reflexivity. }
  destruct Hr as [s2 Hr2].
  destruct (return_elems e s1 s2 Hr2) as (M2 & Ps2 & Pe2 & _ & Ep2 & Em2 & _).
  assert (Hr : exists s3, return_to_mempool e s2 = Some s3).
  { unfold return_to_mempool. rewrite Em2, Em, Z.eqb_refl. eexists; reflexivity. }
  destruct Hr as [s3 Hr3]. exists s2, s3. split; [exact Hr2|]. split; [exact Hr3|].
  destruct (return_elems e s2 s3 Hr3) as (M3 & Ps3 & Pe3 & _).
  rewrite Ep2, Ep in Pe3. rewrite Ep in Pe2. rewrite Pe2 in Pe3.
  assert (F3 : find_mem_pool size s3 = Some p) by (unfold find_mem_pool; rewrite M3, M2, Ps3, Ps2; exact F).
  destruct (alloc_pop size s3 p e _ F3 Pe3) as (E1 & E2 & E3 & _ & _ & E6 & _).
  split; [exact E1|].
  assert (F4 : find_mem_pool size (snd (allocate_from_mempool size s3)) = Some p)
    by (unfold find_mem_pool; rewrite E2, E6; exact F3).
  assert (P4 : pool_elems (snd (allocate_from_mempool size s3)) p = e :: pool_elems s1 p)
    by (rewrite E3, Nat.eqb_refl; reflexivity).
  exact (proj1 (alloc_pop size _ p e _ F4 P4)).
Qed.

Lemma mempool_double_return_witness :
  let e := fst (allocate_from_mempool 64 empty_pools) in
  let s1 := snd (allocate_from_mempool 64 empty_pools) in
  pool_inv empty_pools /\ allocate_from_mempool 64 empty_pools = (e, s1) /\
  exists s2 s3, return_to_mempool e s1 = Some s2 /\ return_to_mempool e s2 = Some s3 /\
    fst (allocate_from_mempool 64 s3) = e /\
    fst (allocate_from_mempool 64 (snd (allocate_from_mempool 64 s3))) = e.
Proof.
  intros e s1.
  assert (H : pool_inv empty_pools) by (split; simpl; intros; contradiction).
  split; [exact H|]. split; [reflexivity|].
  exact (mempool_double_return 64 empty_pools e s1 H eq_refl).
Defined.

End MempoolExtFacts.

Module AmsgExtFacts.
Import DartTypes Amsg AmsgExt.

Lemma openq_send_inv mc ds ss bs : send_inv (dart_amsg_sendrecv_openq mc ds ss bs).
Proof.
  unfold send_inv, dart_amsg_sendrecv_openq; simpl. rewrite repeat_length.
  split; [reflexivity|]. split; [lia|]. intros i _. rewrite nth_repeat. split; [lia|reflexivity].
Qed.

Lemma list_set_length {A} (l : list A) i x : length (list_set l i x) = length l.
Proof. revert i; induction l as [|y l IH]; intros [|i]; simpl; auto. Qed.

Lemma nth_list_set_eq {A} (l : list A) i x d : i < length l -> nth i (list_set l i x) d = x.
Proof.
  revert i; induction l as [|y l IH]; intros [|i] H; simpl in *; try lia; auto.
  apply IH; lia.
Qed.

Lemma nth_list_set_neq {A} (l : list A) i j x d : j <> i -> nth j (list_set l i x) d = nth j l d.
Proof.
  revert i j; induction l as [|y l IH]; intros [|i] [|j] H; simpl; try reflexivity; try congruence.
  apply IH. congruence.
Qed.

Lemma nth_list_set_cases {A} (l : list A) i j x d :
  nth j (list_set l i x) d = x \/ nth j (list_set l i x) d = nth j l d.
Proof.
  destruct (Nat.eq_dec j i) as [->|Hne]; [|right; apply nth_list_set_neq, Hne].
  destruct (Nat.lt_ge_cases i (length l)) as [Hl|Hl].
  - left. apply nth_list_set_eq, Hl.
  - right. rewrite !nth_overflow; [reflexivity|lia|rewrite list_set_length; lia].
Qed.

Lemma cnt_cons y l : cnt (y :: l) = (if is_req y then 1 else 0) + cnt l.
Proof. unfold cnt. simpl. destruct (is_req y); reflexivity. Qed.

Lemma is_req_false r : is_req r = false <-> r = MPI_REQUEST_NULL.
Proof. destruct r; simpl; split; congruence. Qed.

Lemma cnt_set l i x : i < length l ->
  cnt (list_set l i x) + (if is_req (nth i l MPI_REQUEST_NULL) then 1 else 0) =
  cnt l + (if is_req x then 1 else 0).
Proof.
  revert i; induction l as [|y l IH]; intros [|i] H; simpl in *; try lia.
  - rewrite !cnt_cons. lia.
  - rewrite !cnt_cons. specialize (IH i ltac:(lia)). lia.
Qed.

Lemma prefix_cnt l : forall m, m <= length l ->
  (forall j, j < length l -> (is_req (nth j l MPI_REQUEST_NULL) = true <-> j < m)) ->
  cnt l = m.
Proof.
  induction l as [|y l IH]; intros m Hm H; simpl in *; [unfold cnt; simpl; lia|].
  rewrite cnt_cons, (IH (m - 1)).
  - specialize (H 0 ltac:(lia)). simpl in H.
    destruct (is_req y); [assert (0 < m) by (apply H; reflexivity); lia|].
    destruct m; [reflexivity|]. assert (false = true) by (apply H; lia). discriminate.
  - lia.
  - intros j Hj. rewrite (H (S j) ltac:(lia)). simpl. lia.
Qed.

Lemma cnt_zero l : cnt l = 0 -> forall j, is_req (nth j l MPI_REQUEST_NULL) = false.
Proof.
  induction l as [|y l IH]; intros H j; [destruct j; reflexivity|].
  rewrite cnt_cons in H. destruct (is_req y) eqn:E; [lia|].
  destruct j; simpl; [exact E|]. apply IH. lia.
Qed.

Lemma testsome_in reqs n : forall i j,
  In j (testsome_from i n reqs) <->
  (i <= j < i + n /\ nth j reqs MPI_REQUEST_NULL = MPI_ACTIVE true).
Proof.
  induction n as [|n IH]; intros i j; simpl; [split; [intros []|lia]|].
  assert (Hstep : (S i <= j < S i + n /\ nth j reqs MPI_REQUEST_NULL = MPI_ACTIVE true) <->
                  (i <= j < i + S n /\ nth j reqs MPI_REQUEST_NULL = MPI_ACTIVE true /\ j <> i)).
  { split; [intros [? ?]; repeat split; auto; lia|intros (? & ? & ?); split; [lia|auto]]. }
  destruct (nth i reqs MPI_REQUEST_NULL) as [|[|]] eqn:E.
  - rewrite IH, Hstep. split; [tauto|]. intros [Hj Hn]. split; [exact Hj|]. split; [exact Hn|].
    intros ->. congruence.
  - simpl. rewrite IH, Hstep. split.
    + intros [->|(Hj & Hn & _)]; [split; [lia|exact E]|split; [exact Hj|exact Hn]].
    + intros [Hj Hn]. destruct (Nat.eq_dec j i) as [->|Hne]; [left; reflexivity|].
      right. split; [exact Hj|]. split; [exact Hn|exact Hne].
  - rewrite IH, Hstep. split; [tauto|]. intros [Hj Hn]. split; [exact Hj|]. split; [exact Hn|].
    intros ->. congruence.
Qed.

Lemma sorted_from_weaken l : forall i i', i <= i' -> sorted_from i' l -> sorted_from i l.
Proof. induction l as [|x l IH]; simpl; [auto|]. intros i i' Hi [Hx Hl]. split; [lia|exact Hl]. Qed.

Lemma sorted_from_ge l : forall i j, sorted_from i l -> In j l -> i <= j.
Proof.
  induction l as [|x l IH]; simpl; [tauto|].
  intros i j [Hx Hl] [->|Hj]; [exact Hx|]. specialize (IH _ _ Hl Hj). lia.
Qed.

Lemma sorted_from_nodup l : forall i, sorted_from i l -> NoDup l.
Proof.
  induction l as [|x l IH]; simpl; intros i; [constructor|]. intros [Hx Hl]. constructor.
  - intros Hin. pose proof (sorted_from_ge _ _ _ Hl Hin). lia.
  - exact (IH _ Hl).
Qed.

Lemma testsome_sorted reqs n : forall i, sorted_from i (testsome_from i n reqs).
Proof.
  induction n as [|n IH]; intros i; simpl; [exact I|].
  destruct (nth i reqs MPI_REQUEST_NULL) as [|[|]].
  - apply (sorted_from_weaken _ i (S i)); [lia|apply IH].
  - split; [lia|apply IH].
  - apply (sorted_from_weaken _ i (S i)); [lia|apply IH].
Qed.

Lemma fold_null_length os : forall reqs,
  length (fold_left (fun r i => list_set r i MPI_REQUEST_NULL) os reqs) = length reqs.
Proof. induction os as [|i os IH]; intros reqs; simpl; [reflexivity|]. rewrite IH. apply list_set_length. Qed.

Lemma fold_null_notin os : forall reqs j, ~ In j os ->
  nth j (fold_left (fun r i => list_set r i MPI_REQUEST_NULL) os reqs) MPI_REQUEST_NULL =
  nth j reqs MPI_REQUEST_NULL.
Proof.
  induction os as [|i os IH]; intros reqs j Hj; simpl; [reflexivity|].
  rewrite IH by (simpl in Hj; tauto). apply nth_list_set_neq. simpl in Hj. intuition.
Qed.

Lemma fold_null_in os : forall reqs j, In j os ->
  nth j (fold_left (fun r i => list_set r i MPI_REQUEST_NULL) os reqs) MPI_REQUEST_NULL =
  MPI_REQUEST_NULL.
Proof.
  induction os as [|i os IH]; intros reqs j Hj; simpl; [destruct Hj|].
  destruct (in_dec Nat.eq_dec j os) as [Hin|Hn]; [apply IH, Hin|].
  rewrite fold_null_notin by exact Hn. destruct Hj as [->|Hj]; [|contradiction].
  destruct (nth_list_set_cases reqs j j MPI_REQUEST_NULL MPI_REQUEST_NULL) as [E|E]; rewrite E;
    [reflexivity|].
  destruct (Nat.lt_ge_cases j (length reqs)) as [Hl|Hl].
  - rewrite nth_list_set_eq in E by exact Hl. rewrite <- E. reflexivity.
  - apply nth_overflow. exact Hl.
Qed.

Lemma fold_null_cnt os : forall reqs, NoDup os ->
  (forall j, In j os -> j < length reqs /\ is_req (nth j reqs MPI_REQUEST_NULL) = true) ->
  cnt (fold_left (fun r i => list_set r i MPI_REQUEST_NULL) os reqs) + length os = cnt reqs.
Proof.
  induction os as [|i os IH]; intros reqs Hnd H; simpl; [lia|].
  inversion Hnd as [|? ? Hi Hnd']; subst.
  destruct (H i (or_introl eq_refl)) as [Hil Hir].
  pose proof (cnt_set reqs i MPI_REQUEST_NULL Hil) as Hc. rewrite Hir in Hc. simpl in Hc.
  rewrite Nat.add_succ_r, IH; [lia|exact Hnd'|].
  intros j Hj. rewrite list_set_length, nth_list_set_neq by (intros ->; contradiction).
  apply H. right. exact Hj.
Qed.

Lemma skip_null_spec d r fuel : forall b, b <= fuel ->
  skip_null fuel b d r <= b /\
  (forall j, skip_null fuel b d r < j -> j <= b -> nth j r MPI_REQUEST_NULL = MPI_REQUEST_NULL) /\
  (d < skip_null fuel b d r -> nth (skip_null fuel b d r) r MPI_REQUEST_NULL <> MPI_REQUEST_NULL).
Proof.
  induction fuel as [|f IH]; intros b Hb; simpl.
  - split; [lia|]. split; intros; lia.
  - destruct (Nat.ltb_spec d b).
    + destruct (nth b r MPI_REQUEST_NULL) eqn:E.
      * destruct (IH (b - 1)) as (H1 & H2 & H3); [lia|]. split; [lia|]. split; [|exact H3].
        intros j Hj1 Hj2. destruct (Nat.eq_dec j b) as [->|]; [exact E|apply H2; lia].
      * split; [lia|]. split; [intros; lia|]. intros _. rewrite E. discriminate.
    + split; [lia|]. split; intros; lia.
Qed.

(** The end of the compaction loop: once every remaining finished index is
    at or above [b], the slots holding a request form a prefix. *)
Lemma prefix_final tp os b r : b < length r ->
  (forall j, b < j -> nth j r MPI_REQUEST_NULL = MPI_REQUEST_NULL) ->
  (forall j, j <= b -> (is_req (nth j r MPI_REQUEST_NULL) = true <-> j < tp /\ ~ In j os)) ->
  (forall j, In j os -> b <= j) ->
  exists m, m <= length r /\
    forall j, j < length r -> (is_req (nth j r MPI_REQUEST_NULL) = true <-> j < m).
Proof.
  intros Hb Habove Hbelow Hos.
  destruct (in_dec Nat.eq_dec b os) as [Hin|Hn].
  - exists (Nat.min tp b). split; [lia|]. intros j Hj.
    destruct (lt_eq_lt_dec j b) as [[Hlt|Heq]|Hgt].
    + rewrite Hbelow by lia. split; [lia|]. intros Hm. split; [lia|].
      intros Hj'. specialize (Hos _ Hj'). lia.
    + subst j. rewrite Hbelow by lia. split; [tauto|lia].
    + rewrite Habove by exact Hgt. simpl. split; [discriminate|lia].
  - exists (Nat.min tp (S b)). split; [lia|]. intros j Hj.
    destruct (Nat.le_gt_cases j b) as [Hle|Hgt].
    + rewrite Hbelow by exact Hle. split; [lia|]. intros Hm. split; [lia|].
      intros Hj'. destruct (Nat.eq_dec j b) as [->|Hne]; [contradiction|].
      specialize (Hos _ Hj'). lia.
    + rewrite Habove by exact Hgt. simpl. split; [discriminate|lia].
Qed.

(** The loop of [amsgq_test_sendreqs_unsafe] that moves requests from the
    back into the freed slots: with the finished indices [os] (increasing,
    below [tp]) and the requests still in flight [K], it ends with the
    [K] requests in a prefix of the ring, and no slot holding a completed
    request. *)
Lemma compact_spec tp K os : forall b r,
  b < length r ->
  (forall j, b < j -> nth j r MPI_REQUEST_NULL = MPI_REQUEST_NULL) ->
  (forall j, j <= b -> (is_req (nth j r MPI_REQUEST_NULL) = true <-> j < tp /\ ~ In j os)) ->
  (forall j, nth j r MPI_REQUEST_NULL <> MPI_ACTIVE true) ->
  cnt r = K ->
  sorted_from 0 os -> (forall j, In j os -> j < tp) ->
  length (compact os b r) = length r /\
  (forall j, nth j (compact os b r) MPI_REQUEST_NULL <> MPI_ACTIVE true) /\
  cnt (compact os b r) = K /\
  exists m, m <= length r /\
    forall j, j < length r -> (is_req (nth j (compact os b r) MPI_REQUEST_NULL) = true <-> j < m).
Proof.
  induction os as [|d rest IH]; intros b r Hb Habove Hbelow Hact Hcnt Hsort Htp.
  - simpl. split; [reflexivity|]. split; [exact Hact|]. split; [exact Hcnt|].
    apply (prefix_final tp [] b r Hb Habove Hbelow). intros _ [].
  - simpl. destruct (skip_null_spec d r b b (le_n b)) as (Hb'le & Hnulls & Hnz).
    set (b' := skip_null b b d r) in *.
    destruct Hsort as [_ Hsort].
    assert (Hrest : forall j, In j rest -> S d <= j) by (intros j Hj; exact (sorted_from_ge _ _ _ Hsort Hj)).
    destruct (Nat.leb_spec b' d) as [Hle|Hgt].
    + split; [reflexivity|]. split; [exact Hact|]. split; [exact Hcnt|].
      apply (prefix_final tp (d :: rest) b' r); [lia| | |].
      * intros j Hj. destruct (Nat.le_gt_cases j b); [apply Hnulls; lia|apply Habove; lia].
      * intros j Hj. apply Hbelow. lia.
      * intros j [<-|Hj]; [exact Hle|specialize (Hrest _ Hj); lia].
    + set (r1 := list_set r d (nth b' r MPI_REQUEST_NULL)).
      set (r2 := list_set r1 b' MPI_REQUEST_NULL).
      assert (Hb'r : b' < length r) by lia.
      assert (Hl1 : length r1 = length r) by apply list_set_length.
      assert (Hl2 : length r2 = length r) by (unfold r2; rewrite list_set_length; exact Hl1).
      assert (Hr2b : nth b' r2 MPI_REQUEST_NULL = MPI_REQUEST_NULL)
        by (apply nth_list_set_eq; lia).
      assert (Hr2o : forall j, j <> b' -> nth j r2 MPI_REQUEST_NULL = nth j r1 MPI_REQUEST_NULL)
        by (intros j Hj; apply nth_list_set_neq, Hj).
      assert (Hr1d : nth d r1 MPI_REQUEST_NULL = nth b' r MPI_REQUEST_NULL)
        by (apply nth_list_set_eq; lia).
      assert (Hr1o : forall j, j <> d -> nth j r1 MPI_REQUEST_NULL = nth j r MPI_REQUEST_NULL)
        by (intros j Hj; apply nth_list_set_neq, Hj).
      assert (Hreqb' : is_req (nth b' r MPI_REQUEST_NULL) = true).
      { destruct (is_req (nth b' r MPI_REQUEST_NULL)) eqn:E; [reflexivity|]. apply is_req_false in E. exfalso. exact (Hnz Hgt E). }
      assert (Hreqd : is_req (nth d r MPI_REQUEST_NULL) = false).
      { destruct (is_req (nth d r MPI_REQUEST_NULL)) eqn:E; [|reflexivity].
        destruct (Hbelow d ltac:(lia)) as [H1 _]. destruct (H1 E) as [_ H2].
        exfalso. apply H2. left. reflexivity. }
      destruct (IH (b' - 1) r2) as (IH1 & IH2 & IH3 & IH4).
      * lia.
      * intros j Hj. destruct (Nat.eq_dec j b') as [->|Hne]; [exact Hr2b|].
        rewrite Hr2o, Hr1o by lia.
        destruct (Nat.le_gt_cases j b); [apply Hnulls; lia|apply Habove; lia].
      * intros j Hj. rewrite Hr2o by lia. destruct (Nat.eq_dec j d) as [->|Hne].
        -- rewrite Hr1d, Hreqb'. split; [intros _; split; [apply Htp; left; reflexivity|]|tauto].
           intros Hin. specialize (Hrest _ Hin). lia.
        -- rewrite Hr1o by exact Hne. rewrite Hbelow by lia. simpl.
           split; intros [H1 H2]; (split; [exact H1|]); intros H3; apply H2;
             [right; exact H3|destruct H3 as [H3|H3]; [congruence|exact H3]].
      * intros j. destruct (Nat.eq_dec j b') as [->|Hne]; [rewrite Hr2b; discriminate|].
        rewrite Hr2o by exact Hne. destruct (Nat.eq_dec j d) as [->|Hne'];
          [rewrite Hr1d; apply Hact|rewrite Hr1o by exact Hne'; apply Hact].
      * pose proof (cnt_set r1 b' MPI_REQUEST_NULL ltac:(lia)) as C2.
        pose proof (cnt_set r d (nth b' r MPI_REQUEST_NULL) ltac:(lia)) as C1.
        fold r2 in C2. fold r1 in C1.
        rewrite Hr1o in C2 by lia. rewrite Hreqb' in C1, C2. rewrite Hreqd in C1. simpl in C1, C2. lia.
      * apply (sorted_from_weaken _ 0 (S d)); [lia|exact Hsort].
      * intros j Hj. apply Htp. right. exact Hj.
      * rewrite Hl2 in IH1, IH4. split; [exact IH1|]. split; [exact IH2|]. split; [exact IH3|exact IH4].
Qed.

(** [amsgq_test_sendreqs_unsafe] in one place: it keeps the shape of the
    send ring, frees exactly the completed requests, and leaves no slot with
    a completed request. *)
Lemma test_sendreqs_spec q :
  send_inv q ->
  let k := length (testsome_from 0 (send_tailpos q) (send_reqs q)) in
  let q' := snd (amsgq_test_sendreqs_unsafe q) in
  send_inv q' /\ msg_count q' = msg_count q /\ direct_send q' = direct_send q /\
  sync_send q' = sync_send q /\ send_count q' = send_count q /\
  send_tailpos q' = send_tailpos q - k /\
  (forall j, nth j (send_reqs q') MPI_REQUEST_NULL <> MPI_ACTIVE true) /\
  (k = 0 -> amsgq_test_sendreqs_unsafe q = (DART_ERR_AGAIN, q)) /\
  (0 < k -> fst (amsgq_test_sendreqs_unsafe q) = DART_OK).
Proof.
  intros (Hlen & Htp & Hnull). cbv zeta.
  remember (testsome_from 0 (send_tailpos q) (send_reqs q)) as os eqn:Eos.
  set (tp := send_tailpos q) in *. set (mc := msg_count q) in *.
  set (reqs := send_reqs q) in *.
  set (r0 := fold_left (fun r i => list_set r i MPI_REQUEST_NULL) os reqs).
  assert (F1 : forall j, In j os -> j < tp /\ nth j reqs MPI_REQUEST_NULL = MPI_ACTIVE true).
  { intros j Hj. rewrite Eos in Hj. apply testsome_in in Hj. split; [lia|tauto]. }
  assert (Fs : sorted_from 0 os) by (rewrite Eos; apply testsome_sorted).
  assert (F3 : cnt reqs = tp).
  { apply prefix_cnt; [lia|]. intros j Hj. rewrite Hlen in Hj.
    destruct (is_req (nth j reqs MPI_REQUEST_NULL)) eqn:E.
    - split; [|reflexivity]. intros _. destruct (Nat.lt_ge_cases j tp) as [H|H]; [exact H|].
      apply (Hnull j Hj) in H. rewrite H in E. discriminate.
    - apply is_req_false, (Hnull j Hj) in E. split; [discriminate|lia]. }
  assert (F4 : cnt r0 + length os = tp).
  { rewrite <- F3. apply fold_null_cnt; [exact (sorted_from_nodup _ _ Fs)|].
    intros j Hj. destruct (F1 j Hj) as [H1 H2]. rewrite H2. split; [lia|reflexivity]. }
  assert (F5 : forall j, nth j r0 MPI_REQUEST_NULL <> MPI_ACTIVE true).
  { intros j. destruct (in_dec Nat.eq_dec j os) as [Hin|Hn].
    - unfold r0. rewrite fold_null_in by exact Hin. discriminate.
    - unfold r0. rewrite fold_null_notin by exact Hn. intros E. apply Hn.
      rewrite Eos. apply testsome_in. split; [|exact E]. split; [lia|].
      destruct (Nat.lt_ge_cases j mc) as [Hj|Hj].
      + destruct (Nat.lt_ge_cases j tp) as [H|H]; [lia|].
        apply (Hnull j Hj) in H. rewrite H in E. discriminate.
      + rewrite nth_overflow in E by lia. discriminate. }
  assert (F6 : length r0 = mc) by (unfold r0; rewrite fold_null_length; exact Hlen).
  unfold amsgq_test_sendreqs_unsafe, mpi_testsome. fold tp reqs mc. rewrite <- Eos. fold r0.
  destruct (Nat.ltb_spec 0 (length os)) as [Hk|Hk].
  - destruct (Nat.eqb_spec (length os) tp) as [Hall|Hsome]; simpl.
    + split; [|repeat split; auto; lia].
      unfold send_inv. simpl. split; [exact F6|]. split; [lia|].
      intros i Hi. split; [lia|]. intros _. apply is_req_false, cnt_zero. lia.
    + destruct os as [|d0 os0]; [simpl in Hk; lia|].
      assert (Hmc : 0 < mc) by (destruct (F1 d0 (or_introl eq_refl)); lia).
      destruct (compact_spec tp (tp - length (d0 :: os0)) (d0 :: os0) (mc - 1) r0)
        as (C1 & C2 & C3 & m & Hm & C4).
      * lia.
      * intros j Hj. apply nth_overflow. lia.
      * intros j Hj. destruct (in_dec Nat.eq_dec j (d0 :: os0)) as [Hin|Hn].
        -- unfold r0. rewrite fold_null_in by exact Hin. simpl. split; [discriminate|tauto].
        -- unfold r0. rewrite fold_null_notin by exact Hn.
           destruct (is_req (nth j reqs MPI_REQUEST_NULL)) eqn:E.
           ++ split; [intros _|reflexivity]. split; [|exact Hn].
              destruct (Nat.lt_ge_cases j tp) as [H|H]; [exact H|].
              apply (Hnull j ltac:(lia)) in H. rewrite H in E. discriminate.
           ++ apply is_req_false in E. apply (Hnull j ltac:(lia)) in E.
              split; [discriminate|lia].
      * exact F5.
      * lia.
      * exact Fs.
      * intros j Hj. apply F1, Hj.
      * assert (Hcm : cnt (compact (d0 :: os0) (mc - 1) r0) = m).
        { apply prefix_cnt; [rewrite C1; exact Hm|]. rewrite C1. exact C4. }
        split; [|repeat split; auto; lia].
        unfold send_inv. cbn [set_send send_reqs send_tailpos msg_count]. split; [lia|]. split; [lia|].
        intros i Hi. rewrite <- is_req_false. specialize (C4 i ltac:(lia)).
        assert (Hm' : m = tp - length (d0 :: os0)) by congruence. rewrite <- Hm'.
        destruct (is_req _) eqn:E.
        -- split; [discriminate|]. intros H. assert (i < m) by (apply C4; reflexivity). lia.
        -- split; [intros _|reflexivity]. destruct (Nat.lt_ge_cases i m) as [H'|H']; [|exact H'].
           apply C4 in H'. discriminate.
  - destruct os as [|d0 os0]; [|simpl in Hk; lia]. simpl.
    split; [unfold send_inv; auto|].
    split; [reflexivity|]. split; [reflexivity|]. split; [reflexivity|]. split; [reflexivity|].
    split; [lia|]. split; [exact F5|]. split; [reflexivity|]. simpl. lia.
Qed.

(** X15: [amsgq_test_sendreqs_unsafe] keeps the send ring in shape: afterwards
    the requests still in flight fill slots [0 .. send_tailpos - 1], the
    tail moved back by the number of completed requests, and no slot holds a
    completed request. It answers [DART_ERR_AGAIN], changing nothing, when no
    request has completed. *)
Theorem amsg_test_sendreqs_compacts q :
  send_inv q ->
  send_inv (snd (amsgq_test_sendreqs_unsafe q)) /\
  send_tailpos (snd (amsgq_test_sendreqs_unsafe q)) =
    send_tailpos q - length (testsome_from 0 (send_tailpos q) (send_reqs q)) /\
  (forall j, nth j (send_reqs (snd (amsgq_test_sendreqs_unsafe q))) MPI_REQUEST_NULL
             <> MPI_ACTIVE true) /\
  (testsome_from 0 (send_tailpos q) (send_reqs q) = [] ->
   amsgq_test_sendreqs_unsafe q = (DART_ERR_AGAIN, q)) /\
  (testsome_from 0 (send_tailpos q) (send_reqs q) <> [] ->
   fst (amsgq_test_sendreqs_unsafe q) = DART_OK).
Proof.
  intros Hinv. destruct (test_sendreqs_spec q Hinv) as (H1 & _ & _ & _ & _ & H6 & H7 & H8 & H9).
  split; [exact H1|]. split; [exact H6|]. split; [exact H7|]. split.
  - intros E. apply H8. rewrite E. reflexivity.
  - intros E. apply H9. destruct (testsome_from _ _ _); [contradiction|simpl; lia].
Qed.

Lemma amsg_test_sendreqs_compacts_witness :
  let q := {| send_reqs := [MPI_ACTIVE true; MPI_ACTIVE false; MPI_ACTIVE true; MPI_REQUEST_NULL];
              send_tailpos := 3; msg_count := 4;
              send_count := fun _ => 0; recv_count := fun _ => 0;
              direct_send := false; sync_send := false; processing_locked := false;
              recv_batches := []; processed := [] |} in
  send_reqs (snd (amsgq_test_sendreqs_unsafe q)) =
    [MPI_ACTIVE false; MPI_REQUEST_NULL; MPI_REQUEST_NULL; MPI_REQUEST_NULL] /\
  send_tailpos (snd (amsgq_test_sendreqs_unsafe q)) = 1 /\
  send_inv q /\
  send_inv (snd (amsgq_test_sendreqs_unsafe q)) /\
  send_tailpos (snd (amsgq_test_sendreqs_unsafe q)) =
    send_tailpos q - length (testsome_from 0 (send_tailpos q) (send_reqs q)) /\
  (forall j, nth j (send_reqs (snd (amsgq_test_sendreqs_unsafe q))) MPI_REQUEST_NULL
             <> MPI_ACTIVE true) /\
  (testsome_from 0 (send_tailpos q) (send_reqs q) = [] ->
   amsgq_test_sendreqs_unsafe q = (DART_ERR_AGAIN, q)) /\
  (testsome_from 0 (send_tailpos q) (send_reqs q) <> [] ->
   fst (amsgq_test_sendreqs_unsafe q) = DART_OK).
Proof.
  intros q.
  assert (Hq : send_inv q).
  { unfold send_inv, q; simpl. split; [reflexivity|]. split; [lia|].
    intros i Hi. destruct i as [|[|[|[|i]]]]; simpl; split; intros H;
      try discriminate; try lia; reflexivity. }
  split; [vm_compute; reflexivity|]. split; [vm_compute; reflexivity|].
  split; [exact Hq|].
  exact (amsg_test_sendreqs_compacts q Hq).
Defined.

Lemma testsome_length reqs n : forall i, length (testsome_from i n reqs) <= n.
Proof.
  induction n as [|n IH]; intros i; simpl; [lia|].
  destruct (nth i reqs MPI_REQUEST_NULL) as [|[|]]; simpl; specialize (IH (S i)); lia.
Qed.

Lemma ret_eqb_true a b : ret_eqb a b = true -> a = b.
Proof. destruct a, b; simpl; congruence. Qed.

Lemma send_inv_append q sc : send_inv q -> send_tailpos q < msg_count q ->
  send_inv (set_send q (list_set (send_reqs q) (send_tailpos q) (MPI_ACTIVE false))
              (S (send_tailpos q)) sc).
Proof.
  intros (Hl & Ht & Hn) Hlt. unfold send_inv, set_send; cbn [send_reqs send_tailpos msg_count].
  rewrite list_set_length. split; [exact Hl|]. split; [lia|].
  intros i Hi. destruct (Nat.eq_dec i (send_tailpos q)) as [->|Hne].
  - rewrite nth_list_set_eq by lia. split; [discriminate|lia].
  - rewrite nth_list_set_neq by exact Hne. rewrite (Hn i Hi). lia.
Qed.

(** [trysend] in one place, from a well-shaped send ring. *)
Lemma trysend_spec target mpi_ret q : send_inv q ->
  exists r q', dart_amsg_sendrecv_trysend target mpi_ret q = Some (r, q') /\
    send_inv q' /\ msg_count q' = msg_count q /\ direct_send q' = direct_send q /\
    (direct_send q = false -> send_tailpos q < msg_count q ->
       send_tailpos q' = S (send_tailpos q) /\
       nth (send_tailpos q) (send_reqs q') MPI_REQUEST_NULL = MPI_ACTIVE false /\
       forall j, j <> send_tailpos q ->
         nth j (send_reqs q') MPI_REQUEST_NULL = nth j (send_reqs q) MPI_REQUEST_NULL).
Proof.
  intros Hinv. pose proof Hinv as (Hl & Ht & Hn).
  unfold dart_amsg_sendrecv_trysend. apply Nat.leb_le in Ht. rewrite Ht. simpl.
  apply Nat.leb_le in Ht.
  destruct (direct_send q) eqn:Hd; simpl.
  - exists (if negb (Z.eqb mpi_ret MPI_SUCCESS) then DART_ERR_AGAIN else DART_OK).
    exists (set_send q (send_reqs q) (send_tailpos q)
              (if sync_send q then send_count q else incr (send_count q) target)).
    split; [destruct (negb _); reflexivity|]. split; [exact Hinv|].
    split; [reflexivity|]. split; [exact Hd|]. discriminate.
  - destruct (Nat.eqb_spec (send_tailpos q) (msg_count q)) as [Heq|Hne].
    + destruct (test_sendreqs_spec q Hinv) as (H1 & H2 & H3 & H4 & H5 & H6 & H7 & H8 & H9).
      destruct (amsgq_test_sendreqs_unsafe q) as [r1 q1] eqn:Et. simpl in *.
      destruct (ret_eqb r1 DART_OK) eqn:Er; simpl.
      * apply ret_eqb_true in Er. subst r1.
        assert (Hk : length (testsome_from 0 (send_tailpos q) (send_reqs q)) <> 0)
          by (intros E; specialize (H8 E); discriminate).
        pose proof (testsome_length (send_reqs q) (send_tailpos q) 0).
        assert (Hlt : send_tailpos q1 < msg_count q1) by lia.
        exists (if negb (Z.eqb mpi_ret MPI_SUCCESS) then DART_ERR_AGAIN else DART_OK).
        eexists. split; [destruct (negb _); reflexivity|].
        split; [apply send_inv_append; [exact H1|exact Hlt]|].
        split; [exact H2|]. split; [simpl; congruence|]. intros _ Hc. lia.
      * eexists _, _. split; [reflexivity|]. split; [exact H1|]. split; [exact H2|].
        split; [congruence|]. intros _ Hc. lia.
    + simpl. exists (if negb (Z.eqb mpi_ret MPI_SUCCESS) then DART_ERR_AGAIN else DART_OK).
      eexists. split; [destruct (negb (Z.eqb mpi_ret MPI_SUCCESS)); reflexivity|].
      split; [apply send_inv_append; [exact Hinv|lia]|].
      split; [reflexivity|]. split; [simpl; exact Hd|]. intros _ Hc. simpl.
      split; [reflexivity|]. split; [apply nth_list_set_eq; lia|].
      intros j Hj. apply nth_list_set_neq, Hj.
Qed.

(** X16: From a well-shaped send ring, [trysend] never fails its
    [DART_ASSERT(send_tailpos <= msg_count)] and leaves the ring well-shaped;
    when a slot is free it takes slot [send_tailpos] for the new request,
    in flight, and moves the tail by one, leaving the other slots alone. *)
Theorem amsg_trysend_keeps_inv target mpi_ret q : send_inv q ->
  exists r q', dart_amsg_sendrecv_trysend target mpi_ret q = Some (r, q') /\
    send_inv q' /\ msg_count q' = msg_count q /\
    (direct_send q = false -> send_tailpos q < msg_count q ->
       send_tailpos q' = S (send_tailpos q) /\
       nth (send_tailpos q) (send_reqs q') MPI_REQUEST_NULL = MPI_ACTIVE false /\
       forall j, j <> send_tailpos q ->
         nth j (send_reqs q') MPI_REQUEST_NULL = nth j (send_reqs q) MPI_REQUEST_NULL).
Proof.
  intros Hinv. destruct (trysend_spec target mpi_ret q Hinv) as (r & q' & H1 & H2 & H3 & _ & H5).
  exists r, q'. auto.
Qed.

Lemma amsg_trysend_keeps_inv_witness :
  let q := dart_amsg_sendrecv_openq 4 false false [] in
  send_inv q /\
  exists r q', dart_amsg_sendrecv_trysend 1 MPI_SUCCESS q = Some (r, q') /\
    send_inv q' /\ msg_count q' = msg_count q /\
    (direct_send q = false -> send_tailpos q < msg_count q ->
       send_tailpos q' = S (send_tailpos q) /\
       nth (send_tailpos q) (send_reqs q') MPI_REQUEST_NULL = MPI_ACTIVE false /\
       forall j, j <> send_tailpos q ->
         nth j (send_reqs q') MPI_REQUEST_NULL = nth j (send_reqs q) MPI_REQUEST_NULL).
Proof.
  intros q. split; [apply openq_send_inv|].
  exact (amsg_trysend_keeps_inv 1 MPI_SUCCESS q (openq_send_inv _ _ _ _)).
Defined.

Lemma mpi_complete_inv j q : send_inv q -> send_inv (mpi_complete j q).
Proof.
  unfold mpi_complete. destruct (nth j (send_reqs q) MPI_REQUEST_NULL) as [|[]] eqn:Ej;
    try (intros H; exact H).
  intros (Hl & Ht & Hs). unfold send_inv, set_send; simpl.
  rewrite list_set_length. split; [exact Hl|]. split; [exact Ht|].
  intros i Hi. rewrite <- (Hs i Hi).
  destruct (Nat.eq_dec i j) as [->|Hne].
  - rewrite nth_list_set_eq by lia. rewrite Ej. split; discriminate.
  - rewrite nth_list_set_neq by exact Hne. reflexivity.
Qed.

Lemma run_send_inv ops : forall q, send_inv q -> exists q', run_send ops q = Some q' /\ send_inv q'.
Proof.
  induction ops as [|[t r| |j] ops IH]; intros q Hq; simpl.
  - exists q. auto.
  - destruct (trysend_spec t r q Hq) as (r' & q' & E & Hq' & _). rewrite E. apply IH, Hq'.
  - apply IH. apply (test_sendreqs_spec q Hq).
  - apply IH. apply (mpi_complete_inv j q Hq).
Qed.

(** X17: On a queue fresh from [dart_amsg_sendrecv_openq], any sequence of
    [trysend] and [amsgq_test_sendreqs_unsafe] calls, with MPI completing
    in-flight send requests at any points in between, keeps the send ring
    in shape, so the [DART_ASSERT] of [trysend] never fails. *)
Theorem amsg_send_assert_never_fails msg_count direct_send sync_send batches ops :
  exists q', run_send ops (dart_amsg_sendrecv_openq msg_count direct_send sync_send batches) = Some q'
    /\ send_inv q'.
Proof. apply run_send_inv, openq_send_inv. Qed.

Lemma fold_recv_count (ss : bool) (ms : list amsg) : forall (rc : nat -> nat) x,
  fold_left (fun rc m => if ss then rc else incr rc (msg_source m)) ms rc x =
  rc x + (if ss then 0 else from_count x ms).
Proof.
  induction ms as [|m ms IH]; intros rc x; simpl; [unfold from_count; simpl; destruct ss; lia|].
  rewrite IH. unfold from_count. simpl. destruct ss; [lia|].
  unfold incr. destruct (Nat.eqb_spec x (msg_source m)) as [->|Hne].
  - rewrite Nat.eqb_refl. simpl. lia.
  - destruct (Nat.eqb_spec (msg_source m) x); [congruence|]. reflexivity.
Qed.

Lemma from_count_app x a b : from_count x (a ++ b) = from_count x a + from_count x b.
Proof. unfold from_count. rewrite filter_app, length_app. reflexivity. Qed.

Lemma process_round_cons q b rest : recv_batches q = b :: rest ->
  process_round q = (length b, set_recv q rest
    (fold_left (fun rc m => if sync_send q then rc else incr rc (msg_source m)) b (recv_count q))
    (processed q ++ map msg_payload b)).
Proof. intros E. unfold process_round. rewrite E. reflexivity. Qed.

Lemma processed_batches_step q b rest q'' b1 b2 :
  recv_batches q = b :: rest ->
  processed_batches (snd (process_round q)) q'' b1 b2 ->
  processed_batches q q'' (b :: b1) b2.
Proof.
  intros E. rewrite (process_round_cons q b rest E). simpl.
  unfold processed_batches, set_recv; cbn.
  intros (H1 & H2 & H3 & H4 & H5 & H6 & H7 & H8).
  split; [exact H1|]. split; [rewrite H2, map_app, app_assoc; reflexivity|].
  split; [|auto]. intros x. rewrite H3, fold_recv_count. unfold from_count.
  rewrite filter_app, length_app.
  destruct (sync_send q); lia.
Qed.

Lemma process_loop_blocking b1 b2 : forall fuel q,
  Forall (fun b => b <> []) b1 ->
  (recv_batches q = b1 ++ [] :: b2 \/ (recv_batches q = b1 /\ b2 = [])) ->
  length b1 <= fuel ->
  processed_batches q (process_loop fuel true q) b1 b2.
Proof.
  induction b1 as [|b b1 IH]; intros fuel q Hne Hb Hf.
  - destruct fuel; simpl; destruct Hb as [E|[E ->]]; simpl in E;
      unfold process_round; rewrite E; simpl;
      unfold processed_batches, set_recv; cbn; rewrite ?app_nil_r;
      repeat split; intros; try reflexivity; try assumption; destruct (sync_send q); lia.
  - inversion Hne as [|? ? Hb0 Hne']; subst.
    assert (E : recv_batches q = b :: (b1 ++ [] :: b2) \/ recv_batches q = b :: b1 /\ b2 = [])
      by (destruct Hb as [E|[E ->]]; [left|right]; rewrite E; auto).
    destruct fuel as [|f]; [simpl in Hf; lia|].
    assert (Ebr : exists rest, recv_batches q = b :: rest /\
              (rest = b1 ++ [] :: b2 \/ (rest = b1 /\ b2 = [])))
      by (destruct E as [E|[E ->]]; eexists; split; [exact E|left; reflexivity|exact E|right; auto]).
    destruct Ebr as (rest & Er & Hrest).
    simpl. rewrite (process_round_cons q b rest Er).
    destruct b as [|m b']; [contradiction|]. simpl.
    apply (processed_batches_step q (m :: b') rest); [exact Er|].
    rewrite (process_round_cons q (m :: b') rest Er). simpl.
    apply IH; [exact Hne'| |simpl in Hf; lia].
    unfold set_recv; simpl. exact Hrest.
Qed.

(** X18: Blocking processing, by a thread holding the processing mutex or when
    no other thread holds it, goes on while [MPI_Testsome] finds messages:
    it consumes every batch up to and including the first empty one, hands
    the payloads of those batches to [dart__amsgq__process_buffer] in order,
    and counts them per source unless sends are synchronous. When no batch
    is empty, it consumes them all. *)
Theorem amsg_process_blocking_drains q has_lock b1 b2 :
  (has_lock = true \/ processing_locked q = false) ->
  Forall (fun b => b <> []) b1 ->
  (recv_batches q = b1 ++ [] :: b2 \/ (recv_batches q = b1 /\ b2 = [])) ->
  exists q', amsg_sendrecv_process_internal q true has_lock = Some (DART_OK, q') /\
    processed_batches q q' b1 b2.
Proof.
  intros Hl Hne Hb. unfold amsg_sendrecv_process_internal.
  assert (Hg : negb has_lock && processing_locked q = false)
    by (destruct Hl as [-> | ->]; [reflexivity|apply andb_false_r]).
  rewrite Hg. eexists. split; [reflexivity|].
  apply process_loop_blocking; [exact Hne|exact Hb|].
  destruct Hb as [E|[E _]]; rewrite E; [rewrite length_app; simpl; lia|lia].
Qed.

Lemma amsg_process_blocking_drains_witness :
  let q := dart_amsg_sendrecv_openq 4 false false
             [[mk_amsg 0 7; mk_amsg 1 8]; []; [mk_amsg 2 9]] in
  (false = true \/ processing_locked q = false) /\
  Forall (fun b => b <> []) [[mk_amsg 0 7; mk_amsg 1 8]] /\
  (recv_batches q = [[mk_amsg 0 7; mk_amsg 1 8]] ++ [] :: [[mk_amsg 2 9]] \/
   (recv_batches q = [[mk_amsg 0 7; mk_amsg 1 8]] /\ [[mk_amsg 2 9]] = [])) /\
  exists q', amsg_sendrecv_process_internal q true false = Some (DART_OK, q') /\
    processed_batches q q' [[mk_amsg 0 7; mk_amsg 1 8]] [[mk_amsg 2 9]].
Proof.
  intros q.
  assert (H1 : false = true \/ processing_locked q = false) by (right; reflexivity).
  assert (H2 : Forall (fun b => b <> []) [[mk_amsg 0 7; mk_amsg 1 8]])
    by (repeat constructor; discriminate).
  assert (H3 : recv_batches q = [[mk_amsg 0 7; mk_amsg 1 8]] ++ [] :: [[mk_amsg 2 9]] \/
               (recv_batches q = [[mk_amsg 0 7; mk_amsg 1 8]] /\ [[mk_amsg 2 9]] = []))
    by (left; reflexivity).
  split; [exact H1|]. split; [exact H2|]. split; [exact H3|].
  exact (amsg_process_blocking_drains q false _ _ H1 H2 H3).
Defined.

(** X19: [dart_amsg_sendrecv_process], when no other thread holds the
    processing mutex, runs one round: it consumes the next batch of received
    messages, even when more are waiting, and answers [DART_OK]; with no
    batch waiting it changes nothing. *)
Theorem amsg_process_one_batch q :
  processing_locked q = false ->
  (recv_batches q = [] -> dart_amsg_sendrecv_process q = Some (DART_OK, q)) /\
  (forall b rest, recv_batches q = b :: rest ->
     exists q', dart_amsg_sendrecv_process q = Some (DART_OK, q') /\
       processed_batches q q' [b] rest).
Proof.
  intros Hl. unfold dart_amsg_sendrecv_process, amsg_sendrecv_process_internal. rewrite Hl.
  simpl. split.
  - intros E. rewrite E. simpl. unfold process_round. rewrite E. reflexivity.
  - intros b rest E. eexists. split; [reflexivity|].
    rewrite E. cbn [length process_loop andb]. rewrite (process_round_cons q b rest E).
    unfold processed_batches, set_recv; cbn [recv_batches processed recv_count send_reqs
      send_tailpos send_count msg_count sync_send concat]. rewrite app_nil_r.
    split; [reflexivity|]. split; [reflexivity|]. split; [|auto].
    intros x. apply fold_recv_count.
Qed.

Lemma amsg_process_one_batch_witness :
  let q := dart_amsg_sendrecv_openq 4 false false [[mk_amsg 0 7]; [mk_amsg 2 9]] in
  processing_locked q = false /\
  (recv_batches q = [] -> dart_amsg_sendrecv_process q = Some (DART_OK, q)) /\
  (forall b rest, recv_batches q = b :: rest ->
     exists q', dart_amsg_sendrecv_process q = Some (DART_OK, q') /\
       processed_batches q q' [b] rest).
Proof.
  intros q. split; [reflexivity|].
  exact (amsg_process_one_batch q eq_refl).
Defined.

End AmsgExtFacts.

Module TaskAllocFacts.
Import TaskAlloc.

Lemma task_ref_eqb_refl t : task_ref_eqb t t = true.
Proof. unfold task_ref_eqb. rewrite !Nat.eqb_refl. reflexivity. Qed.

Lemma set_free_list_self s thr l : task_free_lists (set_free_list s thr l) thr = l.
Proof. simpl. rewrite Nat.eqb_refl. reflexivity. Qed.

Lemma set_free_list_other s thr l t : t <> thr ->
  task_free_lists (set_free_list s thr l) t = task_free_lists s t.
Proof. intros H. simpl. apply Nat.eqb_neq in H. rewrite H. reflexivity. Qed.

(** [allocate_task] on a thread with an empty free list and a pool at
    [pos], not the last slot: it takes slot [pos] of that pool. *)
Lemma alloc_from_pool thr s p pos :
  task_free_lists s thr = [] -> taskpool s thr = Some (p, pos) -> pos <> TASK_MEMPOOL_SIZE - 1 ->
  fst (allocate_task thr s) = (p, pos) /\
  task_free_lists (snd (allocate_task thr s)) = task_free_lists s /\
  taskpool (snd (allocate_task thr s)) thr = Some (p, S pos) /\
  next_pool_id (snd (allocate_task thr s)) = next_pool_id s.
Proof.
  intros Hf Hp Hpos. unfold allocate_task. rewrite Hf, Hp.
  apply Nat.eqb_neq in Hpos. rewrite Hpos. simpl. rewrite Nat.eqb_refl. auto.
Qed.

Lemma alloc_new_pool thr s :
  task_free_lists s thr = [] ->
  (taskpool s thr = None \/ exists p, taskpool s thr = Some (p, TASK_MEMPOOL_SIZE - 1)) ->
  fst (allocate_task thr s) = (next_pool_id s, 0) /\
  task_free_lists (snd (allocate_task thr s)) = task_free_lists s /\
  taskpool (snd (allocate_task thr s)) thr = Some (next_pool_id s, 1) /\
  next_pool_id (snd (allocate_task thr s)) = S (next_pool_id s).
Proof.
  intros Hf Hp. unfold allocate_task. rewrite Hf.
  destruct Hp as [Hp|[p Hp]]; rewrite Hp; [|rewrite Nat.eqb_refl]; simpl; rewrite Nat.eqb_refl; auto.
Qed.

Lemma alloc_n_from_pool thr p k : forall s pos,
  task_free_lists s thr = [] -> taskpool s thr = Some (p, pos) -> pos + k <= TASK_MEMPOOL_SIZE - 1 ->
  fst (alloc_n thr k s) = map (fun i => (p, pos + i)) (seq 0 k) /\
  task_free_lists (snd (alloc_n thr k s)) = task_free_lists s /\
  taskpool (snd (alloc_n thr k s)) thr = Some (p, pos + k) /\
  next_pool_id (snd (alloc_n thr k s)) = next_pool_id s.
Proof.
  induction k as [|k IH]; intros s pos Hf Hp Hk; simpl.
  - rewrite Nat.add_0_r. auto.
  - destruct (alloc_from_pool thr s p pos Hf Hp ltac:(unfold TASK_MEMPOOL_SIZE in *; lia))
      as (H1 & H2 & H3 & H4).
    destruct (allocate_task thr s) as [t s1] eqn:E. simpl in *.
    destruct (IH s1 (S pos)) as (I1 & I2 & I3 & I4); [congruence|exact H3|lia|].
    destruct (alloc_n thr k s1) as [ts s2]. simpl in *.
    rewrite I1, I2, I3, I4, H1, H2, H4. split; [|split; [reflexivity|split; [replace (pos + S k) with (S pos + k) by lia; reflexivity|reflexivity]]].
    rewrite Nat.add_0_r. f_equal. rewrite <- seq_shift, map_map.
    apply map_ext. intros i. f_equal. lia.
Qed.

Lemma alloc_n_add thr a b : forall s, alloc_n thr (a + b) s =
  let '(ts, s2) := alloc_n thr a s in let '(ts', s3) := alloc_n thr b s2 in (ts ++ ts', s3).
Proof.
  induction a as [|a IH]; intros s; simpl.
  - destruct (alloc_n thr b s). reflexivity.
  - destruct (allocate_task thr s) as [t s1]. rewrite IH.
    destruct (alloc_n thr a s1) as [ts s2]. destruct (alloc_n thr b s2) as [ts' s3]. reflexivity.
Qed.

Lemma alloc_inv_alloc thr s : alloc_inv s ->
  snd (fst (allocate_task thr s)) < TASK_MEMPOOL_SIZE - 1 /\ alloc_inv (snd (allocate_task thr s)).
Proof.
  intros [Hp Hf]. unfold allocate_task.
  destruct (task_free_lists s thr) as [|t rest] eqn:El.
  - assert (Hsplit : forall pool pos np, pos < TASK_MEMPOOL_SIZE - 1 ->
      snd (pool, pos) < TASK_MEMPOOL_SIZE - 1 /\
      alloc_inv {| task_free_lists := task_free_lists s;
                   taskpool := fun t => if Nat.eqb t thr then Some (pool, S pos) else taskpool s t;
                   owner := fun x => if task_ref_eqb x (pool, pos) then thr else owner s x;
                   next_pool_id := np |}).
    { intros pool pos np Hlt. split; [exact Hlt|]. unfold TASK_MEMPOOL_SIZE in *. split; simpl.
      - intros thr' p' pos'. destruct (Nat.eqb thr' thr); [intros [= <- <-]; lia|apply Hp].
      - exact Hf. }
    destruct (taskpool s thr) as [[p pos]|] eqn:Ep.
    + destruct (Nat.eqb_spec pos (TASK_MEMPOOL_SIZE - 1)).
      * apply Hsplit. unfold TASK_MEMPOOL_SIZE. lia.
      * apply Hsplit. specialize (Hp thr p pos Ep). lia.
    + apply Hsplit. unfold TASK_MEMPOOL_SIZE. lia.
  - simpl. split; [apply (Hf thr); rewrite El; left; reflexivity|].
    split; [exact Hp|]. intros thr' t'. simpl. destruct (Nat.eqb_spec thr' thr) as [->|].
    + intros Hin. apply (Hf thr). rewrite El. right. exact Hin.
    + apply Hf.
Qed.

(** X20: The last of the [TASK_MEMPOOL_SIZE] slots of a task memory pool is
    never used: [allocate_task] starts a new pool once [pos] reaches
    [TASK_MEMPOOL_SIZE - 1], so every task object it hands out, fresh or
    from a free list, lies in slots [0 .. TASK_MEMPOOL_SIZE - 2]. The
    invariant behind it holds at the start and is kept by allocation,
    destruction and dummy tasks. *)
Theorem allocate_task_last_slot_unused :
  alloc_inv alloc_init /\
  (forall thr s, alloc_inv s ->
     snd (fst (allocate_task thr s)) < TASK_MEMPOOL_SIZE - 1 /\
     alloc_inv (snd (allocate_task thr s)) /\
     alloc_inv (snd (dart__tasking__allocate_dummytask thr s))) /\
  (forall t s, alloc_inv s -> snd t < TASK_MEMPOOL_SIZE - 1 ->
     alloc_inv (dart__tasking__destroy_task t s)).
Proof.
  split; [split; simpl; [discriminate|tauto]|]. split.
  - intros thr s Hinv. destruct (alloc_inv_alloc thr s Hinv) as [H1 H2].
    split; [exact H1|]. split; [exact H2|].
    unfold dart__tasking__allocate_dummytask.
    destruct (allocate_task thr s) as [t s1]. simpl in *.
    destruct H2 as [Hp Hf]. split; simpl; [exact Hp|exact Hf].
  - intros t s [Hp Hf] Ht. split; [exact Hp|]. intros thr t'. simpl.
    destruct (Nat.eqb thr (owner s t)); [intros [<-|Hin]; [exact Ht|exact (Hf _ _ Hin)]|apply Hf].
Qed.

(** X21: A thread with an empty free list and no task memory pool makes its
    first [TASK_MEMPOOL_SIZE - 1] allocations from slots [0 .. 62] of one
    new pool, in order, and its next allocation from slot 0 of another new
    pool. *)
Theorem allocate_task_pool_batches thr s :
  task_free_lists s thr = [] -> taskpool s thr = None ->
  fst (alloc_n thr TASK_MEMPOOL_SIZE s) =
  map (fun i => (next_pool_id s, i)) (seq 0 (TASK_MEMPOOL_SIZE - 1)) ++ [(S (next_pool_id s), 0)].
Proof.
  intros Hf Hp.
  assert (Hsplit : forall n s0, alloc_n thr (S n) s0 =
    let '(t, s1) := allocate_task thr s0 in let '(ts, s2) := alloc_n thr n s1 in (t :: ts, s2))
    by reflexivity.
  change TASK_MEMPOOL_SIZE with (S 63). rewrite Hsplit.
  destruct (alloc_new_pool thr s Hf (or_introl Hp)) as (H1 & H2 & H3 & H4).
  destruct (allocate_task thr s) as [t s1] eqn:E. simpl in H1, H2, H3, H4. subst t.
  destruct (alloc_n_from_pool thr (next_pool_id s) 62 s1 1) as (I1 & I2 & I3 & I4);
    [congruence|exact H3|unfold TASK_MEMPOOL_SIZE; lia|].
  change (alloc_n thr 63 s1) with (alloc_n thr (62 + 1) s1). rewrite alloc_n_add.
  destruct (alloc_n thr 62 s1) as [ts s2] eqn:E2. simpl in I1, I2, I3, I4.
  simpl alloc_n.
  destruct (alloc_new_pool thr s2) as (J1 & J2 & J3 & J4);
    [congruence|right; exists (next_pool_id s); exact I3|].
  destruct (allocate_task thr s2) as [t' s3]. simpl in J1. subst t'. simpl.
  rewrite I1, I4, H4. reflexivity.
Qed.

Lemma allocate_task_pool_batches_witness :
  task_free_lists alloc_init 0 = [] /\ taskpool alloc_init 0 = None /\
  fst (alloc_n 0 TASK_MEMPOOL_SIZE alloc_init) =
  map (fun i => (next_pool_id alloc_init, i)) (seq 0 (TASK_MEMPOOL_SIZE - 1)) ++
    [(S (next_pool_id alloc_init), 0)].
Proof.
  split; [reflexivity|]. split; [reflexivity|].
  apply (allocate_task_pool_batches 0 alloc_init); reflexivity.
Defined.

(** X22: A task object fresh from a pool belongs to the thread that allocated
    it, and [dart__tasking__destroy_task] puts it on that thread's free
    list, leaving the other threads' lists alone. An object taken from the
    free list keeps its owner. *)
Theorem allocate_task_owner thr s :
  (task_free_lists s thr = [] ->
     owner (snd (allocate_task thr s)) (fst (allocate_task thr s)) = thr /\
     In (fst (allocate_task thr s))
        (task_free_lists (dart__tasking__destroy_task (fst (allocate_task thr s))
                                                      (snd (allocate_task thr s))) thr) /\
     forall thr', thr' <> thr ->
       task_free_lists (dart__tasking__destroy_task (fst (allocate_task thr s))
                                                    (snd (allocate_task thr s))) thr' =
       task_free_lists (snd (allocate_task thr s)) thr') /\
  (forall t rest, task_free_lists s thr = t :: rest ->
     fst (allocate_task thr s) = t /\ owner (snd (allocate_task thr s)) = owner s /\
     task_free_lists (snd (allocate_task thr s)) thr = rest).
Proof.
  split.
  - intros Hf.
    assert (Ho : owner (snd (allocate_task thr s)) (fst (allocate_task thr s)) = thr).
    { unfold allocate_task. rewrite Hf.
      destruct (match taskpool s thr with
                | Some (p, pos) => if Nat.eqb pos (TASK_MEMPOOL_SIZE - 1)
                                   then (next_pool_id s, 0, S (next_pool_id s))
                                   else (p, pos, next_pool_id s)
                | None => (next_pool_id s, 0, S (next_pool_id s)) end) as [[pool pos] np].
      simpl. rewrite task_ref_eqb_refl. reflexivity. }
    split; [exact Ho|]. unfold dart__tasking__destroy_task. rewrite Ho. split.
    + rewrite set_free_list_self. left. reflexivity.
    + intros thr' Hne. apply set_free_list_other, Hne.
  - intros t rest Hf. unfold allocate_task. rewrite Hf. simpl. rewrite Nat.eqb_refl. auto.
Qed.

(** X23: A dummy task has [owner] 0 after the [memset] of
    [dart__tasking__allocate_dummytask], whatever thread allocated it, so
    [dart__tasking__destroy_task] puts it on the free list of thread 0 and
    on no other. *)
Theorem dummytask_owner_zero thr s :
  owner (snd (dart__tasking__allocate_dummytask thr s)) (fst (dart__tasking__allocate_dummytask thr s)) = 0 /\
  In (fst (dart__tasking__allocate_dummytask thr s))
     (task_free_lists (dart__tasking__destroy_task (fst (dart__tasking__allocate_dummytask thr s))
                                                   (snd (dart__tasking__allocate_dummytask thr s))) 0) /\
  forall thr', thr' <> 0 ->
    task_free_lists (dart__tasking__destroy_task (fst (dart__tasking__allocate_dummytask thr s))
                                                 (snd (dart__tasking__allocate_dummytask thr s))) thr' =
    task_free_lists (snd (dart__tasking__allocate_dummytask thr s)) thr'.
Proof.
  assert (Ho : owner (snd (dart__tasking__allocate_dummytask thr s))
                     (fst (dart__tasking__allocate_dummytask thr s)) = 0).
  { unfold dart__tasking__allocate_dummytask. destruct (allocate_task thr s) as [t s1].
    simpl. rewrite task_ref_eqb_refl. reflexivity. }
  split; [exact Ho|]. unfold dart__tasking__destroy_task. rewrite Ho. split.
  - rewrite set_free_list_self. left. reflexivity.
  - intros thr' Hne. apply set_free_list_other, Hne.
Qed.

End TaskAllocFacts.

Module ProgressFacts.
Import Progress.

(** X24: One call of [remote_progress]: on a single unit it never progresses;
    otherwise a forced call progresses and records the time, and an
    unforced call progresses exactly when at most
    [REMOTE_PROGRESS_INTERVAL_USEC] microseconds have passed since the last
    progress ([last_progress_ts + 1E4 >= now]), not when more have passed.
    A call that does not progress keeps the timestamp. *)
Theorem remote_progress_condition num_units c last_ts :
  (num_units = 1%Z -> remote_progress num_units c last_ts = (false, last_ts)) /\
  (num_units <> 1%Z -> force c = true -> remote_progress num_units c last_ts = (true, now_after c)) /\
  (num_units <> 1%Z -> force c = false ->
     (fst (remote_progress num_units c last_ts) = true <->
      (now_check c <= last_ts + REMOTE_PROGRESS_INTERVAL_USEC)%Z)) /\
  (fst (remote_progress num_units c last_ts) = false -> snd (remote_progress num_units c last_ts) = last_ts).
Proof.
  unfold remote_progress. split; [intros ->; reflexivity|]. split.
  - intros Hn Hf. apply Z.eqb_neq in Hn. rewrite Hn, Hf. reflexivity.
  - split.
    + intros Hn Hf. apply Z.eqb_neq in Hn. rewrite Hn, Hf. simpl.
      destruct (Z.geb_spec (last_ts + REMOTE_PROGRESS_INTERVAL_USEC) (now_check c));
        simpl; split; (lia || discriminate || auto).
    + destruct (Z.eqb num_units 1); [reflexivity|].
      destruct (force c || _); [discriminate|reflexivity].
Qed.

Lemma progress_run_stalled num_units calls : forall last_ts t0,
  (last_ts + REMOTE_PROGRESS_INTERVAL_USEC < t0)%Z -> times_from t0 calls ->
  Forall (fun c => force c = false) calls ->
  progress_run num_units calls last_ts = (0, last_ts).
Proof.
  induction calls as [|c cs IH]; intros last_ts t0 Ht Hmono Hf; simpl; [reflexivity|].
  destruct Hmono as [Hc Hmono]. inversion Hf as [|? ? Hfc Hf']; subst.
  assert (E : remote_progress num_units c last_ts = (false, last_ts)).
  { unfold remote_progress. destruct (Z.eqb num_units 1); [reflexivity|]. rewrite Hfc. simpl.
    destruct (Z.geb_spec (last_ts + REMOTE_PROGRESS_INTERVAL_USEC) (now_check c)); [lia|reflexivity]. }
  rewrite E. rewrite (IH last_ts (now_check c)); [reflexivity|lia|exact Hmono|exact Hf'].
Qed.

(** X25: Once more than [REMOTE_PROGRESS_INTERVAL_USEC] microseconds have
    passed since a thread's last progress, no later unforced call of
    [remote_progress] on it (at non-decreasing times) progresses again, and
    its timestamp stays where it was: only forced calls progress. *)
Theorem remote_progress_stalls num_units calls last_ts t0 :
  (last_ts + REMOTE_PROGRESS_INTERVAL_USEC < t0)%Z -> times_from t0 calls ->
  Forall (fun c => force c = false) calls ->
  progress_run num_units calls last_ts = (0, last_ts).
Proof. apply progress_run_stalled. Qed.

Lemma remote_progress_stalls_witness :
  let calls := [mk_call false 20000 20001; mk_call false 35000 35002] in
  (0 + REMOTE_PROGRESS_INTERVAL_USEC < 20000)%Z /\ times_from 20000 calls /\
  Forall (fun c => force c = false) calls /\
  progress_run 2 calls 0 = (0, 0%Z).
Proof.
  intros calls.
  assert (H1 : (0 + REMOTE_PROGRESS_INTERVAL_USEC < 20000)%Z)
    by (unfold REMOTE_PROGRESS_INTERVAL_USEC; lia).
  assert (H2 : times_from 20000 calls) by (simpl; lia).
  assert (H3 : Forall (fun c => force c = false) calls) by (repeat constructor).
  split; [exact H1|]. split; [exact H2|]. split; [exact H3|].
  exact (remote_progress_stalls 2 calls 0 20000 H1 H2 H3).
Defined.

End ProgressFacts.

Module WorkerFacts.
Import TaskQueue TaskQueueFacts Worker.

Lemma bind_some_inv {A B} (m : M A) (k : A -> M B) s r s' :
  bind m k s = Some (r, s') -> exists a s1, m s = Some (a, s1) /\ k a s1 = Some (r, s').
Proof.
  unfold bind. destruct (m s) as [[a s1]|]; [|discriminate]. eauto.
Qed.

Lemma deque_pop_result d s r s' :
  task_deque_pop d s = Some (r, s') ->
  r = head (dq s d) /\ (head (dq s d) = None -> s' = s).
Proof.
  unfold task_deque_pop. intros H.
  apply bind_some_inv in H as (dq0 & s1 & H1 & H2).
  unfold load_dq in H1. injection H1 as <- <-.
  apply bind_some_inv in H2 as (u & s2 & H2 & H3).
  apply bind_some_inv in H3 as (dq2 & s3 & H3 & H4).
  unfold load_dq in H3. injection H3 as <- <-.
  apply bind_some_inv in H4 as (u' & s4 & H4 & H5).
  unfold ret in H5. injection H5 as <- <-.
  split; [reflexivity|]. intros E. rewrite E in H2. simpl in H2.
  unfold ret in H2. injection H2 as _ <-.
  unfold assert in H4. destruct (_ || _) in H4; [|discriminate].
  unfold ret in H4. injection H4 as _ <-. reflexivity.
Qed.

Lemma deque_pop_none d s s' :
  task_deque_pop d s = Some (None, s') -> s' = s /\ head (dq s d) = None.
Proof.
  intros H. apply deque_pop_result in H as [E H]. rewrite <- E in H. auto.
Qed.

Lemma taskqueue_pop_none q s s' :
  dart_tasking_taskqueue_pop q s = Some (None, s') ->
  s' = s /\ head (dq s (q, High)) = None /\ head (dq s (q, Low)) = None.
Proof.
  unfold dart_tasking_taskqueue_pop, bind.
  destruct (task_deque_pop (q, High) s) as [[r s1]|] eqn:E1; [|discriminate].
  destruct r as [x|]; simpl.
  - unfold ret. discriminate.
  - intros H. apply deque_pop_none in E1 as [-> E1]. apply deque_pop_none in H as [-> H]. auto.
Qed.


Lemma next_task_thread_loop_none l l' :
  next_task_thread_loop l = (None, l') -> Forall (fun p => p = None) l /\ l' = l.
Proof.
  revert l'. induction l as [|x rest IH]; intros l' H.
  - simpl in H. injection H as <-. auto.
  - destruct x as [t|]; simpl in H; [discriminate H|].
    destruct (next_task_thread_loop rest) as [r r'] eqn:E.
    injection H as -> <-. destruct (IH _ eq_refl) as [Hall ->]. auto.
Qed.

Lemma next_task_thread_back_loop_none l l' :
  next_task_thread_back_loop l = (None, l') -> Forall (fun p => p = None) l /\ l' = l.
Proof.
  revert l'. induction l as [|x rest IH]; intros l' H.
  - simpl in H. injection H as <-. auto.
  - simpl in H. destruct (next_task_thread_back_loop rest) as [[t|] r'] eqn:E;
      [discriminate H|].
    destruct (IH _ eq_refl) as [Hall ->].
    destruct x as [t|]; [discriminate H|]. injection H as <-. auto.
Qed.

Lemma with_queue_self th : with_queue th (queue th) = th.
Proof. destruct th; reflexivity. Qed.

Lemma pool_set_same s t th x :
  thread_pool s t = Some th -> thread_pool (set_thread s t th) x = thread_pool s x.
Proof.
  intros H. unfold set_thread. simpl.
  destruct (Nat.eqb_spec x t) as [->|]; [rewrite H|]; reflexivity.
Qed.

Lemma task_queue_set s t th : task_queue (set_thread s t th) = task_queue s.
Proof. reflexivity. Qed.

Lemma steal_loop_none n me id pick fuel target s s' :
  steal_loop n me id pick fuel target s = Some (None, s') ->
  s' = s /\
  forall t x, In t (visits n id fuel target) -> thread_pool s t = Some x ->
    pick x = true -> Forall (fun p => p = None) (queue x).
Proof.
  revert target. induction fuel as [|f IH]; intros target H.
  - simpl in H. destruct (Nat.eqb target id) eqn:E; injection H as <-;
      split; auto; intros t x Hin; simpl in Hin; rewrite E in Hin; destruct Hin.
  - simpl in H. destruct (Nat.eqb target id) eqn:E.
    { injection H as <-. split; auto. intros t x Hin. simpl in Hin. rewrite E in Hin. destruct Hin. }
    assert (Hrec : steal_loop n me id pick f (next_target n target) s = Some (None, s') ->
      s' = s /\ forall t x, In t (visits n id (S f) target) -> thread_pool s t = Some x ->
        pick x = true -> (forall y, thread_pool s target = Some y -> pick y = true ->
          Forall (fun p => p = None) (queue y)) -> Forall (fun p => p = None) (queue x)).
    { intros H1. destruct (IH _ H1) as [-> Hv]. split; auto.
      intros t x Hin Hx Hp Htarget. simpl in Hin. rewrite E in Hin.
      destruct Hin as [<-|Hin]; [exact (Htarget x Hx Hp)|exact (Hv t x Hin Hx Hp)]. }
    destruct (thread_pool s target) as [y|] eqn:Ey.
    + destruct (pick y) eqn:Ep.
      * destruct (next_task_thread_back_loop (queue y)) as [[t|] q'] eqn:Eb.
        { destruct (me =? target), (thread_pool s me); discriminate H. }
        apply next_task_thread_back_loop_none in Eb as [Hy _].
        destruct (Hrec H) as [-> Hv]. split; auto.
        intros t x Hin Hx Hp. apply (Hv t x Hin Hx Hp).
        intros z Hz _. injection Hz as <-. exact Hy.
      * destruct (Hrec H) as [-> Hv]. split; auto.
        intros t x Hin Hx Hp. apply (Hv t x Hin Hx Hp).
        intros z Hz Hz'. injection Hz as <-. congruence.
    + destruct (Hrec H) as [-> Hv]. split; auto.
      intros t x Hin Hx Hp. apply (Hv t x Hin Hx Hp).
      intros z Hz _. discriminate Hz.
Qed.

Section Round.
Variable n : nat.

Definition dist (a b : nat) : nat := if Nat.leb a b then b - a else b + n - a.

Lemma dist_next a b :
  a < n -> b < n -> a <> b -> dist (next_target n a) b = dist a b - 1.
Proof.
  intros Ha Hb Hab. unfold dist, next_target.
  destruct (Nat.eqb_spec (S a) n);
  destruct (Nat.leb_spec a b); try destruct (Nat.leb_spec 0 b);
  try destruct (Nat.leb_spec (S a) b); lia.
Qed.

Lemma dist_lt a b : a < n -> b < n -> dist a b < n.
Proof. intros. unfold dist. destruct (Nat.leb_spec a b); lia. Qed.

Lemma next_target_lt a : a < n -> next_target n a < n.
Proof. intros. unfold next_target. destruct (Nat.eqb_spec (S a) n); lia. Qed.

Lemma visits_cover id t :
  forall fuel target, target < n -> t < n -> id < n ->
  dist target t < dist target id -> dist target t < fuel ->
  In t (visits n id fuel target).
Proof.
  induction fuel as [|f IH]; intros target Htg Ht Hid Hd Hf; [lia|].
  simpl. destruct (Nat.eqb_spec target id) as [->|Hne].
  { unfold dist in Hd. rewrite Nat.leb_refl in Hd. lia. }
  destruct (Nat.eq_dec target t) as [->|Hnt]; [left; reflexivity|right].
  assert (Hd0 : dist target t <> 0).
  { unfold dist. destruct (Nat.leb_spec target t); lia. }
  apply IH; auto using next_target_lt.
  - rewrite !dist_next by auto. lia.
  - rewrite dist_next by auto. lia.
Qed.

Lemma steal_start_covers id t :
  id < n -> t < n -> t <> id -> In t (visits n id n ((id + 1) mod n)).
Proof.
  intros Hid Ht Hne.
  assert (Hstart : (id + 1) mod n = next_target n id).
  { unfold next_target. destruct (Nat.eqb_spec (S id) n) as [E|E].
    - rewrite Nat.add_1_r, E. apply Nat.Div0.mod_same.
    - rewrite Nat.add_1_r. apply Nat.mod_small. lia. }
  rewrite Hstart.
  assert (Hdid : dist (next_target n id) id = n - 1).
  { unfold dist, next_target. destruct (Nat.eqb_spec (S id) n);
      [destruct (Nat.leb_spec 0 id)|destruct (Nat.leb_spec (S id) id)]; lia. }
  assert (Hinj : dist (next_target n id) t <> dist (next_target n id) id).
  { unfold dist, next_target. destruct (Nat.eqb_spec (S id) n);
      [destruct (Nat.leb_spec 0 id); destruct (Nat.leb_spec 0 t)
      |destruct (Nat.leb_spec (S id) id); destruct (Nat.leb_spec (S id) t)]; lia. }
  pose proof (dist_lt (next_target n id) t (next_target_lt id Hid) Ht).
  apply visits_cover; auto using next_target_lt; lia.
Qed.

End Round.

Lemma numa_loop_none nn numa fuel i ts ts' :
  numa_loop nn numa fuel i ts = Some (None, ts') ->
  ts' = ts /\
  forall j, i <= j -> j < i + fuel -> j < nn ->
    head (dq ts ((numa + j) mod nn, High)) = None /\ head (dq ts ((numa + j) mod nn, Low)) = None.
Proof.
  revert i ts. induction fuel as [|f IH]; intros i ts H.
  - simpl in H. unfold ret in H. injection H as <-. split; auto. intros; lia.
  - simpl in H. apply bind_some_inv in H as (task & ts1 & H1 & H2).
    destruct task as [x|]; simpl in H2.
    { unfold ret in H2. discriminate H2. }
    apply taskqueue_pop_none in H1 as (-> & Hh & Hl).
    destruct (Nat.ltb_spec (S i) nn).
    + destruct (IH _ _ H2) as [-> Hj]. split; auto.
      intros j Hij Hjf Hjn. destruct (Nat.eq_dec j i) as [->|]; auto.
      apply Hj; lia.
    + unfold ret in H2. injection H2 as <-. split; auto.
      intros j Hij Hjf Hjn. replace j with i by lia. auto.
Qed.

Lemma numa_loop_covers nn numa ts ts' q :
  numa < nn -> q < nn ->
  numa_loop nn numa nn 0 ts = Some (None, ts') ->
  ts' = ts /\ head (dq ts (q, High)) = None /\ head (dq ts (q, Low)) = None.
Proof.
  intros Hn Hq H. apply numa_loop_none in H as [-> Hj]. split; auto.
  set (j := (q + nn - numa) mod nn).
  assert (Hjq : (numa + j) mod nn = q).
  { unfold j. rewrite Nat.Div0.add_mod_idemp_r.
    replace (numa + (q + nn - numa)) with (q + 1 * nn) by lia.
    rewrite Nat.Div0.mod_add. apply Nat.mod_small. exact Hq. }
  assert (j < nn) by (apply Nat.mod_upper_bound; lia).
  rewrite <- Hjq. apply Hj; lia.
Qed.


Lemma steal_loop_pool n me id pick fuel target s1 s s' :
  (forall x, thread_pool s1 x = thread_pool s x) ->
  steal_loop n me id pick fuel target s1 = Some (None, s') ->
  s' = s1 /\
  forall t x, In t (visits n id fuel target) -> thread_pool s t = Some x ->
    pick x = true -> Forall (fun p => p = None) (queue x).
Proof.
  intros Hp H. apply steal_loop_none in H as [-> Hv]. split; auto.
  intros t x Hin Hx. apply (Hv t x Hin). rewrite Hp. exact Hx.
Qed.

(** X26: [next_task] returns [NULL] only when there is no work anywhere: the
    thread's [next_task] slot, the thread-local queues of all the threads
    of [thread_pool] and both deques of every task queue of the NUMA
    domains are empty; it then leaves the threads and the task queues as
    they were. This needs the bounds the runtime sets up: threads
    [0 .. num_threads-1] with the thread's own [thread_id] equal to its
    index, and NUMA ids below [num_numa_nodes]. *)
Theorem next_task_null_only_if_no_work n nn me s th s' :
  thread_pool s me = Some th -> thread_id th = me -> me < n -> 0 < nn ->
  (forall t x, thread_pool s t = Some x -> t < n /\ numa_id x < nn) ->
  next_task_of n nn me s = Some (None, s') ->
  next_task th = None /\
  (forall t x, thread_pool s t = Some x -> Forall (fun p => p = None) (queue x)) /\
  (forall q, q < nn ->
     head (dq (task_queue s) (q, High)) = None /\ head (dq (task_queue s) (q, Low)) = None) /\
  (forall t, thread_pool s' t = thread_pool s t) /\ task_queue s' = task_queue s.
Proof.
  intros Hth Hid Hme Hnn Hbound H.
  unfold next_task_of in H. rewrite Hth in H.
  destruct (next_task th) as [t0|] eqn:Ent.
  { discriminate H. }
  destruct (next_task_thread_loop (queue th)) as [[t0|] q'] eqn:El.
  { discriminate H. }
  apply next_task_thread_loop_none in El as [Hall ->].
  rewrite with_queue_self in H. cbn [TaskQueue.is_nonnull] in H.
  assert (Hp1 : forall x, thread_pool (set_thread s me th) x = thread_pool s x)
    by (intros; apply pool_set_same; exact Hth).
  rewrite Hp1 in H.
  destruct (thread_pool s (last_steal_thread_id th)) as [v|] eqn:Ev; [|discriminate H].
  destruct (next_task_thread_back_loop (queue v)) as [[t0|] q2] eqn:Eb; [discriminate H|].
  rewrite Hid in H.
  destruct (steal_loop n me me _ n ((me + 1) mod n) (set_thread s me th))
    as [[[t0|] s2]|] eqn:E1; [discriminate H| |discriminate H].
  apply (steal_loop_pool _ _ _ _ _ _ _ s) in E1 as [-> Hv1]; auto.
  rewrite task_queue_set in H.
  destruct (numa_loop nn (numa_id th) nn 0 (task_queue s)) as [[[t0|] ts]|] eqn:E2;
    [discriminate H| |discriminate H].
  destruct (Hbound me th Hth) as [_ Hnuma].
  assert (Hq : forall q, q < nn ->
     head (dq (task_queue s) (q, High)) = None /\ head (dq (task_queue s) (q, Low)) = None).
  { intros q Hq. destruct (numa_loop_covers _ _ _ _ q Hnuma Hq E2) as [_ Hq']. exact Hq'. }
  apply numa_loop_none in E2 as [-> _].
  assert (Hrest : (forall t x, thread_pool s t = Some x -> t <> me ->
      Nat.eqb (numa_id x) (numa_id th) = false -> Forall (fun p => p = None) (queue x)) /\
    (forall t, thread_pool s' t = thread_pool s t) /\ task_queue s' = task_queue s).
  { destruct (Nat.ltb_spec 1 nn).
    - apply (steal_loop_pool _ _ _ _ _ _ _ s) in H as [-> Hv2]; [|exact Hp1].
      split; [|split; [exact Hp1|reflexivity]].
      intros t x Hx Hne Hneq. destruct (Hbound t x Hx) as [Ht _].
      apply (Hv2 t x); auto using steal_start_covers. rewrite Hneq. reflexivity.
    - injection H as <-. split; [|split; [exact Hp1|reflexivity]].
      intros t x Hx Hne Hneq. destruct (Hbound t x Hx) as [_ Hx'].
      apply Nat.eqb_neq in Hneq. lia. }
  destruct Hrest as [Hrest [Hs' Htq]].
  split; [reflexivity|]. split; [|split; [exact Hq|split; [exact Hs'|exact Htq]]].
  intros t x Hx. destruct (Nat.eq_dec t me) as [->|Hne].
  { rewrite Hth in Hx. injection Hx as <-. exact Hall. }
  destruct (Nat.eqb (numa_id x) (numa_id th)) eqn:Eq; [|exact (Hrest t x Hx Hne Eq)].
  destruct (Hbound t x Hx) as [Ht _].
  apply (Hv1 t x); auto using steal_start_covers.
Qed.

Lemma next_task_null_only_if_no_work_witness :
  let s := mk_sched_state
             (fun t => if Nat.ltb t 2 then Some (mk_thread t 0 None [None; None] 0) else None)
             (init_state example_prio) in
  let th := mk_thread 0 0 None [None; None] 0 in
  let s' := match next_task_of 2 1 0 s with Some (_, s') => s' | None => s end in
  thread_pool s 0 = Some th /\ thread_id th = 0 /\ 0 < 2 /\ 0 < 1 /\
  (forall t x, thread_pool s t = Some x -> t < 2 /\ numa_id x < 1) /\
  next_task_of 2 1 0 s = Some (None, s') /\
  next_task th = None /\
  (forall t x, thread_pool s t = Some x -> Forall (fun p => p = None) (queue x)) /\
  (forall q, q < 1 ->
     head (dq (task_queue s) (q, High)) = None /\ head (dq (task_queue s) (q, Low)) = None) /\
  (forall t, thread_pool s' t = thread_pool s t) /\ task_queue s' = task_queue s.
Proof.
  intros s th s'.
  assert (H1 : thread_pool s 0 = Some th) by reflexivity.
  assert (H5 : forall t x, thread_pool s t = Some x -> t < 2 /\ numa_id x < 1).
  { intros t x Hx. simpl in Hx. destruct (Nat.ltb_spec t 2); [|discriminate Hx].
    injection Hx as <-. simpl. lia. }
  assert (H6 : next_task_of 2 1 0 s = Some (None, s')) by (vm_compute; reflexivity).
  split; [exact H1|]. split; [reflexivity|]. split; [lia|]. split; [lia|].
  split; [exact H5|]. split; [exact H6|].
  exact (next_task_null_only_if_no_work 2 1 0 s th s' H1 eq_refl
           ltac:(lia) ltac:(lia) H5 H6).
Defined.


(** X27: [next_task_thread] takes the task of the first non-empty slot of a
    thread-local queue and [next_task_thread_back] the task of the last
    one; each empties that slot and leaves the other slots as they were. *)
Theorem next_task_thread_slot_order pre t post :
  Forall (fun p => p = None) pre -> Forall (fun p => p = None) post ->
  (forall mid, next_task_thread_loop (pre ++ Some t :: mid) = (Some t, pre ++ None :: mid)) /\
  (forall mid, next_task_thread_back_loop (mid ++ Some t :: post) = (Some t, mid ++ None :: post)).
Proof.
  intros Hpre Hpost. split.
  - intros mid. induction Hpre as [|x pre Hx Hpre IH]; [reflexivity|].
    subst x. simpl. rewrite IH. reflexivity.
  - assert (Hb : next_task_thread_back_loop post = (None, post)).
    { induction Hpost as [|x post Hx Hpost IH]; [reflexivity|].
      subst x. simpl. rewrite IH. reflexivity. }
    induction mid as [|x mid IH].
    + simpl. rewrite Hb. reflexivity.
    + simpl. rewrite IH. reflexivity.
Qed.

Lemma next_task_thread_slot_order_witness :
  Forall (fun p : TaskQueue.ptr => p = None) [None] /\
  Forall (fun p : TaskQueue.ptr => p = None) [None; None] /\
  (forall mid, next_task_thread_loop ([None] ++ Some 5 :: mid) = (Some 5, [None] ++ None :: mid)) /\
  (forall mid, next_task_thread_back_loop (mid ++ Some 5 :: [None; None]) =
               (Some 5, mid ++ None :: [None; None])).
Proof.
  assert (H1 : Forall (fun p : TaskQueue.ptr => p = None) [None]) by (repeat constructor).
  assert (H2 : Forall (fun p : TaskQueue.ptr => p = None) [None; None]) by (repeat constructor).
  split; [exact H1|]. split; [exact H2|].
  exact (next_task_thread_slot_order [None] 5 [None; None] H1 H2).
Defined.

End WorkerFacts.
